(** * DwarFS metadata: builder packing and reader consistency checks

    A shallow embedding of the parts of [src/dwarfs/scanner.cpp] and
    [src/dwarfs/metadata_types.cpp] that build, pack, check and unpack
    the frozen metadata tables, together with the properties the
    specification states about them.

    Conventions.
    - Unsigned machine integers are values of [Z] with the wrap-around
      of their width written out ([u16], [u32], [u64]).
    - Vectors and frozen ranges are lists; an index of type [Z] is used
      through [Z.to_nat]; reading outside a range is an error.
    - [DWARFS_THROW(runtime_error, msg)] is [throw msg]; a failed
      [DWARFS_CHECK] is [Err (CheckFailed msg)].
    - Loops whose termination depends on the data take fuel. *)

From Stdlib Require Import ZArith Lia Ascii String.
From stdpp Require Import base tactics option list numbers strings gmap.

Local Open Scope string_scope.
Local Open Scope list_scope.
Local Open Scope Z_scope.

(** ** Machine integers *)

Definition wrap (w : Z) (z : Z) : Z := z mod 2 ^ w.
Definition u16 : Z → Z := wrap 16.
Definition u32 : Z → Z := wrap 32.
Definition u64 : Z → Z := wrap 64.

(** Conversion of a 32-bit pattern to [int] (two's complement). *)
Definition int32 (z : Z) : Z :=
  let m := u32 z in if m <? 2 ^ 31 then m else m - 2 ^ 32.

Definition UINT16_MAX : Z := 2 ^ 16 - 1.
Definition UINT32_MAX : Z := 2 ^ 32 - 1.

(** [size()] of a vector, as a [size_t]. *)
Definition size {A} (l : list A) : Z := Z.of_nat (length l).

(** ** Errors *)

Inductive error :=
| RuntimeError (msg : string)   (* DWARFS_THROW(runtime_error, msg) *)
| SystemError (msg : string)    (* std::system_error *)
| CheckFailed (msg : string)    (* DWARFS_CHECK / DWARFS_NOTHROW *)
| OutOfRange                    (* read outside a range: undefined *)
| OutOfFuel.                    (* the loop did not finish in the fuel *)

Inductive result (A : Type) :=
| Ok (a : A)
| Err (e : error).
Arguments Ok {A} a.
Arguments Err {A} e.

#[global] Instance result_ret : MRet result := λ A a, Ok a.
#[global] Instance result_bind : MBind result := λ A B f m,
  match m with Ok a => f a | Err e => Err e end.

Definition throw {A} (msg : string) : result A := Err (RuntimeError msg).

Definition DWARFS_CHECK (b : bool) (msg : string) : result unit :=
  if b then Ok tt else Err (CheckFailed msg).

(** [if (c) DWARFS_THROW(runtime_error, msg);] *)
Definition throw_if (c : bool) (msg : string) : result unit :=
  if c then throw msg else Ok tt.

(** [v[i]] on a vector or frozen range. *)
Definition at_ {A} (l : list A) (i : Z) : result A :=
  match l !! Z.to_nat i with
  | Some x => Ok x
  | None => Err OutOfRange
  end.

(** [v.back()] on a vector or frozen range. *)
Definition back {A} (l : list A) : result A :=
  match list.last l with
  | Some x => Ok x
  | None => Err OutOfRange
  end.

(** A range-based [for] whose body may throw. *)
Fixpoint for_each {A} (body : A → result unit) (l : list A) : result unit :=
  match l with
  | [] => Ok tt
  | x :: l' => body x ;; for_each body l'
  end.

Definition is_ok {A} (r : result A) : bool :=
  match r with Ok _ => true | Err _ => false end.

(** ** Standard algorithms used by the source *)

(** [std::is_sorted(first, last, comp)]: no element is [comp]-less than
    its predecessor. *)
Fixpoint is_sorted_by {A} (comp : A → A → bool) (l : list A) : bool :=
  match l with
  | [] => true
  | x :: l' =>
      match l' with
      | [] => true
      | y :: _ => negb (comp y x) && is_sorted_by comp l'
      end
  end.

Definition is_sorted (l : list Z) : bool := is_sorted_by Z.ltb l.

(** [std::max_element(first, last, comp)] on a non-empty range: the first
    of the greatest elements. *)
Fixpoint max_element_by {A} (comp : A → A → bool) (best : A) (l : list A) : A :=
  match l with
  | [] => best
  | x :: l' => max_element_by comp (if comp best x then x else best) l'
  end.

Definition max_element {A} (comp : A → A → bool) (l : list A) : option A :=
  match l with
  | [] => None
  | x :: l' => Some (max_element_by comp x l')
  end.

(** [std::accumulate(first, last, init, op)]. *)
Definition accumulate {A B} (op : B → A → B) (init : B) (l : list A) : B :=
  foldl op init l.

(** [std::is_partitioned]: every element satisfying [pred] precedes every
    element that does not. *)
Fixpoint is_partitioned {A} (pred : A → bool) (l : list A) : bool :=
  match l with
  | [] => true
  | x :: l' => if pred x then is_partitioned pred l'
               else forallb (λ y, negb (pred y)) l'
  end.

(** [std::distance(begin, std::partition_point(begin, end, pred))]: the
    length of the leading run of elements satisfying [pred]. *)
Fixpoint partition_point {A} (pred : A → bool) (l : list A) : Z :=
  match l with
  | [] => 0
  | x :: l' => if pred x then 1 + partition_point pred l' else 0
  end.

(** [std::adjacent_difference] on [uint32_t]: the first element is kept,
    each later one is replaced by its difference to its predecessor. *)
Fixpoint adjacent_difference_from (prev : Z) (l : list Z) : list Z :=
  match l with
  | [] => []
  | x :: l' => u32 (x - prev) :: adjacent_difference_from x l'
  end.

Definition adjacent_difference (l : list Z) : list Z :=
  match l with
  | [] => []
  | x :: l' => x :: adjacent_difference_from x l'
  end.

(** ** File modes ([sys/stat.h]) *)

Definition S_IFMT  : Z := 0xF000.  (* 0170000 *)
Definition S_IFDIR : Z := 0x4000.  (* 0040000 *)
Definition S_IFCHR : Z := 0x2000.  (* 0020000 *)
Definition S_IFBLK : Z := 0x6000.  (* 0060000 *)
Definition S_IFREG : Z := 0x8000.  (* 0100000 *)
Definition S_IFLNK : Z := 0xA000.  (* 0120000 *)
Definition S_IFIFO : Z := 0x1000.  (* 0010000 *)

(** ** The metadata tables ([thrift::metadata]) *)

Record chunk := mk_chunk {
  chunk_block : Z;
  chunk_offset : Z;
  chunk_size : Z }.

Record directory := mk_directory {
  parent_entry : Z;
  first_entry : Z }.

Record inode_data := mk_inode_data {
  mode_index : Z;
  owner_index : Z;
  group_index : Z;
  atime_offset : Z;
  mtime_offset : Z;
  ctime_offset : Z;
  name_index_v2_2 : Z;
  inode_v2_2 : Z }.

Record dir_entry := mk_dir_entry {
  name_index : Z;
  inode_num : Z }.

Record fs_options := mk_fs_options {
  mtime_only : bool;
  time_resolution_sec : option Z;
  packed_chunk_table : bool;
  packed_directories : bool;
  packed_shared_files_table : bool }.

Record string_table := mk_string_table {
  buffer : list Byte.byte;
  symtab : option (list Byte.byte);
  index : list Z;
  packed_index : bool }.

(** A string of a frozen plain string table: its bytes and where they
    start in the mapped region. *)
Record frozen_string := mk_frozen_string {
  fs_begin : Z;
  fs_data : string }.

Definition fs_size (s : frozen_string) : Z := Z.of_nat (String.length (fs_data s)).
Definition fs_end (s : frozen_string) : Z := fs_begin s + fs_size s.

Record metadata := mk_metadata {
  chunks : list chunk;
  directories : list directory;
  inodes : list inode_data;
  chunk_table : list Z;
  entry_table_v2_2 : list Z;
  symlink_table : list Z;
  uids : list Z;
  gids : list Z;
  modes : list Z;
  names : list frozen_string;
  symlinks : list frozen_string;
  timestamp_base : Z;
  block_size : Z;
  total_fs_size : Z;
  devices : option (list Z);
  options : option fs_options;
  dir_entries : option (list dir_entry);
  shared_files_table : option (list Z);
  total_hardlink_size : option Z;
  dwarfs_version : option string;
  create_timestamp : option Z;
  compact_names : option string_table;
  compact_symlinks : option string_table }.

(** [auto opts = meta->options(); opts and opts->flag()] *)
Definition option_set (flag : fs_options → bool) (meta : metadata) : bool :=
  match options meta with
  | Some opts => flag opts
  | None => false
  end.

(** ** The reader's consistency checks ([metadata_types.cpp]) *)

Definition mode_rank (mode : Z) : Z :=
  let fmt := Z.land mode S_IFMT in
  if fmt =? S_IFDIR then 0
  else if fmt =? S_IFLNK then 1
  else if fmt =? S_IFREG then 2
  else if (fmt =? S_IFBLK) || (fmt =? S_IFCHR) then 3
  else 4.

Definition check_empty_tables (meta : metadata) : result unit :=
  throw_if (bool_decide (inodes meta = [])) "empty inodes table" ;;
  throw_if (bool_decide (directories meta = [])) "empty directories table" ;;
  throw_if (bool_decide (chunk_table meta = [])) "empty chunk_table table" ;;
  match dir_entries meta with
  | Some de => throw_if (bool_decide (de = [])) "empty dir_entries table"
  | None => throw_if (bool_decide (entry_table_v2_2 meta = []))
                     "empty entry_table_v2_2 table"
  end ;;
  throw_if (bool_decide (modes meta = [])) "empty modes table".

Definition check_index_range (meta : metadata) : result unit :=
  let num_modes := size (modes meta) in
  let num_uids := size (uids meta) in
  let num_gids := size (gids meta) in
  let num_names := size (names meta) in
  let num_inodes := size (inodes meta) in
  let v2_2 := negb (bool_decide (is_Some (dir_entries meta))) in
  throw_if (UINT16_MAX <=? num_modes) "invalid number of modes" ;;
  throw_if (UINT16_MAX <=? num_uids) "invalid number of uids" ;;
  throw_if (UINT16_MAX <=? num_gids) "invalid number of gids" ;;
  throw_if (UINT32_MAX <=? num_names) "invalid number of names" ;;
  throw_if (UINT32_MAX <=? num_inodes) "invalid number of inodes" ;;
  for_each (λ ino,
    throw_if (num_modes <=? mode_index ino) "mode_index out of range" ;;
    (let i := owner_index ino in
     throw_if ((num_uids <=? i) && (0 <? i)) "owner_index out of range") ;;
    (let i := group_index ino in
     throw_if ((num_gids <=? i) && (0 <? i)) "group_index out of range") ;;
    if v2_2 then
      let i := name_index_v2_2 ino in
      throw_if ((num_names <=? i) && (0 <? i)) "name_index_v2_2 out of range"
    else Ok tt) (inodes meta) ;;
  match dir_entries meta with
  | Some dep =>
      throw_if (UINT32_MAX <=? size dep) "invalid number of dir_entries" ;;
      num_names ←
        match compact_names meta with
        | Some cn =>
            let num_names := size (index cn) in
            if negb (packed_index cn) then
              throw_if (num_names =? 0) "empty compact_names index" ;;
              Ok (num_names - 1)
            else Ok num_names
        | None => Ok num_names
        end ;
      for_each (λ de,
        (let i := name_index de in
         throw_if ((num_names <=? i) && (0 <? i)) "name_index out of range") ;;
        (let i := inode_num de in
         throw_if (num_inodes <=? i) "inode_num out of range")) dep
  | None =>
      throw_if (UINT32_MAX <=? size (entry_table_v2_2 meta))
               "invalid number of entries" ;;
      for_each (λ ent,
        throw_if (num_inodes <=? ent) "entry_table_v2_2 value out of range")
        (entry_table_v2_2 meta)
  end.

Definition check_packed_tables (meta : metadata) : result unit :=
  throw_if (UINT32_MAX <=? size (directories meta))
           "invalid number of directories" ;;
  throw_if (UINT32_MAX <=? size (chunk_table meta))
           "invalid number of chunk_table entries" ;;
  (if option_set packed_directories meta then
     throw_if (existsb (λ i, negb (parent_entry i =? 0)) (directories meta))
              "parent_entry set in packed directory" ;;
     de ← from_option Ok (Err OutOfRange) (dir_entries meta) ;
     throw_if (negb (accumulate (λ n d, u64 (n + first_entry d)) 0
                                (directories meta) =? size de))
              "first_entry inconsistency in packed directories"
   else
     let num_entries :=
       match dir_entries meta with
       | Some de => size de
       | None => size (inodes meta)
       end in
     throw_if (negb (is_sorted_by (λ a b, first_entry a <? first_entry b)
                                  (directories meta)))
              "first_entry inconsistency" ;;
     for_each (λ d,
       throw_if (num_entries <? first_entry d) "first_entry out of range" ;;
       throw_if (num_entries <=? parent_entry d) "parent_entry out of range")
       (directories meta)) ;;
  if option_set packed_chunk_table meta then
    throw_if (negb (accumulate (λ n c, u64 (n + c)) 0 (chunk_table meta)
                    =? size (chunks meta)))
             "packed chunk_table inconsistency"
  else
    back ← back (chunk_table meta) ;
    throw_if (negb (is_sorted (chunk_table meta))
              || negb (back =? size (chunks meta)))
             "chunk_table inconsistency".

(** [std::accumulate(first, last, 0)] over [uint32_t] items: the
    accumulator has the type of the initial value, [int]. *)
Definition accumulate_int (l : list Z) : Z :=
  accumulate (λ n x, int32 (n + x)) 0 l.

Definition check_compact_strings (v : string_table) (expected_num : Z)
    (max_item_len : Z) (what : string) : result unit :=
  let index_size := size (index v) in
  let index_size :=
    if negb (packed_index v) && (0 <? index_size)
    then index_size - 1 else index_size in
  throw_if (negb (index_size =? expected_num))
           ("unexpected number of compact " +:+ what) ;;
  '(expected_data_size, longest_item_len) ←
    match index v with
    | [] => Ok (0, 0)
    | x :: l' =>
        if packed_index v then
          Ok (u64 (accumulate_int (index v)), max_element_by Z.ltb x l')
        else
          expected_data_size ← back (index v) ;
          throw_if (negb (is_sorted (index v)))
                   ("inconsistent index for compact " +:+ what) ;;
          Ok (expected_data_size, 0)
    end ;
  throw_if (negb (size (buffer v) =? expected_data_size))
           ("data size mismatch for compact " +:+ what) ;;
  throw_if (max_item_len <? longest_item_len)
           ("invalid item length in compact " +:+ what).

Definition check_plain_strings (v : list frozen_string) (expected_num : Z)
    (max_item_len : Z) (what : string) : result unit :=
  throw_if (negb (size v =? expected_num)) ("unexpected number of " +:+ what) ;;
  for_each (λ s,
    throw_if (max_item_len <? fs_size s) ("unexpectedly long item in " +:+ what))
    v ;;
  let total_size := accumulate (λ n s, u64 (n + fs_size s)) 0 v in
  match v with
  | [] => Ok tt
  | front :: _ =>
      back ← back v ;
      throw_if (negb (total_size =? u64 (fs_end back - fs_begin front)))
               ("unexpectedly data size in " +:+ what)
  end.

Definition max_name_len : Z := 512.
Definition max_symlink_len : Z := 4096.

Definition check_string_tables (meta : metadata) : result unit :=
  let num_names :=
    match dir_entries meta with
    | Some dep =>
        if 1 <? size dep then
          match max_element (λ a b, name_index a <? name_index b) dep with
          | Some m => u32 (name_index m + 1)
          | None => 0
          end
        else 0
    | None =>
        if 1 <? size (inodes meta) then
          match max_element (λ a b, name_index_v2_2 a <? name_index_v2_2 b)
                            (inodes meta) with
          | Some m => u32 (name_index_v2_2 m + 1)
          | None => 0
          end
        else 0
    end in
  match compact_names meta with
  | Some cn => check_compact_strings cn num_names max_name_len "names"
  | None => check_plain_strings (names meta) num_names max_name_len "names"
  end ;;
  let num_symlink_strings :=
    match max_element Z.ltb (symlink_table meta) with
    | Some m => u32 (m + 1)
    | None => 0
    end in
  match compact_symlinks meta with
  | Some cs => check_compact_strings cs num_symlink_strings max_symlink_len
                                     "symlink strings"
  | None => check_plain_strings (symlinks meta) num_symlink_strings
                                max_symlink_len "symlink strings"
  end.

Definition check_chunks (meta : metadata) : result unit :=
  let block_size := block_size meta in
  throw_if ((block_size =? 0)
            || negb (Z.land block_size (u32 (block_size - 1)) =? 0))
           "invalid block size" ;;
  throw_if (UINT32_MAX <=? size (chunks meta)) "invalid number of chunks" ;;
  for_each (λ c,
    throw_if ((block_size <=? chunk_offset c) || (block_size <? chunk_size c))
             "chunk offset/size out of range" ;;
    throw_if (block_size <? u32 (chunk_offset c + chunk_size c))
             "chunk end outside of block") (chunks meta).

(** The rank of the mode an inode row refers to, and of the inode an
    entry of the legacy table refers to: the argument of the
    partitioning predicates. *)
Definition inode_rank (meta : metadata) (ino : inode_data) : result Z :=
  mode ← at_ (modes meta) (mode_index ino) ;
  Ok (mode_rank mode).

Definition entry_rank (meta : metadata) (ent : Z) : result Z :=
  ino ← at_ (inodes meta) ent ;
  inode_rank meta ino.

(** The ranks of the sequence [check_partitioning] partitions: the inodes
    table, or the legacy entry table, in order. *)
Definition partition_ranks (meta : metadata) : result (list Z) :=
  match dir_entries meta with
  | Some _ => mapM (inode_rank meta) (inodes meta)
  | None => mapM (entry_rank meta) (entry_table_v2_2 meta)
  end.

(** The predicates [mode_rank(...) < r] only look at the rank, so they are
    evaluated on the list of ranks. *)
Definition check_partitioning (meta : metadata) : result (list Z) :=
  ranks ← partition_ranks meta ;
  mapM (λ r,
    let pred := λ k, k <? r in
    throw_if (negb (is_partitioned pred ranks))
             (match dir_entries meta with
              | Some _ => "inode table inconsistency"
              | None => "entry_table_v2_2 inconsistency"
              end) ;;
    Ok (partition_point pred ranks)) [0; 1; 2; 3; 4; 5].

(** The numbers of unique and of shared regular files, as
    [check_metadata] derives them from the chunk table and the
    shared-files table. *)
Definition num_reg_files (meta : metadata) : result (Z * Z) :=
  let num_reg_unique := u64 (size (chunk_table meta) - 1) in
  match shared_files_table meta with
  | Some sfp =>
      opts ← from_option Ok (Err OutOfRange) (options meta) ;
      if packed_shared_files_table opts then
        Ok (u64 (num_reg_unique - size sfp),
            accumulate (λ n c, u64 (n + c)) (u64 (2 * size sfp)) sfp)
      else
        throw_if (negb (is_sorted sfp))
                 "unpacked shared_files_table is not sorted" ;;
        Ok (match list.last sfp with
            | Some b => u64 (num_reg_unique - u32 (b + 1))
            | None => num_reg_unique
            end, size sfp)
  | None => Ok (num_reg_unique, 0)
  end.

Definition num_devices (meta : metadata) : Z :=
  match devices meta with
  | Some d => size d
  | None => 0
  end.

Definition check_metadata (meta : metadata) (check : bool) : result metadata :=
  if check then
    check_empty_tables meta ;;
    check_index_range meta ;;
    check_packed_tables meta ;;
    check_string_tables meta ;;
    check_chunks meta ;;
    offsets ← check_partitioning meta ;
    let num_dir := u64 (size (directories meta) - 1) in
    let num_lnk := size (symlink_table meta) in
    '(num_reg_unique, num_reg_shared) ← num_reg_files meta ;
    let num_dev := num_devices meta in
    o1 ← at_ offsets 1 ;
    o2 ← at_ offsets 2 ;
    o3 ← at_ offsets 3 ;
    o4 ← at_ offsets 4 ;
    throw_if (negb (num_dir =? o1)) "wrong number of directories" ;;
    throw_if (negb (num_lnk =? u64 (o2 - o1))) "wrong number of links" ;;
    throw_if (negb (u64 (num_reg_unique + num_reg_shared) =? u64 (o3 - o2)))
             "wrong number of files" ;;
    throw_if (negb (num_dev =? u64 (o4 - o3))) "wrong number of devices" ;;
    match dir_entries meta with
    | Some _ => Ok tt
    | None =>
        for_each (λ ino,
          mode ← at_ (modes meta) (mode_index ino) ;
          let i := inode_v2_2 ino in
          let base := mode_rank mode in
          lo ← at_ offsets base ;
          hi ← at_ offsets (base + 1) ;
          throw_if ((i <? lo) || ((hi <=? i) && (lo <? i)))
                   "inode_v2_2 out of range") (inodes meta)
    end ;;
    Ok meta
  else Ok meta.

(** ** Unpacking the directories table ([unpack_directories]) *)

(** Delta-decoding of the first entries into the freshly resized vector
    (every [parent_entry] is still zero). *)
Fixpoint unpack_first_entries (prev : Z) (metadir : list directory)
    : list directory :=
  match metadir with
  | [] => []
  | d :: rest =>
      let first := u32 (prev + first_entry d) in
      mk_directory 0 first :: unpack_first_entries first rest
  end.

Definition set_parent_entry (parent : Z) (d : directory) : directory :=
  mk_directory parent (first_entry d).

(** The body of the inner [for] loop over the entries of one directory. *)
Definition visit_entry (dirent : list dir_entry) (parent : Z)
    (st : list directory * list Z) (e : Z)
    : result (list directory * list Z) :=
  let '(directories, queue) := st in
  de ← at_ dirent e ;
  let e_ino := inode_num de in
  if e_ino <? u64 (size directories - 1) then
    Ok (alter (set_parent_entry parent) (Z.to_nat e_ino) directories,
        queue ++ [e])
  else Ok st.

Fixpoint visit_entries (dirent : list dir_entry) (parent : Z)
    (st : list directory * list Z) (es : list Z)
    : result (list directory * list Z) :=
  match es with
  | [] => Ok st
  | e :: es' =>
      st' ← visit_entry dirent parent st e ;
      visit_entries dirent parent st' es'
  end.

(** The [while (!queue.empty())] traversal that recovers the parent
    entries; one unit of fuel per directory taken from the queue. *)
Fixpoint recover_parent_entries (fuel : nat) (dirent : list dir_entry)
    (queue : list Z) (directories : list directory)
    : result (list directory) :=
  match queue with
  | [] => Ok directories
  | parent :: queue' =>
      match fuel with
      | O => Err OutOfFuel
      | S fuel' =>
          pde ← at_ dirent parent ;
          let p_ino := inode_num pde in
          dbeg ← at_ directories p_ino ;
          dend ← at_ directories (u32 (p_ino + 1)) ;
          let beg := first_entry dbeg in
          let end_ := first_entry dend in
          '(directories', queue'') ←
            visit_entries dirent parent (directories, queue')
                          (seqZ beg (end_ - beg)) ;
          recover_parent_entries fuel' dirent queue'' directories'
      end
  end.

Definition unpack_directories (fuel : nat) (meta : metadata)
    : result (list directory) :=
  if option_set packed_directories meta then
    dirent ← from_option Ok (Err OutOfRange) (dir_entries meta) ;
    match directories meta with
    | [] => Err OutOfRange
    | d0 :: metadir =>
        let directories :=
          mk_directory 0 (first_entry d0)
            :: unpack_first_entries (first_entry d0) metadir in
        recover_parent_entries fuel dirent [0] directories
    end
  else Ok [].

(** ** The reader's views ([global_metadata], [dir_entry_view],
    [directory_view]) *)

(** [names_] is the decoded names table; [directories_] is null exactly
    when [directories_storage_] is empty. *)
Record global_metadata := mk_global_metadata {
  meta_ : metadata;
  directories_storage_ : list directory;
  names_ : list string }.

(** The constructor. Decoding a compact names table is the work of the
    [string_table] class, taken here as [string_table_new]. *)
Definition global_metadata_new (string_table_new : string_table → list string)
    (fuel : nat) (meta : metadata) (check_consistency : bool)
    : result global_metadata :=
  m ← check_metadata meta check_consistency ;
  storage ← unpack_directories fuel m ;
  Ok (mk_global_metadata m storage
        (match compact_names m with
         | Some cn => string_table_new cn
         | None => fs_data <$> names m
         end)).

(** The table [first_dir_entry] and [parent_dir_entry] read from. *)
Definition directories_ (g : global_metadata) : list directory :=
  match directories_storage_ g with
  | [] => directories (meta_ g)
  | _ :: _ => directories_storage_ g
  end.

Definition first_dir_entry (g : global_metadata) (ino : Z) : result Z :=
  d ← at_ (directories_ g) ino ;
  Ok (first_entry d).

Definition parent_dir_entry (g : global_metadata) (ino : Z) : result Z :=
  d ← at_ (directories_ g) ino ;
  Ok (parent_entry d).

Inductive entry_view :=
| DirEntryView (dev : dir_entry)
| InodeView (iv : inode_data).

Record dir_entry_view := mk_dir_entry_view {
  v_ : entry_view;
  self_index_ : Z;
  parent_index_ : Z;
  g_ : global_metadata }.

Definition dir_entry_view_name (v : dir_entry_view) : result string :=
  match v_ v with
  | DirEntryView dev => at_ (names_ (g_ v)) (name_index dev)
  | InodeView iv =>
      s ← at_ (names (meta_ (g_ v))) (name_index_v2_2 iv) ;
      Ok (fs_data s)
  end.

Definition dir_entry_view_is_root (v : dir_entry_view) : bool :=
  match v_ v with
  | DirEntryView dev => inode_num dev =? 0
  | InodeView iv => inode_v2_2 iv =? 0
  end.

(** [from_dir_entry_index(self_index, g)]: the view of a directory's own
    entry; its parent index comes from the directories table. *)
Definition from_dir_entry_index (self_index : Z) (g : global_metadata)
    : result dir_entry_view :=
  let meta := meta_ g in
  match dir_entries meta with
  | Some de =>
      DWARFS_CHECK (self_index <? size de) "self_index out of range" ;;
      dev ← at_ de self_index ;
      DWARFS_CHECK (inode_num dev <? size (directories meta))
                   "self_index inode out of range" ;;
      parent_index ← parent_dir_entry g (inode_num dev) ;
      Ok (mk_dir_entry_view (DirEntryView dev) self_index parent_index g)
  | None =>
      DWARFS_CHECK (self_index <? size (inodes meta))
                   "self_index out of range" ;;
      iv ← at_ (inodes meta) self_index ;
      DWARFS_CHECK (inode_v2_2 iv <? size (directories meta))
                   "parent_index out of range" ;;
      d ← at_ (directories meta) (inode_v2_2 iv) ;
      parent_index ← at_ (entry_table_v2_2 meta) (parent_entry d) ;
      Ok (mk_dir_entry_view (InodeView iv) self_index parent_index g)
  end.

(** [from_dir_entry_index(self_index, parent_index, g)]. *)
Definition from_dir_entry_index_parent (self_index parent_index : Z)
    (g : global_metadata) : result dir_entry_view :=
  let meta := meta_ g in
  match dir_entries meta with
  | Some de =>
      DWARFS_CHECK (self_index <? size de) "self_index out of range" ;;
      DWARFS_CHECK (parent_index <? size de) "parent_index out of range" ;;
      dev ← at_ de self_index ;
      Ok (mk_dir_entry_view (DirEntryView dev) self_index parent_index g)
  | None =>
      DWARFS_CHECK (self_index <? size (inodes meta))
                   "self_index out of range" ;;
      DWARFS_CHECK (parent_index <? size (inodes meta))
                   "self_index out of range" ;;
      iv ← at_ (inodes meta) self_index ;
      Ok (mk_dir_entry_view (InodeView iv) self_index parent_index g)
  end.

Definition dir_entry_view_parent (v : dir_entry_view)
    : result (option dir_entry_view) :=
  if dir_entry_view_is_root v then Ok None
  else
    p ← from_dir_entry_index (parent_index_ v) (g_ v) ;
    Ok (Some p).

(** [append_path_to] recurses along the parent chain; one unit of fuel per
    call. *)
Fixpoint dir_entry_view_append_path_to (fuel : nat) (v : dir_entry_view)
    (s : string) : result string :=
  match fuel with
  | O => Err OutOfFuel
  | S fuel' =>
      p ← dir_entry_view_parent v ;
      s ← match p with
          | Some p =>
              if negb (dir_entry_view_is_root p) then
                s ← dir_entry_view_append_path_to fuel' p s ;
                Ok (s +:+ "/")
              else Ok s
          | None => Ok s
          end ;
      if negb (dir_entry_view_is_root v) then
        n ← dir_entry_view_name v ;
        Ok (s +:+ n)
      else Ok s
  end.

Definition dir_entry_view_path (fuel : nat) (v : dir_entry_view)
    : result string :=
  dir_entry_view_append_path_to fuel v "".

Record directory_view := mk_directory_view {
  inode_ : Z;
  dv_g_ : global_metadata }.

Definition directory_view_first_entry (v : directory_view) (ino : Z)
    : result Z :=
  first_dir_entry (dv_g_ v) ino.

Definition directory_view_parent_entry (v : directory_view) (ino : Z)
    : result Z :=
  parent_dir_entry (dv_g_ v) ino.

Definition directory_view_entry_count (v : directory_view) : result Z :=
  next ← directory_view_first_entry v (u32 (inode_ v + 1)) ;
  first ← directory_view_first_entry v (inode_ v) ;
  Ok (u32 (next - first)).

Definition directory_view_parent_inode (v : directory_view) : result Z :=
  if inode_ v =? 0 then Ok 0
  else
    ent ← directory_view_parent_entry v (inode_ v) ;
    match dir_entries (meta_ (dv_g_ v)) with
    | Some e =>
        de ← at_ e ent ;
        Ok (inode_num de)
    | None => Ok ent
    end.

(** ** The builder's packing transforms ([scanner.cpp]) *)

Record scanner_options := mk_scanner_options {
  with_devices : bool;
  with_specials : bool;
  keep_all_times : bool;
  opt_time_resolution_sec : Z;
  pack_chunk_table : bool;
  pack_directories : bool;
  pack_shared_files_table : bool;
  plain_names_table : bool;
  plain_symlinks_table : bool;
  no_create_timestamp : bool }.

(** The loop of [scan] under [if (options_.pack_directories)]. *)
Fixpoint pack_directories_loop (last_first_entry : Z) (ds : list directory)
    : list directory :=
  match ds with
  | [] => []
  | d :: rest =>
      let delta := u32 (first_entry d - last_first_entry) in
      mk_directory 0 delta :: pack_directories_loop (first_entry d) rest
  end.

Definition pack_directory_table (ds : list directory) : list directory :=
  pack_directories_loop 0 ds.

(** [save_shared_files_visitor::pack_shared_files]. The loop state is
    [(count, index, compressed)]. *)
Definition pack_shared_step (st : Z * Z * list Z) (i : Z)
    : result (Z * Z * list Z) :=
  let '(count, index, compressed) := st in
  if i =? index then Ok (u32 (count + 1), index, compressed)
  else
    let index := u32 (index + 1) in
    DWARFS_CHECK (i =? index) "inconsistent shared files vector" ;;
    DWARFS_CHECK (2 <=? count) "unique file in shared files vector" ;;
    Ok (1, index, compressed ++ [u32 (count - 2)]).

Fixpoint pack_shared_loop (st : Z * Z * list Z) (l : list Z)
    : result (Z * Z * list Z) :=
  match l with
  | [] => Ok st
  | i :: l' =>
      st' ← pack_shared_step st i ;
      pack_shared_loop st' l'
  end.

Definition pack_shared_files (shared_files_ : list Z) : result (list Z) :=
  match list.last shared_files_ with
  | None => Ok shared_files_
  | Some last =>
      DWARFS_CHECK (is_sorted shared_files_) "shared files vector not sorted" ;;
      '(count, _, compressed) ← pack_shared_loop (0, 0, []) shared_files_ ;
      let compressed := compressed ++ [u32 (count - 2)] in
      DWARFS_CHECK (size compressed =? u32 (last + 1))
                   "unexpected compressed vector size" ;;
      Ok compressed
  end.

(** Modelled from the spec: the reader's unpacking of the shared-files
    table (in [metadata_v2.cpp], not part of the sources at hand). The
    packed form stores [count - 2] per run (spec 3, invariant 9, and 4.3),
    so the entry at position [index] stands for [c + 2] copies of
    [index]. *)
Fixpoint unpack_shared_from (index : Z) (packed : list Z) : list Z :=
  match packed with
  | [] => []
  | c :: rest =>
      replicate (Z.to_nat (c + 2)) index
        ++ unpack_shared_from (u32 (index + 1)) rest
  end.

Definition unpack_shared_files (packed : list Z) : list Z :=
  unpack_shared_from 0 packed.

(** An inode of the inode manager: its number among the unique files and
    its chunks. *)
Record inode := mk_inode {
  num : Z;
  inode_chunks : list chunk }.

(** [v.at(i) = x] under [DWARFS_NOTHROW]. *)
Definition set_at (v : list Z) (i : Z) (x : Z) : result (list Z) :=
  if (0 <=? i) && (i <? size v) then Ok (<[Z.to_nat i := x]> v)
  else Err (CheckFailed "std::out_of_range").

(** The callback of [for_each_inode_in_order] in [scan]. *)
Definition save_inode_chunks (st : list Z * list chunk) (ino : inode)
    : result (list Z * list chunk) :=
  let '(chunk_table, chunks) := st in
  chunk_table ← set_at chunk_table (num ino) (u32 (size chunks)) ;
  Ok (chunk_table, chunks ++ inode_chunks ino).

Fixpoint for_each_inode (st : list Z * list chunk) (inos : list inode)
    : result (list Z * list chunk) :=
  match inos with
  | [] => Ok st
  | ino :: inos' =>
      st' ← save_inode_chunks st ino ;
      for_each_inode st' inos'
  end.

(** "saving chunks...": [inos] are the inodes of the inode manager in the
    order [for_each_inode_in_order] visits them, [im.count()] their
    number. *)
Definition save_chunks (inos : list inode) : result (list Z * list chunk) :=
  let count := size inos in
  let chunk_table := replicate (Z.to_nat (count + 1)) 0 in
  '(chunk_table, chunks) ← for_each_inode (chunk_table, []) inos ;
  chunk_table ← set_at chunk_table count (u32 (size chunks)) ;
  Ok (chunk_table, chunks).

(** Modelled from the spec: [metadata_v2::freeze] stores the strings of a
    plain table back to back (spec 4.6: arrays are stored contiguously);
    [base] is where the first one starts. *)
Fixpoint freeze_strings (base : Z) (l : list string) : list frozen_string :=
  match l with
  | [] => []
  | s :: l' =>
      let fs := mk_frozen_string base s in
      fs :: freeze_strings (fs_end fs) l'
  end.

(** What the earlier phases of [scan] hand to the metadata assembly. *)
Record scan_data := mk_scan_data {
  sd_inodes : list inode_data;
  sd_directories : list directory;
  sd_dir_entries : list dir_entry;
  sd_symlink_table : list Z;
  sd_devices : list Z;
  sd_file_inodes : list inode;
  sd_shared_files : list Z;
  sd_names : list string;
  sd_symlinks : list string;
  sd_uids : list Z;
  sd_gids : list Z;
  sd_modes : list Z;
  sd_timestamp_base : Z;
  sd_block_size_bits : Z;
  sd_original_size : Z;
  sd_hardlink_size : Z }.

Section ScanMetadata.

(** The version macro of the build and [string_table::pack] with the
    options of the names table ([true]) or of the symlinks table
    ([false]). *)
Variable PRJ_GIT_ID : string.
Variable string_table_pack : bool → list string → string_table.

(** The metadata assembly at the end of [scan], from "saving chunks..."
    to the call of [metadata_v2::freeze]; [now] is the value of
    [std::time(nullptr)]. *)
Definition scan_metadata (opts : scanner_options) (now : Z) (sd : scan_data)
    : result metadata :=
  '(chunk_table, chunks) ← save_chunks (sd_file_inodes sd) ;
  let directories :=
    if pack_directories opts then pack_directory_table (sd_directories sd)
    else sd_directories sd in
  let chunk_table :=
    if pack_chunk_table opts then adjacent_difference chunk_table
    else chunk_table in
  shared_files ←
    (if pack_shared_files_table opts then pack_shared_files (sd_shared_files sd)
     else Ok (sd_shared_files sd)) ;
  let fsopts :=
    mk_fs_options (negb (keep_all_times opts))
      (if 1 <? opt_time_resolution_sec opts
       then Some (opt_time_resolution_sec opts) else None)
      (pack_chunk_table opts) (pack_directories opts)
      (pack_shared_files_table opts) in
  Ok {| chunks := chunks;
        directories := directories;
        inodes := sd_inodes sd;
        chunk_table := chunk_table;
        entry_table_v2_2 := [];
        symlink_table := sd_symlink_table sd;
        uids := sd_uids sd;
        gids := sd_gids sd;
        modes := sd_modes sd;
        names := if plain_names_table opts
                 then freeze_strings 0 (sd_names sd) else [];
        symlinks := if plain_symlinks_table opts
                    then freeze_strings 0 (sd_symlinks sd) else [];
        timestamp_base := sd_timestamp_base sd;
        block_size := u32 (Z.shiftl 1 (sd_block_size_bits sd));
        total_fs_size := sd_original_size sd;
        devices := Some (sd_devices sd);
        options := Some fsopts;
        dir_entries := Some (sd_dir_entries sd);
        shared_files_table := Some shared_files;
        total_hardlink_size := Some (sd_hardlink_size sd);
        dwarfs_version := Some ("libdwarfs " +:+ PRJ_GIT_ID);
        create_timestamp := if no_create_timestamp opts then None
                            else Some now;
        compact_names := if plain_names_table opts then None
                         else Some (string_table_pack true (sd_names sd));
        compact_symlinks := if plain_symlinks_table opts then None
                            else Some (string_table_pack false
                                                         (sd_symlinks sd)) |}.

End ScanMetadata.

(** ** Adding an entry during the scan ([scanner_::add_entry]) *)

Inductive entry_type := E_FILE | E_DIR | E_LINK | E_DEVICE | E_OTHER.

#[global] Instance entry_type_eq_dec : EqDecision entry_type.
Proof. solve_decision. Defined.

Record entry := mk_entry {
  entry_name : string;
  entry_path : string;
  type : entry_type;
  entry_size : Z }.

Definition override_size (s : Z) (pe : entry) : entry :=
  mk_entry (entry_name pe) (entry_path pe) (type pe) s.

Record progress := mk_progress {
  errors : Z;
  dirs_found : Z;
  dirs_scanned : Z;
  files_found : Z;
  symlinks_found : Z;
  symlinks_scanned : Z;
  specials_found : Z }.

(** The script, when there is one. *)
Record script := mk_script {
  has_filter : bool;
  filter : entry → bool;
  has_transform : bool;
  transform : entry → entry }.

(** What [add_entry] changes: the progress counters, the entries of the
    parent directory and the log. *)
Record scan_state := mk_scan_state {
  prog : progress;
  parent_entries : list entry;
  log : list string }.

(** Computations of the scanner: state passing, with exceptions. *)
Definition scanM (A : Type) : Type := scan_state → scan_state * result A.

#[global] Instance scanM_ret : MRet scanM := λ A a st, (st, Ok a).
#[global] Instance scanM_bind : MBind scanM := λ A B f m st,
  match m st with
  | (st', Ok a) => f a st'
  | (st', Err e) => (st', Err e)
  end.

Definition lift {A} (r : result A) : scanM A := λ st, (st, r).

Definition update_prog (f : progress → progress) : scanM unit :=
  λ st, (mk_scan_state (f (prog st)) (parent_entries st) (log st), Ok tt).

Definition LOG (level msg : string) : scanM unit :=
  λ st, (mk_scan_state (prog st) (parent_entries st)
                       (log st ++ [level +:+ msg]), Ok tt).

Definition LOG_ERROR : string → scanM unit := LOG "E ".
Definition LOG_DEBUG : string → scanM unit := LOG "D ".

(** [parent->add(pe)] *)
Definition parent_add (pe : entry) : scanM unit :=
  λ st, (mk_scan_state (prog st) (parent_entries st ++ [pe]) (log st), Ok tt).

Definition errors_incr (p : progress) : progress :=
  mk_progress (errors p + 1) (dirs_found p) (dirs_scanned p) (files_found p)
              (symlinks_found p) (symlinks_scanned p) (specials_found p).
Definition dirs_found_incr (p : progress) : progress :=
  mk_progress (errors p) (dirs_found p + 1) (dirs_scanned p) (files_found p)
              (symlinks_found p) (symlinks_scanned p) (specials_found p).
Definition files_found_incr (p : progress) : progress :=
  mk_progress (errors p) (dirs_found p) (dirs_scanned p) (files_found p + 1)
              (symlinks_found p) (symlinks_scanned p) (specials_found p).
Definition symlinks_found_incr (p : progress) : progress :=
  mk_progress (errors p) (dirs_found p) (dirs_scanned p) (files_found p)
              (symlinks_found p + 1) (symlinks_scanned p) (specials_found p).
Definition symlinks_scanned_incr (p : progress) : progress :=
  mk_progress (errors p) (dirs_found p) (dirs_scanned p) (files_found p)
              (symlinks_found p) (symlinks_scanned p + 1) (specials_found p).
Definition specials_found_incr (p : progress) : progress :=
  mk_progress (errors p) (dirs_found p) (dirs_scanned p) (files_found p)
              (symlinks_found p) (symlinks_scanned p) (specials_found p + 1).

(** [try { body } catch (const std::system_error& e) { handler }]: other
    exceptions pass through. *)
Definition try_catch_system_error {A} (body : scanM A)
    (handler : string → scanM A) : scanM A :=
  λ st,
    match body st with
    | (st', Err (SystemError what)) => handler what st'
    | r => r
    end.

Section AddEntry.

(** The collaborators of [add_entry]: the entry factory, the access check
    of the OS layer, the scan of an entry and the file scanner. The last
    three may raise [std::system_error]. *)
Variable create : string → result (option entry).
Variable access : string → Z.
Variable pe_scan : entry → result unit.
Variable fs_scan : entry → result unit.

Variable script_ : option script.
Variable options_ : scanner_options.

(** The first part of [add_entry]: filter or transform. *)
Definition apply_script (pe : entry) : bool * entry :=
  match script_ with
  | Some scr =>
      if has_filter scr && negb (filter scr pe) then (true, pe)
      else if has_transform scr then (false, transform scr pe)
      else (false, pe)
  | None => (false, pe)
  end.

Definition when (c : bool) (m : scanM unit) : scanM unit :=
  if c then m else mret tt.

(** The first [switch (pe->type())]: [None] stands for [return nullptr]. *)
Definition check_entry (pe : entry) : scanM (option entry) :=
  match type pe with
  | E_FILE =>
      if negb (access (entry_path pe) =? 0) then
        LOG_ERROR ("cannot access " +:+ entry_path pe
                   +:+ ", creating empty file") ;;
        let pe := override_size 0 pe in
        update_prog errors_incr ;;
        mret (Some pe)
      else mret (Some pe)
  | E_DEVICE =>
      if negb (with_devices options_) then mret None else mret (Some pe)
  | E_OTHER =>
      if negb (with_specials options_) then mret None else mret (Some pe)
  | _ => mret (Some pe)
  end.

(** The second [switch (pe->type())], after [parent->add(pe)]. *)
Definition count_entry (debug_filter : bool) (pe : entry) : scanM unit :=
  match type pe with
  | E_DIR =>
      update_prog dirs_found_incr ;;
      when (negb debug_filter) (lift (pe_scan pe))
  | E_FILE =>
      update_prog files_found_incr ;;
      when (negb debug_filter) (lift (fs_scan pe))
  | E_LINK =>
      update_prog symlinks_found_incr ;;
      when (negb debug_filter) (lift (pe_scan pe)) ;;
      update_prog symlinks_scanned_incr
  | E_DEVICE | E_OTHER =>
      update_prog specials_found_incr ;;
      when (negb debug_filter) (lift (pe_scan pe))
  end.

(** Whether the script reads the entry it is handed: [add_entry] calls
    [script_->filter] or [script_->transform] on the dereferenced [pe]
    before it tests [if (pe)]. *)
Definition script_reads_entry : bool :=
  match script_ with
  | Some scr => has_filter scr || has_transform scr
  | None => false
  end.

(** The first part of [add_entry] on what the factory returned. On a
    null entry the script, when it has a filter or a transform,
    dereferences the null pointer: [Err OutOfRange] marks the read the
    source leaves undefined. *)
Definition apply_script_to (ope : option entry)
    : result (bool * option entry) :=
  match ope with
  | Some pe => let '(exclude, pe) := apply_script pe in Ok (exclude, Some pe)
  | None => if script_reads_entry then Err OutOfRange else Ok (false, None)
  end.

(** The call of [options_.debug_filter_function] on [exclude] and
    [pe.get()]: the function is an optional of the options, and reading
    an empty one is undefined. *)
Definition debug_filter_call
    (debug_filter_function : option (bool → option entry → result unit))
    (exclude : bool) (ope : option entry) : scanM unit :=
  match debug_filter_function with
  | Some f => lift (f exclude ope)
  | None => lift (Err OutOfRange)
  end.

(** [add_entry], with the debug filter function of the options as one
    more collaborator. *)
Definition add_entry_with
    (debug_filter_function : option (bool → option entry → result unit))
    (name : string) (debug_filter : bool) : scanM (option entry) :=
  try_catch_system_error
    (ope ← lift (create name) ;
     scripted ← lift (apply_script_to ope) ;
     let exclude : bool := scripted.1 in
     let ope : option entry := scripted.2 in
     when debug_filter
          (debug_filter_call debug_filter_function exclude ope) ;;
     if exclude then
       when (negb debug_filter)
            (match ope with
             | Some pe => LOG_DEBUG ("excluding " +:+ entry_path pe)
             | None => lift (Err OutOfRange)
             end) ;;
       mret None
     else
       match ope with
       | None => mret None
       | Some pe =>
           ope ← check_entry pe ;
           match ope with
           | None => mret None
           | Some pe =>
               parent_add pe ;;
               count_entry debug_filter pe ;;
               mret (Some pe)
           end
       end)
    (λ what,
       LOG_ERROR ("error reading entry: " +:+ what) ;;
       update_prog errors_incr ;;
       mret None).

(** [add_entry] with a debug filter function that only observes and
    returns. *)
Definition add_entry (name : string) (debug_filter : bool)
    : scanM (option entry) :=
  add_entry_with (Some (λ _ _, Ok tt)) name debug_filter.

(** The loop of [scan_tree] over the names [d->read(name)] delivers for
    one directory; the result is [subdirs]. *)
Fixpoint read_directory_with
    (debug_filter_function : option (bool → option entry → result unit))
    (debug_filter : bool) (names : list string)
    (subdirs : list entry) : scanM (list entry) :=
  match names with
  | [] => mret subdirs
  | name :: names' =>
      if bool_decide (name = ".") || bool_decide (name = "..") then
        read_directory_with debug_filter_function debug_filter names' subdirs
      else
        ope ← add_entry_with debug_filter_function name debug_filter ;
        match ope with
        | Some pe =>
            if bool_decide (type pe = E_DIR)
            then read_directory_with debug_filter_function debug_filter
                                     names' (subdirs ++ [pe])
            else read_directory_with debug_filter_function debug_filter
                                     names' subdirs
        | None =>
            read_directory_with debug_filter_function debug_filter
                                names' subdirs
        end
  end.

Definition read_directory (debug_filter : bool) (names : list string)
    (subdirs : list entry) : scanM (list entry) :=
  read_directory_with (Some (λ _ _, Ok tt)) debug_filter names subdirs.

End AddEntry.

(** ** The status line ([status_string]) *)

(** What [p.current] points to: an entry being scanned, an inode being
    written, or an object of another class (neither cast succeeds). *)
Inductive current_object :=
| CurEntry (path : string)
| CurInode (path : string)
| CurOther.

Definition npos : Z := 2 ^ 64 - 1.

Definition slen (s : string) : Z := Z.of_nat (String.length s).

(** The first position from [pos] on at which [s] has the character. *)
Fixpoint find_char_from (c : ascii) (s : string) (pos : nat) : option nat :=
  match s with
  | EmptyString => None
  | String a s' =>
      match pos with
      | O => if Ascii.eqb a c then Some O else S <$> find_char_from c s' O
      | S pos' => S <$> find_char_from c s' pos'
      end
  end.

(** [s.find(c, pos)] *)
Definition string_find (s : string) (c : ascii) (pos : Z) : Z :=
  match find_char_from c s (Z.to_nat pos) with
  | Some i => Z.of_nat i
  | None => npos
  end.

Fixpoint string_drop (n : nat) (s : string) : string :=
  match n, s with
  | O, _ => s
  | S n', String _ s' => string_drop n' s'
  | S _, EmptyString => EmptyString
  end.

(** [s.replace(0, count, by)]: the count is cut to the size of [s]. *)
Definition string_replace_prefix (s : string) (count : Z) (by_ : string)
    : string :=
  by_ +:+ string_drop (Z.to_nat (Z.min count (slen s))) s.

(** The [while] loop that looks for the separator to cut at; it takes at
    most one step per character of the path. *)
Fixpoint status_string_start (fuel : nat) (path : string)
    (len max_len start : Z) : result Z :=
  if negb (start =? npos) && (max_len <? u64 (len - start)) then
    match fuel with
    | O => Err OutOfFuel
    | S fuel' =>
        status_string_start fuel' path len max_len
          (string_find path "/" (u64 (start + 1)))
    end
  else Ok start.

(** The body of [if (cp)] once [label] and [path] are set; [width] is a
    [size_t]. *)
Definition status_string_label (label path : string) (width : Z)
    : result string :=
  let max_len := u64 (width - slen label) in
  let len := slen path in
  if max_len <? len then
    let max_len := u64 (max_len - 3) in
    start ← status_string_start (S (String.length path)) path len max_len 0 ;
    let start := if start =? npos then u64 (max_len - len) else start in
    Ok (label +:+ string_replace_prefix path start "...")
  else Ok (label +:+ path).

Definition status_string (cp : option current_object) (width : Z)
    : result string :=
  match cp with
  | None => Ok ""
  | Some (CurEntry path) => status_string_label "scanning: " path width
  | Some (CurInode path) => status_string_label "writing: " path width
  | Some CurOther => status_string_label "" "" width
  end.

(** ** Collecting the shared files ([save_shared_files_visitor]) *)

(** What the visitor reads from a [file]: its inode number and the
    number of its content among the distinct contents. *)
Record file := mk_file {
  file_inode_num : Z;
  unique_file_id : Z }.

Record save_shared_files_visitor := mk_save_shared_files_visitor {
  begin_shared_ : Z;
  num_unique_ : Z;
  shared_files_ : list Z }.

(** The constructor; the three arguments are [uint32_t]. *)
Definition save_shared_files_visitor_new
    (inode_begin inode_end num_unique_files : Z)
    : result save_shared_files_visitor :=
  let begin_shared := u32 (inode_begin + num_unique_files) in
  DWARFS_CHECK (num_unique_files <=? u32 (inode_end - inode_begin))
               "inconsistent file count" ;;
  Ok (mk_save_shared_files_visitor begin_shared num_unique_files
        (replicate (Z.to_nat (u32 (inode_end - begin_shared))) 0)).

(** [visit(file* p)] *)
Definition save_shared_files_visit (v : save_shared_files_visitor)
    (p : file) : result save_shared_files_visitor :=
  let ino := file_inode_num p in
  if begin_shared_ v <=? ino then
    let ufi := unique_file_id p in
    DWARFS_CHECK (num_unique_ v <=? ufi) "inconsistent file id" ;;
    shared ← set_at (shared_files_ v) (u32 (ino - begin_shared_ v))
                    (u32 (ufi - num_unique_ v)) ;
    Ok (mk_save_shared_files_visitor (begin_shared_ v) (num_unique_ v) shared)
  else Ok v.

(** [root->accept(ssfv)], for the files of the tree in the order of the
    visit. *)
Fixpoint save_shared_files_accept (v : save_shared_files_visitor)
    (files : list file) : result save_shared_files_visitor :=
  match files with
  | [] => Ok v
  | p :: files' =>
      v' ← save_shared_files_visit v p ;
      save_shared_files_accept v' files'
  end.

(** ** Notions used in the statements *)

(** The mode of inode [i] and the number of inodes, in either layout: the
    sequence [check_partitioning] looks at. *)
Definition inode_mode (meta : metadata) (i : Z) : result Z :=
  match dir_entries meta with
  | Some _ =>
      ino ← at_ (inodes meta) i ;
      at_ (modes meta) (mode_index ino)
  | None =>
      ent ← at_ (entry_table_v2_2 meta) i ;
      ino ← at_ (inodes meta) ent ;
      at_ (modes meta) (mode_index ino)
  end.

Definition num_inodes (meta : metadata) : Z :=
  match dir_entries meta with
  | Some _ => size (inodes meta)
  | None => size (entry_table_v2_2 meta)
  end.

(** The number of items of the names table the directory entries index:
    the plain table, or the compact one when it is present. *)
Definition num_names (meta : metadata) : Z :=
  match compact_names meta with
  | Some cn =>
      if packed_index cn then size (index cn) else size (index cn) - 1
  | None => size (names meta)
  end.

(** Every index strictly below the size of its backing table. *)
Definition strict_index_bounds (meta : metadata) : Prop :=
  (∀ ino, ino ∈ inodes meta →
     mode_index ino < size (modes meta) ∧
     owner_index ino < size (uids meta) ∧
     group_index ino < size (gids meta)) ∧
  (∀ dep de, dir_entries meta = Some dep → de ∈ dep →
     name_index de < num_names meta ∧
     inode_num de < size (inodes meta)).

(** The bounds the index check enforces: index zero is let through for
    owners, groups and names whatever the size of the table. *)
Definition index_bounds (meta : metadata) : Prop :=
  (∀ ino, ino ∈ inodes meta →
     mode_index ino < size (modes meta) ∧
     (owner_index ino < size (uids meta) ∨ owner_index ino ≤ 0) ∧
     (group_index ino < size (gids meta) ∨ group_index ino ≤ 0)) ∧
  (∀ dep de, dir_entries meta = Some dep → de ∈ dep →
     (name_index de < num_names meta ∨ name_index de ≤ 0) ∧
     inode_num de < size (inodes meta)).

(** The lengths of the items of a string table, in each representation. *)
Fixpoint offset_lengths (prev : Z) (offsets : list Z) : list Z :=
  match offsets with
  | [] => []
  | o :: rest => (o - prev) :: offset_lengths o rest
  end.

Definition compact_item_lengths (v : string_table) : list Z :=
  if packed_index v then index v
  else match index v with
       | [] => []
       | o :: rest => offset_lengths o rest
       end.

(** Inode [i] lies in partition [k] of the offsets. *)
Definition in_partition (offsets : list Z) (k i : Z) : Prop :=
  ∃ lo hi, at_ offsets k = Ok lo ∧ at_ offsets (k + 1) = Ok hi ∧ lo ≤ i < hi.

(** The chunks of the inodes laid end to end, and the position of the
    first chunk of each inode in that sequence, counted from [base]. *)
Definition all_chunks (inos : list inode) : list chunk :=
  concat (inode_chunks <$> inos).

Fixpoint first_chunk_indices (base : Z) (inos : list inode) : list Z :=
  match inos with
  | [] => []
  | ino :: inos' =>
      base :: first_chunk_indices (base + size (inode_chunks ino)) inos'
  end.

(** How often [k] occurs in a shared-files vector. *)
Fixpoint count_of (k : Z) (v : list Z) : Z :=
  match v with
  | [] => 0
  | x :: v' => (if x =? k then 1 else 0) + count_of k v'
  end.

(** The vector with runs of lengths [c + 2] of the values [index],
    [index + 1], ... for the [c] of [cs]. *)
Fixpoint runs_from (index : Z) (cs : list Z) : list Z :=
  match cs with
  | [] => []
  | c :: rest => replicate (Z.to_nat (c + 2)) index ++ runs_from (index + 1) rest
  end.

(** The names joined by ['/'], a separator between any two neighbours. *)
Fixpoint join_path (ns : list string) : string :=
  match ns with
  | [] => ""
  | n :: rest =>
      match rest with
      | [] => n
      | _ :: _ => n +:+ "/" +:+ join_path rest
      end
  end.

(** [names_below_root v ns]: following the parent links from [v] reaches
    the root entry, and [ns] are the names of the entries on the way, from
    the one just below the root down to [v]; the root contributes none. *)
Inductive names_below_root : dir_entry_view → list string → Prop :=
| names_root (v : dir_entry_view) :
    dir_entry_view_is_root v = true →
    names_below_root v []
| names_step (v p : dir_entry_view) (ns : list string) (n : string) :
    dir_entry_view_is_root v = false →
    dir_entry_view_parent v = Ok (Some p) →
    names_below_root p ns →
    dir_entry_view_name v = Ok n →
    names_below_root v (ns ++ [n]).

(** ** Valid directory tables *)

(** The position of the first entry that refers to inode [d]. *)
Fixpoint find_entry (d : Z) (dirent : list dir_entry) : option Z :=
  match dirent with
  | [] => None
  | de :: rest =>
      if inode_num de =? d then Some 0 else Z.succ <$> find_entry d rest
  end.

Definition dir_first (dirs : list directory) (d : Z) : Z :=
  match dirs !! Z.to_nat d with
  | Some x => first_entry x
  | None => 0
  end.

Definition dir_parent (dirs : list directory) (d : Z) : Z :=
  match dirs !! Z.to_nat d with
  | Some x => parent_entry x
  | None => 0
  end.

(** The entries listed in directory [p]:
    [first_entry(p) .. first_entry(p+1))]. *)
Definition entries_of (dirs : list directory) (p : Z) : list Z :=
  seqZ (dir_first dirs p) (dir_first dirs (p + 1) - dir_first dirs p).

(** Entry [e], listed in directory [p], is in order: it exists, and if
    it refers to a directory [d] then [d] is numbered after [p], [e] is
    the first entry that refers to [d], and the parent entry of [d] is
    the first entry that refers to [p]. *)
Definition listed_entry_ok (dirs : list directory) (dirent : list dir_entry)
    (p e : Z) : bool :=
  match dirent !! Z.to_nat e with
  | None => false
  | Some de =>
      let d := inode_num de in
      (0 <=? d) &&
      ((size dirs - 1 <=? d) ||
       ((p <? d)
        && bool_decide (find_entry d dirent = Some e)
        && bool_decide (find_entry p dirent = Some (dir_parent dirs d))))
  end.

(** Directory [d] has an entry, and its first one is listed in some
    directory. *)
Definition is_listed (dirs : list directory) (dirent : list dir_entry)
    (d : Z) : bool :=
  match find_entry d dirent with
  | Some e =>
      existsb (λ p, (dir_first dirs p <=? e) && (e <? dir_first dirs (p + 1)))
              (seqZ 0 (size dirs - 1))
  | None => false
  end.

(** The directory tables of a tree, as the builder emits them:
    [dirs] holds [n ≥ 1] directories and a sentinel, with first entries
    that fit 32 bits; entry 0 is the root's own entry; the root and the
    sentinel have parent entry 0; the entries listed in the directories
    are in order; every directory but the root is listed in one. *)
Definition valid_tree (dirs : list directory) (dirent : list dir_entry)
    : bool :=
  let n := size dirs - 1 in
  (1 <=? n) && (size dirs <? 2 ^ 32)
  && forallb (λ x, (0 <=? first_entry x) && (first_entry x <? 2 ^ 32)) dirs
  && bool_decide (find_entry 0 dirent = Some 0)
  && (dir_parent dirs 0 =? 0) && (dir_parent dirs n =? 0)
  && forallb (λ p, forallb (listed_entry_ok dirs dirent p) (entries_of dirs p))
             (seqZ 0 n)
  && forallb (is_listed dirs dirent) (seqZ 1 (n - 1)).

(** The first entry of the directory before [i], and 0 before the first
    one: what the delta of directory [i] is taken against. *)
Definition previous_first (dirs : list directory) (i : nat) : Z :=
  match i with
  | O => 0
  | S j => dir_first dirs (Z.of_nat j)
  end.

(** The table right after the first entries are decoded: every parent
    entry still zero. *)
Definition zero_parent (d : directory) : directory :=
  mk_directory 0 (first_entry d).

(** The inode entry [e] refers to, its own entry for a directory, and
    the entries among [es] that refer to directories. *)
Definition entry_inode (dirent : list dir_entry) (e : Z) : Z :=
  match dirent !! Z.to_nat e with
  | Some de => inode_num de
  | None => -1
  end.

Definition entry_index (dirent : list dir_entry) (d : Z) : Z :=
  default 0 (find_entry d dirent).

Definition is_subdir_entry (dirs : list directory) (dirent : list dir_entry)
    (e : Z) : bool :=
  entry_inode dirent e <? size dirs - 1.

Definition subdir_entries (dirs : list directory) (dirent : list dir_entry)
    (es : list Z) : list Z :=
  List.filter (is_subdir_entry dirs dirent) es.

(** [approx dirs ds]: [ds] is [dirs] with some of the parent entries not
    yet recovered. *)
Definition approx (dirs ds : list directory) : Prop :=
  length ds = length dirs ∧
  ∀ (i : nat) (x : directory), dirs !! i = Some x →
    ds !! i = Some x ∨ ds !! i = Some (zero_parent x).

(** Directory [d] is listed in directory [p]. *)
Definition parent_dir (dirs : list directory) (dirent : list dir_entry)
    (d p : Z) : Prop :=
  0 ≤ p < size dirs - 1 ∧
  dir_first dirs p ≤ entry_index dirent d < dir_first dirs (p + 1).

(** The state of the traversal: the queue holds the entries of the
    directories [qd]; [todo] are the directories not yet taken from the
    queue. *)
Record traversal_inv (dirs : list directory) (dirent : list dir_entry)
    (qd : list Z) (ds : list directory) (todo : gset Z) : Prop := {
  inv_approx : approx dirs ds;
  inv_nodup : NoDup qd;
  inv_queue : ∀ d, d ∈ qd → d ∈ todo;
  inv_dirs : ∀ d, d ∈ todo → 0 ≤ d < size dirs - 1;
  inv_child : ∀ d p, 1 ≤ d < size dirs - 1 → parent_dir dirs dirent d p →
                p ∈ todo → d ∈ todo ∧ d ∉ qd;
  inv_pending : ∀ d p, 1 ≤ d < size dirs - 1 → parent_dir dirs dirent d p →
                  d ∈ todo → d ∈ qd ∨ p ∈ todo;
  inv_done : ∀ d p, 1 ≤ d < size dirs - 1 → parent_dir dirs dirent d p →
               p ∉ todo → ds !! Z.to_nat d = dirs !! Z.to_nat d;
  inv_root : 0 ∈ todo → 0 ∈ qd }.

(** ** Sample images *)

Definition sample_inode (mode_index : Z) : inode_data :=
  mk_inode_data mode_index 0 0 0 0 0 0 0.

(** The image of an empty file system: a root directory and nothing
    else. The names table is empty; the root's entry has name index 0. *)
Definition empty_image : metadata :=
  {| chunks := [];
     directories := [mk_directory 0 1; mk_directory 0 1];
     inodes := [sample_inode 0];
     chunk_table := [0];
     entry_table_v2_2 := [];
     symlink_table := [];
     uids := [1000];
     gids := [100];
     modes := [Z.lor S_IFDIR 0x1ED];
     names := [];
     symlinks := [];
     timestamp_base := 0;
     block_size := 4096;
     total_fs_size := 0;
     devices := Some [];
     options := Some (mk_fs_options true None false false false);
     dir_entries := Some [mk_dir_entry 0 0];
     shared_files_table := Some [];
     total_hardlink_size := Some 0;
     dwarfs_version := Some "libdwarfs";
     create_timestamp := None;
     compact_names := None;
     compact_symlinks := None |}.

(** A root directory with one regular file whose name takes 513 bytes,
    the names in a compact table with an index of offsets. *)
Definition long_name_image : metadata :=
  {| chunks := [];
     directories := [mk_directory 0 1; mk_directory 0 2];
     inodes := [sample_inode 0; sample_inode 1];
     chunk_table := [0; 0];
     entry_table_v2_2 := [];
     symlink_table := [];
     uids := [1000];
     gids := [100];
     modes := [Z.lor S_IFDIR 0x1ED; Z.lor S_IFREG 0x1A4];
     names := [];
     symlinks := [];
     timestamp_base := 0;
     block_size := 4096;
     total_fs_size := 0;
     devices := Some [];
     options := Some (mk_fs_options true None false false false);
     dir_entries := Some [mk_dir_entry 0 0; mk_dir_entry 0 1];
     shared_files_table := Some [];
     total_hardlink_size := Some 0;
     dwarfs_version := Some "libdwarfs";
     create_timestamp := None;
     compact_names :=
       Some (mk_string_table (replicate 513 Byte.x78) None [0; 513] false);
     compact_symlinks := None |}.

(** The tree of the end-to-end test with one directory more:
<<
    /            0      somedir/      1      somedir/sub/   2
    bar.pl       8      bad -> ../foo 3      x              7
    baz.pl       9      empty         5
    foo.pl       8      ipsum.py      6
    somedir      1      null          10
    somelink     4      pipe          12
                        sub           2
                        zero          11
>>
    [foo.pl] and [bar.pl] are hard links, [baz.pl] has the same content. *)
Definition sample_data : scan_data :=
  {| sd_inodes := sample_inode <$> [0; 0; 0; 1; 1; 2; 2; 2; 2; 2; 3; 3; 4];
     sd_directories :=
       [mk_directory 0 1; mk_directory 0 6; mk_directory 4 13;
        mk_directory 0 14];
     sd_dir_entries :=
       [mk_dir_entry 0 0;
        mk_dir_entry 3 8; mk_dir_entry 4 9; mk_dir_entry 5 8;
        mk_dir_entry 2 1; mk_dir_entry 0 4;
        mk_dir_entry 10 3; mk_dir_entry 6 5; mk_dir_entry 1 6;
        mk_dir_entry 7 10; mk_dir_entry 8 12; mk_dir_entry 11 2;
        mk_dir_entry 9 11;
        mk_dir_entry 12 7];
     sd_symlink_table := [1; 0];
     sd_devices := [259; 261];
     sd_file_inodes :=
       [mk_inode 0 [];
        mk_inode 1 [mk_chunk 0 0 1000];
        mk_inode 2 [mk_chunk 0 1000 7];
        mk_inode 3 [mk_chunk 0 1007 3089; mk_chunk 1 0 20367]];
     sd_shared_files := [0; 0];
     sd_names :=
       ["somelink"; "ipsum.py"; "somedir"; "bar.pl"; "baz.pl"; "foo.pl";
        "empty"; "null"; "pipe"; "zero"; "bad"; "sub"; "x"];
     sd_symlinks := ["somedir/ipsum.py"; "../foo"];
     sd_uids := [1000];
     sd_gids := [100];
     sd_modes :=
       [Z.lor S_IFDIR 0x1ED; Z.lor S_IFLNK 0x1FF; Z.lor S_IFREG 0x1A4;
        Z.lor S_IFCHR 0x1B6; Z.lor S_IFIFO 0x1A4];
     sd_timestamp_base := 4711;
     sd_block_size_bits := 15;
     sd_original_size := 56919;
     sd_hardlink_size := 23456 |}.

(** Scanner options: everything plain, nothing packed. *)
Definition plain_options : scanner_options :=
  {| with_devices := true;
     with_specials := true;
     keep_all_times := false;
     opt_time_resolution_sec := 1;
     pack_chunk_table := false;
     pack_directories := false;
     pack_shared_files_table := false;
     plain_names_table := true;
     plain_symlinks_table := true;
     no_create_timestamp := false |}.

(** Scanner options: the three tables packed, no creation time stamp. *)
Definition packed_options : scanner_options :=
  {| with_devices := true;
     with_specials := true;
     keep_all_times := false;
     opt_time_resolution_sec := 1;
     pack_chunk_table := true;
     pack_directories := true;
     pack_shared_files_table := true;
     plain_names_table := true;
     plain_symlinks_table := true;
     no_create_timestamp := true |}.

(** A stand-in for [string_table::pack]: the lengths as a packed index,
    the bytes left out. *)
Definition sample_string_table_pack (is_names : bool) (l : list string)
    : string_table :=
  mk_string_table [] None ((λ s, Z.of_nat (String.length s)) <$> l) true.

Definition sample_scan (opts : scanner_options) (now : Z) : result metadata :=
  scan_metadata "v0.5" sample_string_table_pack opts now sample_data.

(** The metadata of the sample tree under [plain_options] and under
    [packed_options], as [scan_metadata] builds it. *)
Definition sample_image : metadata :=
  Eval vm_compute in
    match sample_scan plain_options 1600000000 with
    | Ok m => m
    | Err _ => empty_image
    end.

Definition sample_packed_image : metadata :=
  Eval vm_compute in
    match sample_scan packed_options 1600000000 with
    | Ok m => m
    | Err _ => empty_image
    end.

(** The reader's view of the packed sample image. *)
Definition sample_global : global_metadata :=
  Eval vm_compute in
    match global_metadata_new (λ _, []) 4 sample_packed_image true with
    | Ok g => g
    | Err _ => mk_global_metadata empty_image [] []
    end.

(** A scan in which [/somedir/ipsum.py] cannot be read. *)
Definition sample_create (name : string) : result (option entry) :=
  Ok (Some (mk_entry name ("/somedir/" +:+ name) E_FILE 10000)).

Definition sample_access (path : string) : Z :=
  if bool_decide (path = "/somedir/ipsum.py") then -1 else 0.

Definition sample_scan_ok (pe : entry) : result unit := Ok tt.

Definition sample_state : scan_state :=
  mk_scan_state (mk_progress 0 2 1 3 1 1 0) [] [].

(** The view of [/somedir/sub/x] in the sample image: entry 13, found in
    the directory with entry 11. *)
Definition sample_entry_x : dir_entry_view :=
  mk_dir_entry_view (DirEntryView (mk_dir_entry 12 7)) 13 11 sample_global.

(** An image in the legacy v2.2 layout: a root directory and one regular
    file; the inodes table is in entry order, [entry_table_v2_2] maps an
    inode number to its row. *)
Definition legacy_image : metadata :=
  {| chunks := [];
     directories := [mk_directory 0 0; mk_directory 0 1];
     inodes := [mk_inode_data 1 0 0 0 0 0 0 1; mk_inode_data 0 0 0 0 0 0 0 0];
     chunk_table := [0; 0];
     entry_table_v2_2 := [1; 0];
     symlink_table := [];
     uids := [1000];
     gids := [100];
     modes := [Z.lor S_IFDIR 0x1ED; Z.lor S_IFREG 0x1A4];
     names := [mk_frozen_string 0 "f"];
     symlinks := [];
     timestamp_base := 0;
     block_size := 4096;
     total_fs_size := 0;
     devices := None;
     options := None;
     dir_entries := None;
     shared_files_table := None;
     total_hardlink_size := None;
     dwarfs_version := None;
     create_timestamp := None;
     compact_names := None;
     compact_symlinks := None |}.

(** The running sums of 32-bit deltas, and the first entries the reader
    decodes from a packed directories table. *)
Fixpoint running_sums (acc : Z) (deltas : list Z) : list Z :=
  match deltas with
  | [] => []
  | x :: rest => u32 (acc + x) :: running_sums (u32 (acc + x)) rest
  end.

Definition decoded_first_entries (metadir : list directory) : list Z :=
  match metadir with
  | [] => []
  | d0 :: rest =>
      first_entry d0 :: running_sums (first_entry d0) (first_entry <$> rest)
  end.

(** A packed image in which the root directory lists an entry that
    refers to the root itself. *)
Definition cyclic_image : metadata :=
  {| chunks := [];
     directories := [mk_directory 0 1; mk_directory 0 1];
     inodes := [sample_inode 0];
     chunk_table := [0];
     entry_table_v2_2 := [];
     symlink_table := [];
     uids := [1000];
     gids := [100];
     modes := [Z.lor S_IFDIR 0x1ED];
     names := [mk_frozen_string 0 "x"];
     symlinks := [];
     timestamp_base := 0;
     block_size := 4096;
     total_fs_size := 0;
     devices := Some [];
     options := Some (mk_fs_options true None false true false);
     dir_entries := Some [mk_dir_entry 0 0; mk_dir_entry 0 0];
     shared_files_table := Some [];
     total_hardlink_size := Some 0;
     dwarfs_version := Some "libdwarfs";
     create_timestamp := None;
     compact_names := None;
     compact_symlinks := None |}.

(** A directory [/somedir] with a subdirectory [sub] that cannot be read
    and files otherwise; a character device [null]. *)
Definition sample_create_mixed (name : string) : result (option entry) :=
  Ok (Some (mk_entry name ("/somedir/" +:+ name)
              (if bool_decide (name = "sub") then E_DIR
               else if bool_decide (name = "null") then E_DEVICE
               else E_FILE) 10000)).

Definition sample_scan_sub_fails (pe : entry) : result unit :=
  if bool_decide (entry_name pe = "sub")
  then Err (SystemError "Permission denied") else Ok tt.

Definition no_devices_options : scanner_options :=
  {| with_devices := false;
     with_specials := false;
     keep_all_times := false;
     opt_time_resolution_sec := 1;
     pack_chunk_table := false;
     pack_directories := false;
     pack_shared_files_table := false;
     plain_names_table := true;
     plain_symlinks_table := true;
     no_create_timestamp := false |}.

(** Three files with one content, one of them a hard link of another,
    after two files with contents of their own. *)
Definition sample_files : list file :=
  [mk_file 5 0; mk_file 6 1; mk_file 7 2; mk_file 8 2; mk_file 7 2].

(** An entry factory that creates no entry, and a debug filter function
    that raises. *)
Definition sample_create_null (name : string) : result (option entry) :=
  Ok None.

Definition sample_debug_filter (exclude : bool) (pe : option entry)
    : result unit :=
  Err (SystemError "Broken pipe").

(** * Properties *)

(** ** Inversion of the error monad *)

Lemma bind_Ok {A B} (m : result A) (f : A → result B) (b : B) :
  m ≫= f = Ok b → ∃ a, m = Ok a ∧ f a = Ok b.
Proof. destruct m as [a|e]; [eauto | discriminate]. Qed.

Lemma throw_if_Ok (c : bool) (msg : string) (u : unit) :
  throw_if c msg = Ok u ↔ c = false.
Proof. destruct c, u; split; (discriminate || reflexivity). Qed.

Lemma for_each_Ok {A} (body : A → result unit) (l : list A) (u : unit) :
  for_each body l = Ok u ↔ ∀ x, x ∈ l → body x = Ok tt.
Proof.
  destruct u. induction l as [|x l IH]; simpl.
  - split; [intros _ y Hy; inversion Hy | reflexivity].
  - split.
    + intros H. apply bind_Ok in H as ([] & Hx & Hl).
      intros y Hy. apply elem_of_cons in Hy as [-> | Hy]; [done|].
      by apply IH.
    + intros H. rewrite (H x) by (left; done). simpl.
      apply IH. intros y Hy. apply H. by right.
Qed.

Lemma at_Ok {A} (l : list A) (i : Z) (x : A) :
  at_ l i = Ok x ↔ l !! Z.to_nat i = Some x.
Proof.
  unfold at_. destruct (l !! Z.to_nat i); split; intros; congruence.
Qed.

Lemma at_in_range {A} (l : list A) (i : Z) :
  0 ≤ i < size l → ∃ x, at_ l i = Ok x.
Proof.
  unfold size. intros Hi.
  destruct (lookup_lt_is_Some_2 l (Z.to_nat i)) as [x Hx]; [lia|].
  exists x. by apply at_Ok.
Qed.

(** Splits a successful sequence of checks into its steps. *)
Ltac inv_bind H :=
  let a := fresh "a" in
  let Ha := fresh "H" a in
  apply bind_Ok in H as (a & Ha & H).

Ltac inv_check H :=
  let u := fresh "u" in
  let Hu := fresh "Hchk" in
  apply bind_Ok in H as (u & Hu & H); destruct u.

(** ** The parent of a directory ([directory_view::parent_inode]) *)

(** C9. The parent inode of the root directory (inode 0) is 0, the root
    itself. For a directory [d] other than the root whose parent entry
    reads [pe], [parent_inode()] is [dir_entries[pe].inode_num] when the
    image has a [dir_entries] table, and the raw value [pe] in the legacy
    v2.2 layout. *)
Theorem parent_inode_root_and_others (g : global_metadata) (d pe : Z) :
  d ≠ 0 →
  parent_dir_entry g d = Ok pe →
  directory_view_parent_inode (mk_directory_view 0 g) = Ok 0 ∧
  directory_view_parent_inode (mk_directory_view d g) =
    match dir_entries (meta_ g) with
    | Some e => de ← at_ e pe ; Ok (inode_num de)
    | None => Ok pe
    end.
Proof.
  intros Hd Hpe. split; [reflexivity|].
  unfold directory_view_parent_inode, directory_view_parent_entry. simpl.
  apply Z.eqb_neq in Hd. rewrite Hd, Hpe. reflexivity.
Qed.

(** Reading the parent entry fails exactly when the directory is outside
    the table, and then so does [parent_inode()]. *)
Lemma parent_inode_out_of_range (g : global_metadata) (d : Z) (e : error) :
  d ≠ 0 →
  parent_dir_entry g d = Err e →
  directory_view_parent_inode (mk_directory_view d g) = Err e.
Proof.
  intros Hd He.
  unfold directory_view_parent_inode, directory_view_parent_entry. simpl.
  apply Z.eqb_neq in Hd. rewrite Hd, He. reflexivity.
Qed.

(** ** Index bounds ([check_index_range]) *)

Lemma check_metadata_Ok (meta m : metadata) :
  check_metadata meta true = Ok m →
  m = meta ∧
  check_empty_tables meta = Ok tt ∧
  check_index_range meta = Ok tt ∧
  check_packed_tables meta = Ok tt ∧
  check_string_tables meta = Ok tt ∧
  check_chunks meta = Ok tt.
Proof.
  unfold check_metadata. intros H.
  inv_check H. inv_check H. inv_check H. inv_check H. inv_check H.
  repeat split; try assumption.
  inv_bind H. inv_bind H. destruct a0 as [nu ns].
  repeat inv_bind H. repeat inv_check H. congruence.
Qed.

Lemma check_empty_tables_Ok (meta : metadata) :
  check_empty_tables meta = Ok tt →
  inodes meta ≠ [] ∧ directories meta ≠ [] ∧ chunk_table meta ≠ [] ∧
  modes meta ≠ [] ∧
  match dir_entries meta with
  | Some de => de ≠ []
  | None => entry_table_v2_2 meta ≠ []
  end.
Proof.
  unfold check_empty_tables. intros H.
  do 4 inv_check H.
  apply throw_if_Ok, bool_decide_eq_false in Hchk, Hchk0, Hchk1, H.
  repeat split; try assumption.
  destruct (dir_entries meta);
    by apply throw_if_Ok, bool_decide_eq_false in Hchk2.
Qed.

(** C6, as the spec states it, fails: the image of an empty file system
    passes every check although the name index of its only directory
    entry, 0, is not below the size of its names table, 0. *)
Lemma strict_index_bounds_counterexample :
  check_metadata empty_image true = Ok empty_image ∧
  ¬ strict_index_bounds empty_image.
Proof.
  split; [vm_compute; reflexivity|].
  intros [_ H].
  destruct (H [mk_dir_entry 0 0] (mk_dir_entry 0 0)) as [Hn _].
  - reflexivity.
  - apply list_elem_of_singleton. reflexivity.
  - vm_compute in Hn. discriminate.
Qed.

(** C6, amended. An image the consistency check accepts has every
    [mode_index] and every [inode_num] strictly below the size of the
    modes and inodes tables, and every [owner_index], [group_index] and
    [name_index] either below the size of its table (uids, gids, names) or
    zero. *)
Theorem accepted_index_bounds (meta m : metadata) :
  check_metadata meta true = Ok m →
  index_bounds meta.
Proof.
  intros H. apply check_metadata_Ok in H as (_ & _ & H & _).
  unfold check_index_range in H.
  do 5 inv_check H.
  apply bind_Ok in H as ([] & Hino & H).
  split.
  - intros ino Hin.
    rewrite for_each_Ok in Hino. specialize (Hino ino Hin).
    inv_check Hino. inv_check Hino. inv_check Hino.
    apply throw_if_Ok in Hchk4, Hchk5, Hchk6.
    apply Z.leb_gt in Hchk4.
    apply andb_false_iff in Hchk5, Hchk6.
    rewrite Z.leb_gt, Z.ltb_ge in Hchk5, Hchk6.
    auto.
  - intros dep de Hdep Hin. rewrite Hdep in H.
    inv_check H. inv_bind H.
    rewrite for_each_Ok in H. specialize (H de Hin).
    inv_check H. apply throw_if_Ok in Hchk5, H.
    apply andb_false_iff in Hchk5. rewrite Z.leb_gt, Z.ltb_ge in Hchk5.
    apply Z.leb_gt in H. split; [|assumption].
    assert (a = num_names meta) as ->; [|assumption].
    unfold num_names. destruct (compact_names meta) as [cn|].
    + destruct (packed_index cn); simpl in Ha.
      * congruence.
      * inv_check Ha. congruence.
    + congruence.
Qed.

(** ** String tables ([check_string_tables]) *)

(** C7. The image with one 513-byte name in a compact names table that
    has an index of offsets passes the whole consistency check: the
    length limit of 512 is not applied to this representation. *)
Theorem long_name_accepted :
  check_metadata long_name_image true = Ok long_name_image ∧
  (∃ cn, compact_names long_name_image = Some cn ∧
         packed_index cn = false ∧
         compact_item_lengths cn = [513]) ∧
  max_name_len = 512.
Proof.
  split; [vm_compute; reflexivity|].
  split; [|reflexivity].
  eexists. split; [reflexivity|]. split; reflexivity.
Qed.

(** ** Inode partitioning ([check_partitioning]) *)

Lemma mode_rank_range (mode : Z) : 0 ≤ mode_rank mode < 5.
Proof.
  unfold mode_rank.
  repeat match goal with |- context [if ?c then _ else _] => destruct c end;
    lia.
Qed.

Lemma partition_point_range {A} (pred : A → bool) (l : list A) :
  0 ≤ partition_point pred l ≤ size l.
Proof.
  unfold size. induction l as [|x l IH]; simpl; [lia|].
  destruct (pred x); lia.
Qed.

Lemma partition_point_spec {A} (pred : A → bool) (l : list A) :
  is_partitioned pred l = true →
  ∀ (i : nat) (x : A), l !! i = Some x →
    (pred x = true ↔ Z.of_nat i < partition_point pred l).
Proof.
  induction l as [|y l IH]; intros Hp i x Hi; [discriminate|].
  simpl in Hp. simpl. pose proof (partition_point_range pred l) as Hr.
  destruct (pred y) eqn:Hy.
  - destruct i as [|i]; simpl in Hi.
    + injection Hi as <-. split; [lia | done].
    + rewrite (IH Hp i x Hi). lia.
  - destruct i as [|i]; simpl in Hi.
    + injection Hi as <-. split; [congruence | lia].
    + rewrite forallb_forall in Hp.
      assert (negb (pred x) = true) as Hx.
      { apply Hp. apply list_elem_of_In. eapply list_elem_of_lookup_2, Hi. }
      apply negb_true_iff in Hx. split; [congruence | lia].
Qed.

Lemma partition_point_mono {A} (p q : A → bool) (l : list A) :
  (∀ x, p x = true → q x = true) →
  partition_point p l ≤ partition_point q l.
Proof.
  intros Hpq. induction l as [|x l IH]; simpl; [lia|].
  pose proof (partition_point_range q l).
  destruct (p x) eqn:Hp.
  - rewrite (Hpq x Hp). lia.
  - destruct (q x); lia.
Qed.

Lemma partition_point_none {A} (p : A → bool) (l : list A) :
  (∀ x, x ∈ l → p x = false) → partition_point p l = 0.
Proof.
  destruct l as [|x l]; simpl; [done|].
  intros H. rewrite (H x); [done | by left].
Qed.

Lemma partition_point_all {A} (p : A → bool) (l : list A) :
  (∀ x, x ∈ l → p x = true) → partition_point p l = size l.
Proof.
  unfold size. induction l as [|x l IH]; simpl; [done|].
  intros H. rewrite (H x) by (by left).
  rewrite IH; [lia|]. intros y Hy. apply H. by right.
Qed.

Lemma mapM_Ok {A B} (f : A → result B) (l : list A) (k : list B) :
  mapM f l = Ok k → Forall2 (λ x y, f x = Ok y) l k.
Proof.
  revert k. induction l as [|x l IH]; simpl; intros k H.
  - injection H as <-. constructor.
  - inv_bind H. inv_bind H. injection H as <-.
    constructor; [assumption | by apply IH].
Qed.

(** The ranks [check_partitioning] looks at are the ranks of the modes of
    the inodes, in order. *)
Lemma partition_ranks_Ok (meta : metadata) (ranks : list Z) :
  partition_ranks meta = Ok ranks →
  size ranks = num_inodes meta ∧
  ∀ i, 0 ≤ i < num_inodes meta →
    ∃ mode, inode_mode meta i = Ok mode ∧
            ranks !! Z.to_nat i = Some (mode_rank mode).
Proof.
  unfold partition_ranks, num_inodes, inode_mode, size.
  destruct (dir_entries meta); intros H%mapM_Ok.
  - split; [by rewrite (Forall2_length _ _ _ H)|].
    intros i Hi.
    destruct (lookup_lt_is_Some_2 (inodes meta) (Z.to_nat i)) as [ino Hino];
      [lia|].
    destruct (Forall2_lookup_l _ _ _ _ _ H Hino) as (k & Hk & Hf).
    unfold inode_rank in Hf. inv_bind Hf. injection Hf as <-.
    exists a. apply at_Ok in Hino. rewrite Hino. simpl. done.
  - split; [by rewrite (Forall2_length _ _ _ H)|].
    intros i Hi.
    destruct (lookup_lt_is_Some_2 (entry_table_v2_2 meta) (Z.to_nat i))
      as [ent Hent]; [lia|].
    destruct (Forall2_lookup_l _ _ _ _ _ H Hent) as (k & Hk & Hf).
    unfold entry_rank, inode_rank in Hf. inv_bind Hf. inv_bind Hf.
    injection Hf as <-.
    exists a0. apply at_Ok in Hent. rewrite Hent. simpl. rewrite Ha. simpl.
    done.
Qed.

Lemma check_partitioning_Ok (meta : metadata) (offsets : list Z) :
  check_partitioning meta = Ok offsets →
  ∃ ranks, partition_ranks meta = Ok ranks ∧
    offsets = (λ r, partition_point (λ k, k <? r) ranks) <$> [0; 1; 2; 3; 4; 5] ∧
    ∀ r, is_partitioned (λ k, k <? r) ranks = false → ¬ 0 ≤ r ≤ 5.
Proof.
  unfold check_partitioning. intros H. inv_bind H. rename a into ranks.
  exists ranks. split; [done|].
  apply mapM_Ok in H.
  repeat match goal with
  | H : Forall2 _ (_ :: _) _ |- _ =>
      apply Forall2_cons_inv_l in H as (? & ? & ? & H & ->)
  | H : Forall2 _ [] _ |- _ => apply Forall2_nil_inv_l in H as ->
  end.
  repeat match goal with
  | H : mbind _ _ = Ok _ |- _ =>
      let Hp := fresh "Hp" in
      apply bind_Ok in H as ([] & Hp & H);
      apply throw_if_Ok, negb_false_iff in Hp; injection H as <-
  end.
  split; [reflexivity|].
  intros r Hr [? ?].
  assert (r = 0 ∨ r = 1 ∨ r = 2 ∨ r = 3 ∨ r = 4 ∨ r = 5) as Hcases by lia.
  destruct Hcases as [->|[->|[->|[->|[->| ->]]]]]; congruence.
Qed.

Lemma partition_ranks_range (meta : metadata) (ranks : list Z) (k : Z) :
  partition_ranks meta = Ok ranks → k ∈ ranks → 0 ≤ k < 5.
Proof.
  intros H Hk. apply partition_ranks_Ok in H as [Hsz H].
  apply list_elem_of_lookup in Hk as [i Hi].
  pose proof (lookup_lt_Some _ _ _ Hi) as Hlt.
  destruct (H (Z.of_nat i)) as (mode & _ & Hm); [unfold size in Hsz; lia|].
  rewrite Nat2Z.id in Hm. rewrite Hi in Hm. injection Hm as ->.
  apply mode_rank_range.
Qed.

Lemma u64_small (z : Z) : 0 ≤ z < 2 ^ 64 → u64 z = z.
Proof. intros H. unfold u64, wrap. by apply Z.mod_small. Qed.

Lemma u32_small (z : Z) : 0 ≤ z < 2 ^ 32 → u32 z = z.
Proof. intros H. unfold u32, wrap. by apply Z.mod_small. Qed.

Lemma num_inodes_bound (meta : metadata) :
  check_index_range meta = Ok tt → num_inodes meta < UINT32_MAX.
Proof.
  unfold check_index_range, num_inodes. intros H.
  do 5 inv_check H. inv_check H.
  destruct (dir_entries meta).
  - by apply throw_if_Ok, Z.leb_gt in Hchk3.
  - inv_check H. by apply throw_if_Ok, Z.leb_gt in Hchk5.
Qed.

Lemma directories_bound (meta : metadata) :
  check_packed_tables meta = Ok tt → size (directories meta) < UINT32_MAX.
Proof.
  unfold check_packed_tables. intros H. inv_check H.
  by apply throw_if_Ok, Z.leb_gt in Hchk.
Qed.

(** C3. In an image the consistency check accepts, the inode numbers
    [0 .. N) fall into five consecutive ranges with boundaries
    [offsets = 0, o1, o2, o3, o4, N], in the order directories, symlinks,
    regular files, devices, other: the mode of inode [i] has rank [k]
    exactly if [offsets[k] ≤ i < offsets[k+1]]. The sizes of the first
    four ranges are the number of directories (the directories table
    without its sentinel), the size of the symlink table, the number of
    unique plus shared files derived from the chunk table and the
    shared-files table, and the number of devices. *)
Theorem accepted_inode_partitioning (meta m : metadata) :
  check_metadata meta true = Ok m →
  ∃ o1 o2 o3 o4 : Z,
    let offsets := [0; o1; o2; o3; o4; num_inodes meta] in
    check_partitioning meta = Ok offsets ∧
    (0 ≤ o1 ≤ o2 ∧ o2 ≤ o3 ≤ o4 ∧ o4 ≤ num_inodes meta) ∧
    (∀ i, 0 ≤ i < num_inodes meta →
       ∃ mode, inode_mode meta i = Ok mode ∧
         ∀ k, 0 ≤ k < 5 → (mode_rank mode = k ↔ in_partition offsets k i)) ∧
    o1 = size (directories meta) - 1 ∧
    o2 - o1 = size (symlink_table meta) ∧
    (∃ num_reg_unique num_reg_shared,
       num_reg_files meta = Ok (num_reg_unique, num_reg_shared) ∧
       o3 - o2 = u64 (num_reg_unique + num_reg_shared)) ∧
    o4 - o3 = num_devices meta.
Proof.
  intros H.
  destruct (check_metadata_Ok _ _ H) as (_ & He & Hi & Hp & _).
  apply num_inodes_bound in Hi. apply directories_bound in Hp.
  apply check_empty_tables_Ok in He as (_ & Hd & _).
  assert (1 ≤ size (directories meta)) as Hd1.
  { unfold size. destruct (directories meta); [done | simpl; lia]. }
  unfold UINT32_MAX in Hi, Hp.
  unfold check_metadata in H. do 5 inv_check H.
  inv_bind H. rename a into offsets.
  inv_bind H. destruct a as [nu ns].
  inv_bind H. inv_bind H. inv_bind H. inv_bind H.
  do 4 inv_check H. clear H.
  pose proof Ha as Hcp.
  apply check_partitioning_Ok in Ha as (ranks & Hranks & Hoffs & Hpart).
  rewrite Hoffs in Hcp. subst offsets.
  assert (∀ k, k ∈ ranks → 0 ≤ k < 5) as Hrange.
  { intros k Hk. eapply partition_ranks_range; eauto. }
  destruct (partition_ranks_Ok _ _ Hranks) as [Hsz Hmode].
  cbn in Ha1, Ha2, Ha3, Ha4.
  injection Ha1 as <-. injection Ha2 as <-.
  injection Ha3 as <-. injection Ha4 as <-.
  pose (pp := λ r, partition_point (λ k, k <? r) ranks).
  change (partition_point (λ k, k <? 1) ranks) with (pp 1) in *.
  change (partition_point (λ k, k <? 2) ranks) with (pp 2) in *.
  change (partition_point (λ k, k <? 3) ranks) with (pp 3) in *.
  change (partition_point (λ k, k <? 4) ranks) with (pp 4) in *.
  assert (pp 0 = 0) as H0.
  { apply partition_point_none. intros k Hk%Hrange. apply Z.ltb_ge. lia. }
  assert (pp 5 = num_inodes meta) as H5.
  { rewrite <- Hsz. apply partition_point_all.
    intros k Hk%Hrange. apply Z.ltb_lt. lia. }
  assert (∀ r r', r ≤ r' → pp r ≤ pp r') as Hmono.
  { intros r r' Hle. apply partition_point_mono.
    intros k Hk%Z.ltb_lt. apply Z.ltb_lt. lia. }
  assert (∀ r i mode, 0 ≤ r ≤ 5 →
            ranks !! Z.to_nat i = Some (mode_rank mode) → 0 ≤ i →
            (mode_rank mode < r ↔ i < pp r)) as Hspec.
  { intros r i mode Hr Hlook Hi0.
    destruct (is_partitioned (λ k, k <? r) ranks) eqn:Hisp.
    - rewrite <- Z.ltb_lt.
      rewrite (partition_point_spec _ _ Hisp _ _ Hlook). unfold pp. lia.
    - by apply Hpart in Hisp. }
  pose proof (Hmono 0 1). pose proof (Hmono 1 2). pose proof (Hmono 2 3).
  pose proof (Hmono 3 4). pose proof (Hmono 4 5).
  exists (pp 1), (pp 2), (pp 3), (pp 4). cbv zeta.
  split.
  { rewrite Hcp.
    change (Ok [pp 0; pp 1; pp 2; pp 3; pp 4; pp 5]
            = Ok [0; pp 1; pp 2; pp 3; pp 4; num_inodes meta]).
    by rewrite H0, H5. }
  split; [lia|].
  split.
  { intros i Hi'. destruct (Hmode i Hi') as (mode & Hm & Hlook).
    exists mode. split; [done|]. intros k Hk.
    pose proof (Hspec k i mode ltac:(lia) Hlook ltac:(lia)) as Hlo.
    pose proof (Hspec (k + 1) i mode ltac:(lia) Hlook ltac:(lia)) as Hhi.
    assert (k = 0 ∨ k = 1 ∨ k = 2 ∨ k = 3 ∨ k = 4) as Hcases by lia.
    unfold in_partition. clearbody pp. rewrite <- H5.
    destruct Hcases as [->|[->|[->|[->| ->]]]];
      match type of Hhi with context [pp (?a + 1)] =>
        let r := eval vm_compute in (a + 1) in change (a + 1) with r in Hhi
      end;
      repeat match goal with |- context [at_ ?l ?a] =>
        let r := eval vm_compute in (at_ l a) in change (at_ l a) with r
      end;
      (split;
       [ intros Heq; do 2 eexists; split; [done|]; split; [done|]; lia
       | intros (lo & hi & [= <-] & [= <-] & Hlh); lia ]). }
  apply throw_if_Ok, negb_false_iff, Z.eqb_eq in Hchk4, Hchk5, Hchk6, Hchk7.
  rewrite u64_small in Hchk4 by lia.
  rewrite u64_small in Hchk5 by lia.
  rewrite (u64_small (pp 3 - pp 2)) in Hchk6 by lia.
  rewrite u64_small in Hchk7 by lia.
  repeat split; try lia.
  exists nu, ns. split; [done | lia].
Qed.

(** ** The chunk table ([scan], "saving chunks...") *)

Lemma size_app {A} (l k : list A) : size (l ++ k) = size l + size k.
Proof. unfold size. rewrite length_app. lia. Qed.

Lemma size_cons {A} (x : A) (l : list A) : size (x :: l) = 1 + size l.
Proof. unfold size. simpl. lia. Qed.

Lemma size_nonneg {A} (l : list A) : 0 ≤ size l.
Proof. unfold size. lia. Qed.

Lemma all_chunks_cons (ino : inode) (inos : list inode) :
  all_chunks (ino :: inos) = inode_chunks ino ++ all_chunks inos.
Proof. reflexivity. Qed.

Lemma set_at_app (pre rest : list Z) (r0 x : Z) :
  set_at (pre ++ r0 :: rest) (size pre) x = Ok (pre ++ x :: rest).
Proof.
  unfold set_at.
  assert ((0 <=? size pre) && (size pre <? size (pre ++ r0 :: rest)) = true)
    as ->.
  { rewrite size_app, size_cons.
    pose proof (size_nonneg pre). pose proof (size_nonneg rest).
    apply andb_true_iff. rewrite Z.leb_le, Z.ltb_lt. lia. }
  f_equal. unfold size. rewrite Nat2Z.id.
  replace (length pre) with (length pre + 0)%nat by lia.
  by rewrite insert_app_r.
Qed.

Lemma for_each_inode_spec (inos : list inode) :
  ∀ (pre rest : list Z) (c : list chunk),
    num <$> inos = seqZ (size pre) (size inos) →
    size inos ≤ size rest →
    size c + size (all_chunks inos) < 2 ^ 32 →
    for_each_inode (pre ++ rest, c) inos =
      Ok (pre ++ first_chunk_indices (size c) inos
              ++ drop (length inos) rest,
          c ++ all_chunks inos).
Proof.
  induction inos as [|ino inos IH]; intros pre rest c Hnum Hlen Hc.
  - simpl. unfold all_chunks. simpl. by rewrite app_nil_r.
  - rewrite size_cons in Hnum, Hlen. rewrite all_chunks_cons, size_app in Hc.
    pose proof (size_nonneg inos). pose proof (size_nonneg c).
    pose proof (size_nonneg (inode_chunks ino)).
    pose proof (size_nonneg (all_chunks inos)).
    rewrite seqZ_cons in Hnum by lia.
    rewrite fmap_cons in Hnum. injection Hnum as Hino Hnum.
    destruct rest as [|r0 rest]; [unfold size in *; simpl in *; lia|].
    rewrite size_cons in Hlen.
    simpl. unfold save_inode_chunks. rewrite Hino, set_at_app. simpl.
    replace (pre ++ u32 (size c) :: rest)
      with ((pre ++ [u32 (size c)]) ++ rest) by (by rewrite <- app_assoc).
    rewrite IH.
    + rewrite u32_small by lia. rewrite size_app.
      rewrite <- !app_assoc. simpl. by rewrite all_chunks_cons, app_assoc.
    + assert (size (pre ++ [u32 (size c)]) = Z.succ (size pre)) as ->.
      { rewrite size_app. unfold size. simpl. lia. }
      by replace (size inos) with (Z.pred (1 + size inos)) by lia.
    + lia.
    + rewrite size_app. lia.
Qed.

Lemma size_first_chunk_indices (base : Z) (inos : list inode) :
  size (first_chunk_indices base inos) = size inos.
Proof.
  revert base. induction inos as [|ino inos IH]; intros base; [done|].
  simpl. by rewrite !size_cons, IH.
Qed.

Lemma save_chunks_spec (inos : list inode) :
  num <$> inos = seqZ 0 (size inos) →
  size (all_chunks inos) < 2 ^ 32 →
  save_chunks inos =
    Ok (first_chunk_indices 0 inos ++ [size (all_chunks inos)],
        all_chunks inos).
Proof.
  intros Hnum Hc. unfold save_chunks.
  pose proof (size_nonneg inos). pose proof (size_nonneg (all_chunks inos)).
  replace (Z.to_nat (size inos + 1)) with (S (length inos))
    by (unfold size; lia).
  rewrite replicate_S_end.
  pose proof (for_each_inode_spec inos [] (replicate (length inos) 0 ++ [0])
                                  []) as Hloop.
  simpl in Hloop. rewrite Hloop; clear Hloop.
  - simpl.
    rewrite drop_app_length' by (by rewrite length_replicate).
    rewrite <- (size_first_chunk_indices 0 inos), set_at_app. rewrite u32_small by lia. done.
  - done.
  - rewrite size_app. unfold size. rewrite length_replicate. simpl. lia.
  - unfold size at 1. simpl. lia.
Qed.

Lemma first_chunk_indices_lookup (inos : list inode) :
  ∀ (base : Z) (f : nat), (f < length inos)%nat →
    first_chunk_indices base inos !! f
      = Some (base + size (all_chunks (take f inos))).
Proof.
  induction inos as [|ino inos IH]; intros base f Hf; simpl in Hf; [lia|].
  destruct f as [|f]; simpl.
  - f_equal. unfold all_chunks, size. simpl. lia.
  - rewrite IH by lia. f_equal. rewrite all_chunks_cons, size_app. lia.
Qed.

Lemma is_sorted_cons_cons (x y : Z) (l : list Z) :
  is_sorted (x :: y :: l) = (x <=? y) && is_sorted (y :: l).
Proof. unfold is_sorted. simpl. by rewrite Z.leb_antisym. Qed.

Lemma first_chunk_indices_sorted (inos : list inode) (base : Z) :
  is_sorted (first_chunk_indices base inos ++ [base + size (all_chunks inos)])
    = true.
Proof.
  revert base. induction inos as [|ino inos IH]; intros base; [done|].
  rewrite all_chunks_cons, size_app, Z.add_assoc.
  specialize (IH (base + size (inode_chunks ino))).
  pose proof (size_nonneg (inode_chunks ino)).
  pose proof (size_nonneg (all_chunks inos)).
  simpl. destruct inos as [|ino' inos]; simpl in *;
    rewrite is_sorted_cons_cons, IH, andb_true_r; apply Z.leb_le; lia.
Qed.

(** Summing the successive differences of a sorted table of 32-bit values
    gives back its last value. *)
Lemma adjacent_difference_from_sum (l : list Z) :
  ∀ prev, is_sorted (prev :: l) = true → 0 ≤ prev →
    (∀ x, x ∈ l → x < 2 ^ 32) →
    foldl (λ n c, u64 (n + c)) prev (adjacent_difference_from prev l)
      = default prev (list.last l).
Proof.
  induction l as [|x l IH]; intros prev Hs Hprev Hb; [done|].
  rewrite is_sorted_cons_cons in Hs. apply andb_true_iff in Hs as [Hle Hs].
  apply Z.leb_le in Hle.
  assert (x < 2 ^ 32) by (apply Hb; by left).
  simpl. rewrite (u32_small (x - prev)) by lia.
  replace (prev + (x - prev)) with x by lia. rewrite u64_small by lia.
  rewrite IH; [| done | lia | intros y Hy; apply Hb; by right].
  rewrite last_cons. by destruct (list.last l).
Qed.

Lemma adjacent_difference_sum (l : list Z) (last : Z) :
  is_sorted l = true → (∀ x, x ∈ l → 0 ≤ x < 2 ^ 32) →
  list.last l = Some last →
  accumulate (λ n c, u64 (n + c)) 0 (adjacent_difference l) = last.
Proof.
  destruct l as [|x l]; intros Hs Hb Hlast; [done|].
  assert (0 ≤ x < 2 ^ 32) by (apply Hb; by left).
  unfold accumulate. simpl. rewrite u64_small by lia.
  rewrite adjacent_difference_from_sum;
    [| done | lia | intros y Hy; apply Hb; by right].
  rewrite last_cons in Hlast. destruct (list.last l); simpl; congruence.
Qed.

(** C5. The chunk table of an emitted image, before packing, has one
    entry per unique file (the inodes of the inode manager, numbered
    [0 .. count) in the order they are visited) plus a sentinel; entry [f]
    is the index of the first chunk of file [f] in [chunks], the sentinel
    is the number of chunks, and the entries are non-decreasing. With
    [pack_chunk_table] the stored table is the table of successive
    differences of that table, and its sum is the number of chunks. The
    number of chunks is taken to fit the 32-bit entries of the table. *)
Theorem emitted_chunk_table_shape (PRJ_GIT_ID : string)
    (string_table_pack : bool → list string → string_table)
    (opts : scanner_options) (now : Z) (sd : scan_data) (m : metadata) :
  scan_metadata PRJ_GIT_ID string_table_pack opts now sd = Ok m →
  num <$> sd_file_inodes sd = seqZ 0 (size (sd_file_inodes sd)) →
  size (all_chunks (sd_file_inodes sd)) < 2 ^ 32 →
  let inos := sd_file_inodes sd in
  chunks m = all_chunks inos ∧
  ∃ table : list Z,
    size table = size inos + 1 ∧
    (∀ f, 0 ≤ f < size inos →
       at_ table f = Ok (size (all_chunks (take (Z.to_nat f) inos)))) ∧
    at_ table (size inos) = Ok (size (chunks m)) ∧
    is_sorted table = true ∧
    (pack_chunk_table opts = false → chunk_table m = table) ∧
    (pack_chunk_table opts = true →
       chunk_table m = adjacent_difference table ∧
       accumulate (λ n c, u64 (n + c)) 0 (chunk_table m) = size (chunks m)).
Proof.
  intros Hscan Hnum Hc inos. unfold scan_metadata in Hscan.
  rewrite (save_chunks_spec _ Hnum Hc) in Hscan. simpl in Hscan.
  inv_bind Hscan. injection Hscan as <-. simpl. fold inos in Hnum, Hc |- *.
  split; [done|].
  pose proof (size_nonneg inos). pose proof (size_nonneg (all_chunks inos)).
  set (table := first_chunk_indices 0 inos ++ [size (all_chunks inos)]).
  assert (is_sorted table = true) as Hsorted
    by apply (first_chunk_indices_sorted inos 0).
  exists table. split; [|split; [|split; [|split; [|split]]]].
  - unfold table. rewrite size_app, size_first_chunk_indices. done.
  - intros f Hf. apply at_Ok. unfold table.
    rewrite lookup_app_l.
    2:{ pose proof (size_first_chunk_indices 0 inos). unfold size in *. lia. }
    rewrite first_chunk_indices_lookup by (unfold size in *; lia). done.
  - apply at_Ok. unfold table.
    rewrite <- (size_first_chunk_indices 0 inos). unfold size at 1.
    rewrite Nat2Z.id. by apply list_lookup_middle.
  - done.
  - by intros ->.
  - intros ->. split; [done|].
    apply adjacent_difference_sum; [done | | apply last_snoc].
    intros x Hx. unfold table in Hx. apply elem_of_app in Hx as [Hx|Hx].
    + apply list_elem_of_lookup in Hx as [f Hf].
      pose proof (lookup_lt_Some _ _ _ Hf) as Hlt.
      pose proof (size_first_chunk_indices 0 inos) as Hsz.
      rewrite first_chunk_indices_lookup in Hf by (unfold size in *; lia).
      injection Hf as <-.
      pose proof (size_nonneg (all_chunks (take f inos))).
      assert (size (all_chunks (take f inos)) ≤ size (all_chunks inos));
        [|lia].
      rewrite <- (take_drop f inos) at 2. unfold all_chunks.
      rewrite fmap_app, concat_app, size_app.
      pose proof (size_nonneg (concat (inode_chunks <$> drop f inos))). lia.
    + apply list_elem_of_singleton in Hx as ->. lia.
Qed.

Lemma emitted_chunk_table_shape_witness :
  sample_scan packed_options 0 = Ok sample_packed_image ∧
  chunks sample_packed_image = all_chunks (sd_file_inodes sample_data) ∧
  ∃ table : list Z,
    size table = 5 ∧
    at_ table 4 = Ok (size (chunks sample_packed_image)) ∧
    chunk_table sample_packed_image = adjacent_difference table.
Proof.
  assert (sample_scan packed_options 0 = Ok sample_packed_image) as Hscan
    by (vm_compute; reflexivity).
  split; [exact Hscan|].
  destruct (emitted_chunk_table_shape "v0.5" sample_string_table_pack
              packed_options 0 sample_data sample_packed_image Hscan)
    as (Hchunks & table & Hsize & _ & Hlast & _ & _ & Hpacked).
  - vm_compute. reflexivity.
  - vm_compute. reflexivity.
  - split; [exact Hchunks|].
    exists table. split; [exact Hsize|]. split; [exact Hlast|].
    apply Hpacked. reflexivity.
Defined.

(** ** The clock in the metadata assembly *)

(** With the same tables and options, two runs that read different clock
    values assemble different metadata: the creation time stamp is stored
    unless [no_create_timestamp] is set. *)
Lemma build_depends_on_clock :
  sample_scan plain_options 1600000000 ≠ sample_scan plain_options 1600000001.
Proof. vm_compute. intros [=]. Qed.

(** The clock shows in [create_timestamp] and nowhere else. *)
Lemma scan_metadata_clock_only_in_timestamp (PRJ_GIT_ID : string)
    (string_table_pack : bool → list string → string_table)
    (opts : scanner_options) (sd : scan_data) (now1 now2 : Z)
    (m1 m2 : metadata) :
  scan_metadata PRJ_GIT_ID string_table_pack opts now1 sd = Ok m1 →
  scan_metadata PRJ_GIT_ID string_table_pack opts now2 sd = Ok m2 →
  m2 = mk_metadata (chunks m1) (directories m1) (inodes m1) (chunk_table m1)
         (entry_table_v2_2 m1) (symlink_table m1) (uids m1) (gids m1)
         (modes m1) (names m1) (symlinks m1) (timestamp_base m1)
         (block_size m1) (total_fs_size m1) (devices m1) (options m1)
         (dir_entries m1) (shared_files_table m1) (total_hardlink_size m1)
         (dwarfs_version m1)
         (if no_create_timestamp opts then None else Some now2)
         (compact_names m1) (compact_symlinks m1).
Proof.
  unfold scan_metadata. intros H1 H2.
  inv_bind H1. destruct a as [ct cs]. rewrite Ha in H2. simpl in H2.
  inv_bind H1. rewrite Ha0 in H2. simpl in H2.
  injection H1 as <-. injection H2 as <-. reflexivity.
Qed.

(** ** Instances on the sample images *)

Lemma accepted_inode_partitioning_witness :
  check_metadata sample_packed_image true = Ok sample_packed_image ∧
  ∃ o1 o2 o3 o4 : Z,
    check_partitioning sample_packed_image = Ok [0; o1; o2; o3; o4; 13] ∧
    o1 = 3 ∧ o2 - o1 = 2 ∧ o4 - o3 = 2.
Proof.
  assert (check_metadata sample_packed_image true = Ok sample_packed_image)
    as Hacc by (vm_compute; reflexivity).
  split; [exact Hacc|].
  destruct (accepted_inode_partitioning _ _ Hacc)
    as (o1 & o2 & o3 & o4 & Hoffs & _ & _ & H1 & H2 & _ & H4).
  exists o1, o2, o3, o4. repeat split; assumption.
Defined.

Lemma accepted_index_bounds_witness :
  check_metadata empty_image true = Ok empty_image ∧
  index_bounds empty_image.
Proof.
  assert (check_metadata empty_image true = Ok empty_image) as Hacc
    by (vm_compute; reflexivity).
  split; [exact Hacc|].
  exact (accepted_index_bounds empty_image empty_image Hacc).
Defined.

Lemma parent_inode_root_and_others_witness :
  2 ≠ 0 ∧
  parent_dir_entry sample_global 2 = Ok 4 ∧
  directory_view_parent_inode (mk_directory_view 0 sample_global) = Ok 0 ∧
  directory_view_parent_inode (mk_directory_view 2 sample_global) = Ok 1.
Proof.
  assert (2 ≠ 0) as Hd by lia.
  assert (parent_dir_entry sample_global 2 = Ok 4) as Hpe by reflexivity.
  split; [exact Hd|]. split; [exact Hpe|].
  destruct (parent_inode_root_and_others sample_global 2 4 Hd Hpe)
    as [Hroot Hother].
  split; [exact Hroot|]. rewrite Hother. reflexivity.
Defined.

(** ** Unreadable files ([add_entry]) *)

Section AddEntrySteps.

Variable create : string → result (option entry).
Variable access : string → Z.
Variable pe_scan : entry → result unit.
Variable fs_scan : entry → result unit.
Variable script_ : option script.
Variable options_ : scanner_options.

(** [add_entry] on an entry the factory created and the script does not
    exclude: the two [switch] statements under the [try]. *)
Lemma add_entry_of_entry (name : string) (debug_filter : bool)
    (st : scan_state) (pe0 pe : entry) :
  create name = Ok (Some pe0) →
  apply_script script_ pe0 = (false, pe) →
  add_entry create access pe_scan fs_scan script_ options_ name debug_filter st
  = try_catch_system_error
      (ope ← check_entry access options_ pe ;
       match ope with
       | None => mret None
       | Some pe =>
           parent_add pe ;;
           count_entry pe_scan fs_scan debug_filter pe ;;
           mret (Some pe)
       end)
      (λ what,
         LOG_ERROR ("error reading entry: " +:+ what) ;;
         update_prog errors_incr ;;
         mret None) st.
Proof.
  intros Hcreate Hscript.
  unfold add_entry, add_entry_with, try_catch_system_error.
  unfold mbind at 1 2 3, scanM_bind at 1 2 3, lift at 1 2.
  rewrite Hcreate. cbn [apply_script_to]. rewrite Hscript.
  cbn [fst snd]. unfold debug_filter_call, when, lift.
  by destruct debug_filter.
Qed.

(** One turn of the loop over the names of a directory. *)
Lemma read_directory_cons (debug_filter : bool) (name : string)
    (names : list string) (subdirs : list entry) (st : scan_state) :
  name ≠ "." → name ≠ ".." →
  read_directory create access pe_scan fs_scan script_ options_
                 debug_filter (name :: names) subdirs st
  = match add_entry create access pe_scan fs_scan script_ options_
                    name debug_filter st with
    | (st1, Ok (Some pe)) =>
        if bool_decide (type pe = E_DIR)
        then read_directory create access pe_scan fs_scan script_ options_
                            debug_filter names (subdirs ++ [pe]) st1
        else read_directory create access pe_scan fs_scan script_ options_
                            debug_filter names subdirs st1
    | (st1, Ok None) =>
        read_directory create access pe_scan fs_scan script_ options_
                       debug_filter names subdirs st1
    | (st1, Err e) => (st1, Err e)
    end.
Proof.
  intros Hdot Hdotdot. unfold read_directory, add_entry.
  cbn [read_directory_with].
  rewrite (bool_decide_eq_false_2 _ Hdot), (bool_decide_eq_false_2 _ Hdotdot).
  cbn [orb]. unfold mbind at 1, scanM_bind at 1.
  destruct (add_entry_with create access pe_scan fs_scan script_ options_
              (Some (λ _ _, Ok tt)) name debug_filter st)
    as [st1 [[pe|]|e]];
    [by destruct (bool_decide (type pe = E_DIR)) | done | done].
Qed.

End AddEntrySteps.

(** C8. When the entry created for a name is a regular file that the
    script does not exclude and whose access check fails, [add_entry]
    logs an error, sets the size of the entry to 0, adds one to the error
    counter, adds the entry to its parent directory, counts it as a found
    file and returns it; the loop over the names of the directory then
    goes on with the next name. The file scanner is taken not to raise
    on the entry. *)
Theorem unreadable_file_fallback
    (create : string → result (option entry)) (access : string → Z)
    (pe_scan fs_scan : entry → result unit)
    (script_ : option script) (options_ : scanner_options)
    (name : string) (debug_filter : bool) (st : scan_state)
    (pe0 pe : entry) :
  create name = Ok (Some pe0) →
  apply_script script_ pe0 = (false, pe) →
  type pe = E_FILE →
  access (entry_path pe) ≠ 0 →
  (debug_filter = false → fs_scan (override_size 0 pe) = Ok tt) →
  let st' :=
    mk_scan_state
      (files_found_incr (errors_incr (prog st)))
      (parent_entries st ++ [override_size 0 pe])
      (log st ++ ["E cannot access " +:+ entry_path pe
                  +:+ ", creating empty file"]) in
  add_entry create access pe_scan fs_scan script_ options_ name debug_filter st
    = (st', Ok (Some (override_size 0 pe))) ∧
  errors (prog st') = errors (prog st) + 1 ∧
  entry_size (override_size 0 pe) = 0 ∧
  ∀ names subdirs, name ≠ "." → name ≠ ".." →
    read_directory create access pe_scan fs_scan script_ options_
                   debug_filter (name :: names) subdirs st
    = read_directory create access pe_scan fs_scan script_ options_
                     debug_filter names subdirs st'.
Proof.
  intros Hcreate Hscript Htype Haccess Hscan st'.
  assert (add_entry create access pe_scan fs_scan script_ options_ name
                    debug_filter st
          = (st', Ok (Some (override_size 0 pe)))) as Hadd.
  { rewrite (add_entry_of_entry _ _ _ _ _ _ _ _ _ _ _ Hcreate Hscript).
    unfold try_catch_system_error, mbind, scanM_bind, lift. simpl.
    unfold check_entry. rewrite Htype.
    apply Z.eqb_neq in Haccess. rewrite Haccess. simpl.
    unfold count_entry. simpl. rewrite Htype.
    unfold mbind, scanM_bind. simpl.
    destruct debug_filter; simpl.
    - reflexivity.
    - unfold lift. rewrite Hscan by reflexivity. reflexivity. }
  split; [exact Hadd|]. split; [reflexivity|]. split; [reflexivity|].
  intros names subdirs Hdot Hdotdot.
  rewrite read_directory_cons, Hadd by done.
  rewrite bool_decide_eq_false_2; [reflexivity|].
  simpl. rewrite Htype. discriminate.
Qed.

Lemma unreadable_file_fallback_witness :
  let pe := mk_entry "ipsum.py" "/somedir/ipsum.py" E_FILE 10000 in
  add_entry sample_create sample_access sample_scan_ok sample_scan_ok
            None plain_options "ipsum.py" false sample_state
  = (mk_scan_state (mk_progress 1 2 1 4 1 1 0) [override_size 0 pe]
       ["E cannot access /somedir/ipsum.py, creating empty file"],
     Ok (Some (override_size 0 pe))).
Proof.
  intros pe.
  destruct (unreadable_file_fallback sample_create sample_access
              sample_scan_ok sample_scan_ok None plain_options
              "ipsum.py" false sample_state pe pe) as [Hadd _].
  - reflexivity.
  - reflexivity.
  - reflexivity.
  - vm_compute. discriminate.
  - reflexivity.
  - exact Hadd.
Defined.

(** ** The shared-files table ([pack_shared_files]) *)

Lemma is_sorted_cons_inv (x : Z) (l : list Z) :
  is_sorted (x :: l) = true →
  is_sorted l = true ∧ ∀ y, y ∈ l → x ≤ y.
Proof.
  revert x. induction l as [|y l IH]; intros x Hs.
  - split; [done|]. intros y Hy. inversion Hy.
  - rewrite is_sorted_cons_cons in Hs. apply andb_true_iff in Hs as [Hxy Hs].
    apply Z.leb_le in Hxy. split; [done|].
    destruct (IH y Hs) as [_ Hl].
    intros z [->|Hz]%elem_of_cons; [done|]. specialize (Hl z Hz). lia.
Qed.

Lemma count_of_app (k : Z) (l1 l2 : list Z) :
  count_of k (l1 ++ l2) = count_of k l1 + count_of k l2.
Proof. induction l1 as [|x l1 IH]; simpl; lia. Qed.

Lemma count_of_replicate (k x : Z) (n : nat) :
  count_of k (replicate n x) = if decide (x = k) then Z.of_nat n else 0.
Proof.
  induction n as [|n IH]; simpl.
  - by destruct (decide (x = k)).
  - rewrite IH. destruct (decide (x = k)) as [->|Hne].
    + rewrite Z.eqb_refl. lia.
    + apply Z.eqb_neq in Hne. rewrite Hne. lia.
Qed.

Lemma count_of_none (k : Z) (l : list Z) :
  (∀ x, x ∈ l → x ≠ k) → count_of k l = 0.
Proof.
  induction l as [|y l IH]; intros H; [done|]. simpl.
  assert (y ≠ k) as Hy%Z.eqb_neq by (apply H; by left). rewrite Hy.
  rewrite IH; [done|]. intros x Hx. apply H. by right.
Qed.

(** A sorted vector with values from [k] on starts with its run of [k]. *)
Lemma sorted_leading_run (k : Z) (v : list Z) :
  is_sorted v = true → (∀ x, x ∈ v → k ≤ x) →
  ∃ (m : nat) (rest : list Z),
    v = replicate m k ++ rest ∧ is_sorted rest = true ∧
    ∀ x, x ∈ rest → k + 1 ≤ x.
Proof.
  induction v as [|x v IH]; intros Hs Hk.
  - exists 0%nat, []. split; [done|]. split; [done|]. intros x Hx. inversion Hx.
  - destruct (is_sorted_cons_inv _ _ Hs) as [Hs' Hx].
    destruct (decide (x = k)) as [->|Hne].
    + destruct IH as (m & rest & -> & Hr & Hrest); [done| |].
      { intros y Hy. apply Hk. by right. }
      exists (S m), rest. done.
    + exists 0%nat, (x :: v). split; [done|]. split; [done|].
      assert (k ≤ x) by (apply Hk; by left).
      intros y [->|Hy]%elem_of_cons; [lia|]. specialize (Hx y Hy). lia.
Qed.

(** A sorted vector in which each of [k .. max] occurs at least twice is
    a vector of runs. *)
Lemma shared_files_runs (n : nat) :
  ∀ (v : list Z) (k : Z),
    (length v ≤ n)%nat →
    is_sorted v = true →
    (∀ x, x ∈ v → k ≤ x) →
    (∀ x, x ∈ v → ∀ j, k ≤ j ≤ x → 2 ≤ count_of j v) →
    ∃ cs, v = runs_from k cs ∧ ∀ c, c ∈ cs → 0 ≤ c.
Proof.
  induction n as [|n IH]; intros v k Hlen Hs Hk Hcount.
  - destruct v; [|simpl in Hlen; lia].
    exists []. split; [done|]. intros c Hc. inversion Hc.
  - destruct v as [|x0 v0] eqn:Hv.
    { exists []. split; [done|]. intros c Hc. inversion Hc. }
    rewrite <- Hv in *.
    destruct (sorted_leading_run k v Hs Hk) as (m & rest & Hsplit & Hr & Hrest).
    assert (x0 ∈ v) as Hx0 by (rewrite Hv; by left).
    assert (count_of k v = Z.of_nat m) as Hm.
    { rewrite Hsplit, count_of_app, count_of_replicate.
      rewrite decide_True by done. rewrite count_of_none; [lia|].
      intros y Hy%Hrest. lia. }
    assert (2 ≤ Z.of_nat m) as Hm2.
    { rewrite <- Hm. apply (Hcount x0 Hx0). split; [lia | by apply Hk]. }
    destruct (IH rest (k + 1)) as (cs & Hcs & Hpos).
    + rewrite Hsplit, length_app, length_replicate in Hlen. lia.
    + done.
    + done.
    + intros x Hx j Hj.
      assert (x ∈ v) as Hxv by (rewrite Hsplit; apply elem_of_app; by right).
      specialize (Hcount x Hxv j ltac:(lia)).
      rewrite Hsplit, count_of_app, count_of_replicate in Hcount.
      rewrite decide_False in Hcount by lia. lia.
    + exists ((Z.of_nat m - 2) :: cs). split.
      * simpl. replace (Z.to_nat (Z.of_nat m - 2 + 2)) with m by lia.
        by rewrite <- Hcs.
      * intros c [->|Hc]%elem_of_cons; [lia | by apply Hpos].
Qed.

Lemma size_replicate {A} (n : nat) (x : A) :
  size (replicate n x) = Z.of_nat n.
Proof. unfold size. by rewrite length_replicate. Qed.

Lemma runs_from_ge (cs : list Z) :
  ∀ index x, x ∈ runs_from index cs → index ≤ x.
Proof.
  induction cs as [|c cs IH]; intros index x Hx; [inversion Hx|].
  simpl in Hx. apply elem_of_app in Hx as [Hx|Hx].
  - apply elem_of_replicate in Hx as [-> _]. lia.
  - apply IH in Hx. lia.
Qed.

Lemma size_runs_from (cs : list Z) :
  ∀ index, (∀ c, c ∈ cs → 0 ≤ c) →
    2 * size cs ≤ size (runs_from index cs) ∧
    ∀ c, c ∈ cs → c + 2 ≤ size (runs_from index cs).
Proof.
  induction cs as [|c cs IH]; intros index Hpos.
  - split; [done|]. intros c Hc. inversion Hc.
  - destruct (IH (index + 1)) as [Hlen Hc]; [intros; apply Hpos; by right|].
    assert (0 ≤ c) by (apply Hpos; by left).
    pose proof (size_nonneg (runs_from (index + 1) cs)).
    simpl. rewrite size_app, size_cons, size_replicate. split; [lia|].
    intros c' [->|Hc']%elem_of_cons; [|specialize (Hc c' Hc')]; lia.
Qed.

Lemma last_runs_from (cs : list Z) :
  ∀ index, cs ≠ [] → (∀ c, c ∈ cs → 0 ≤ c) →
    list.last (runs_from index cs) = Some (index + size cs - 1).
Proof.
  induction cs as [|c cs IH]; intros index Hne Hpos; [done|].
  assert (0 ≤ c) by (apply Hpos; by left).
  simpl. rewrite size_cons. destruct cs as [|c' cs].
  - simpl. rewrite app_nil_r.
    replace (Z.to_nat (c + 2)) with (S (Z.to_nat (c + 1))) by lia.
    rewrite replicate_S_end, last_snoc. f_equal. unfold size. simpl. lia.
  - rewrite last_app, IH; [| done | intros; apply Hpos; by right].
    f_equal. lia.
Qed.

Lemma unpack_shared_from_runs (cs : list Z) :
  ∀ index, 0 ≤ index → index + size cs ≤ 2 ^ 32 →
    unpack_shared_from index cs = runs_from index cs.
Proof.
  induction cs as [|c cs IH]; intros index Hi Hb; [done|].
  simpl. f_equal. rewrite size_cons in Hb. destruct cs as [|c' cs]; [done|].
  rewrite size_cons in Hb. pose proof (size_nonneg cs).
  rewrite u32_small by lia. apply IH; [lia|]. rewrite size_cons. lia.
Qed.

Lemma count_of_runs_from (cs : list Z) :
  ∀ index (k : nat) c, cs !! k = Some c → (∀ c, c ∈ cs → 0 ≤ c) →
    count_of (index + Z.of_nat k) (runs_from index cs) = c + 2.
Proof.
  induction cs as [|c0 cs IH]; intros index k c Hk Hpos; [done|].
  assert (0 ≤ c0) by (apply Hpos; by left).
  simpl. rewrite count_of_app, count_of_replicate. destruct k as [|k].
  - injection Hk as ->. rewrite decide_True by lia.
    rewrite count_of_none; [lia|].
    intros x Hx%runs_from_ge. lia.
  - rewrite decide_False by lia. simpl in Hk.
    replace (index + Z.of_nat (S k)) with (index + 1 + Z.of_nat k) by lia.
    rewrite (IH _ _ c); [lia | done | intros; apply Hpos; by right].
Qed.

Lemma pack_shared_loop_run (n : nat) :
  ∀ count index comp rest, 0 ≤ count → count + Z.of_nat n < 2 ^ 32 →
    pack_shared_loop (count, index, comp) (replicate n index ++ rest)
    = pack_shared_loop (count + Z.of_nat n, index, comp) rest.
Proof.
  induction n as [|n IH]; intros count index comp rest H0 Hb; simpl.
  - by rewrite Z.add_0_r.
  - rewrite Z.eqb_refl. simpl. rewrite u32_small by lia.
    rewrite IH by lia. do 3 f_equal. lia.
Qed.

Lemma pack_shared_loop_runs (cs : list Z) :
  ∀ index count comp,
    2 ≤ count < 2 ^ 32 → 0 ≤ index → index + size cs < 2 ^ 32 →
    (∀ c, c ∈ cs → 0 ≤ c ∧ c + 2 < 2 ^ 32) →
    ∃ count' index' comp',
      pack_shared_loop (count, index, comp) (runs_from (index + 1) cs)
        = Ok (count', index', comp') ∧
      comp' ++ [u32 (count' - 2)] = comp ++ (count - 2) :: cs.
Proof.
  induction cs as [|c cs IH]; intros index count comp Hcount Hindex Hb Hcs.
  - exists count, index, comp. split; [done|]. by rewrite u32_small by lia.
  - destruct (Hcs c) as [Hc0 Hc2]; [by left|].
    rewrite size_cons in Hb. pose proof (size_nonneg cs).
    simpl runs_from.
    replace (Z.to_nat (c + 2)) with (S (Z.to_nat (c + 1))) by lia.
    rewrite replicate_S. simpl app. simpl pack_shared_loop.
    assert ((index + 1 =? index) = false) as -> by (apply Z.eqb_neq; lia).
    rewrite (u32_small (index + 1)) by lia. rewrite Z.eqb_refl.
    assert ((2 <=? count) = true) as -> by (apply Z.leb_le; lia).
    simpl. rewrite pack_shared_loop_run by lia.
    destruct (IH (index + 1) (1 + Z.of_nat (Z.to_nat (c + 1)))
                 (comp ++ [u32 (count - 2)]))
      as (count' & index' & comp' & Hloop & Hcomp);
      [lia | lia | lia | intros; apply Hcs; by right |].
    exists count', index', comp'. split; [done|].
    rewrite Hcomp, <- app_assoc. simpl. rewrite u32_small by lia.
    do 3 f_equal. lia.
Qed.

(** C2. For a shared-files vector that is non-decreasing and in which
    each of the values 0..max occurs at least twice, packing succeeds,
    unpacking the packed vector gives the vector back, and entry [k] of
    the packed vector is the number of occurrences of [k] minus 2, which
    is not negative: every packed run is a run of at least 2. The vector
    has fewer than 2^32 items, as its 32-bit size in the builder says. *)
Theorem pack_unpack_shared_files (v : list Z) :
  is_sorted v = true →
  (∀ x, x ∈ v → 0 ≤ x) →
  (∀ x, x ∈ v → ∀ k, 0 ≤ k ≤ x → 2 ≤ count_of k v) →
  size v < 2 ^ 32 →
  ∃ packed,
    pack_shared_files v = Ok packed ∧
    unpack_shared_files packed = v ∧
    ∀ (k : nat) c, packed !! k = Some c →
      c = count_of (Z.of_nat k) v - 2 ∧ 2 ≤ count_of (Z.of_nat k) v.
Proof.
  intros Hs Hpos Hcount Hsize.
  destruct (shared_files_runs (length v) v 0) as (cs & Hv & Hcs);
    [lia | done | done | done |].
  destruct (size_runs_from cs 0 Hcs) as [Hlen Hc]. rewrite <- Hv in Hlen, Hc.
  pose proof (size_nonneg cs).
  assert (unpack_shared_files cs = v) as Hunpack.
  { unfold unpack_shared_files. rewrite unpack_shared_from_runs; [done|lia|lia]. }
  assert (∀ (k : nat) c, cs !! k = Some c →
            c = count_of (Z.of_nat k) v - 2 ∧ 2 ≤ count_of (Z.of_nat k) v)
    as Hruns.
  { intros k c Hk. pose proof (count_of_runs_from cs 0 k c Hk Hcs) as Hck.
    rewrite Z.add_0_l, <- Hv in Hck.
    assert (0 ≤ c) by (eapply Hcs, list_elem_of_lookup_2, Hk). lia. }
  exists cs. split; [|done].
  destruct cs as [|c0 cs].
  { simpl in Hv. subst v. done. }
  unfold pack_shared_files.
  rewrite Hv at 1. rewrite last_runs_from by done. rewrite Hs. simpl.
  rewrite size_cons in Hlen, H.
  assert (0 ≤ c0 ∧ c0 + 2 ≤ size v) as [Hc0 Hc0'].
  { split; [apply Hcs | apply Hc]; by left. }
  rewrite Hv. simpl runs_from.
  rewrite (pack_shared_loop_run _ 0 0 []) by lia.
  destruct (pack_shared_loop_runs cs 0 (0 + Z.of_nat (Z.to_nat (c0 + 2))) [])
    as (count' & index' & comp' & Hloop & Hcomp).
  - lia.
  - lia.
  - lia.
  - intros c Hc'. split; [apply Hcs; by right|].
    assert (c + 2 ≤ size v) by (apply Hc; by right). lia.
  - simpl in Hloop. rewrite Hloop.
    cbv beta iota delta [mbind result_bind]. rewrite Hcomp.
    rewrite app_nil_l.
    replace (0 + Z.of_nat (Z.to_nat (c0 + 2)) - 2) with c0 by lia.
    rewrite !size_cons.
    replace (0 + (1 + size cs) - 1 + 1) with (1 + size cs) by lia.
    rewrite u32_small by lia. rewrite Z.eqb_refl. done.
Qed.

Lemma pack_unpack_shared_files_witness :
  is_sorted [0; 0; 1; 1; 1; 2; 2] = true ∧
  size [0; 0; 1; 1; 1; 2; 2] < 2 ^ 32 ∧
  ∃ packed,
    pack_shared_files [0; 0; 1; 1; 1; 2; 2] = Ok packed ∧
    unpack_shared_files packed = [0; 0; 1; 1; 1; 2; 2] ∧
    packed = [0; 1; 0].
Proof.
  split; [reflexivity|]. split; [reflexivity|].
  destruct (pack_unpack_shared_files [0; 0; 1; 1; 1; 2; 2])
    as (packed & Hpack & Hunpack & _).
  - reflexivity.
  - intros x Hx.
    repeat (apply elem_of_cons in Hx as [->|Hx]); try lia. inversion Hx.
  - intros x Hx k Hk.
    assert (k = 0 ∨ k = 1 ∨ k = 2) as [->|[->| ->]].
    { repeat (apply elem_of_cons in Hx as [->|Hx]); try lia. inversion Hx. }
    all: vm_compute; discriminate.
  - reflexivity.
  - exists packed. split; [exact Hpack|]. split; [exact Hunpack|].
    vm_compute in Hpack. injection Hpack as <-. reflexivity.
Defined.

(** ** Paths ([dir_entry_view::path]) *)

Lemma string_app_nil_r (s : string) : s +:+ "" = s.
Proof.
  induction s as [|a s IH]; [done|].
  change (String a (s +:+ "") = String a s). by f_equal.
Qed.

Lemma string_app_assoc (s1 s2 s3 : string) :
  (s1 +:+ s2) +:+ s3 = s1 +:+ s2 +:+ s3.
Proof.
  induction s1 as [|a s1 IH]; [done|].
  change (String a ((s1 +:+ s2) +:+ s3) = String a (s1 +:+ s2 +:+ s3)).
  by f_equal.
Qed.

Lemma join_path_snoc (ns : list string) (n : string) :
  ns ≠ [] → join_path (ns ++ [n]) = join_path ns +:+ "/" +:+ n.
Proof.
  induction ns as [|m ns IH]; intros Hne; [done|].
  destruct ns as [|m' ns]; [done|].
  change (m +:+ "/" +:+ join_path ((m' :: ns) ++ [n])
          = (m +:+ "/" +:+ join_path (m' :: ns)) +:+ "/" +:+ n).
  rewrite IH by done. by rewrite !string_app_assoc.
Qed.

Lemma names_below_root_nil (v : dir_entry_view) (ns : list string) :
  names_below_root v ns →
  (dir_entry_view_is_root v = true ↔ ns = []).
Proof.
  intros [v' Hroot | v' p ns' n Hroot _ _ _]; split; try done.
  - congruence.
  - intros Hnil. by apply app_nil in Hnil as [_ ?].
Qed.

Lemma append_path_to_names (v : dir_entry_view) (ns : list string) :
  names_below_root v ns →
  ∀ (fuel : nat) (s : string), (length ns < fuel)%nat →
    dir_entry_view_append_path_to fuel v s = Ok (s +:+ join_path ns).
Proof.
  induction 1 as [v Hroot | v p ns n Hroot Hparent Hnames IH Hname];
    intros fuel s Hfuel; (destruct fuel as [|fuel]; [simpl in Hfuel; lia|]).
  - simpl. unfold dir_entry_view_parent. rewrite Hroot. simpl.
    by rewrite string_app_nil_r.
  - rewrite length_app in Hfuel. simpl in Hfuel.
    simpl. rewrite Hparent, Hroot, Hname. simpl.
    destruct (dir_entry_view_is_root p) eqn:Hp; simpl.
    + apply (names_below_root_nil _ _ Hnames) in Hp as ->. done.
    + assert (ns ≠ []) as Hne.
      { intros Hnil. apply (names_below_root_nil _ _ Hnames) in Hnil.
        congruence. }
      rewrite IH by lia. simpl.
      rewrite join_path_snoc by done. by rewrite !string_app_assoc.
Qed.

(** C10. The path of the root entry is the empty string. The path of an
    entry whose parent links lead to the root is the names of the entries
    on the way, from the one below the root down to the entry, joined by
    ['/']: the root's name is left out, and the separator stands only
    between two names. One unit of fuel per name suffices. *)
Theorem path_synthesis (v : dir_entry_view) (ns : list string) (fuel : nat) :
  names_below_root v ns →
  (length ns < fuel)%nat →
  dir_entry_view_path fuel v = Ok (join_path ns) ∧
  (dir_entry_view_is_root v = true → dir_entry_view_path fuel v = Ok "").
Proof.
  intros Hnames Hfuel.
  assert (dir_entry_view_path fuel v = Ok (join_path ns)) as Hpath.
  { unfold dir_entry_view_path.
    by rewrite (append_path_to_names v ns Hnames fuel "" Hfuel). }
  split; [exact Hpath|].
  intros Hroot. apply (names_below_root_nil _ _ Hnames) in Hroot as ->.
  exact Hpath.
Qed.

Lemma sample_entry_x_names :
  names_below_root sample_entry_x ["somedir"; "sub"; "x"].
Proof.
  eapply (names_step _ _ ["somedir"; "sub"] "x");
    [reflexivity | reflexivity | | reflexivity].
  eapply (names_step _ _ ["somedir"] "sub");
    [reflexivity | reflexivity | | reflexivity].
  eapply (names_step _ _ [] "somedir");
    [reflexivity | reflexivity | | reflexivity].
  apply names_root. reflexivity.
Defined.

Lemma path_synthesis_witness :
  dir_entry_view_path 4 sample_entry_x = Ok "somedir/sub/x".
Proof.
  destruct (path_synthesis sample_entry_x ["somedir"; "sub"; "x"] 4
              sample_entry_x_names) as [Hpath _].
  - simpl. lia.
  - exact Hpath.
Defined.

(** The path of the root entry, whatever its name. *)
Lemma path_of_root (v : dir_entry_view) (fuel : nat) :
  dir_entry_view_is_root v = true →
  dir_entry_view_path (S fuel) v = Ok "".
Proof.
  intros Hroot. unfold dir_entry_view_path. simpl.
  unfold dir_entry_view_parent. rewrite Hroot. reflexivity.
Qed.

(** ** Packed directories ([scan] and [unpack_directories]) *)

Lemma find_entry_Some (dirent : list dir_entry) :
  ∀ d e, find_entry d dirent = Some e →
    0 ≤ e ∧ ∃ de, dirent !! Z.to_nat e = Some de ∧ inode_num de = d.
Proof.
  induction dirent as [|de0 dirent IH]; intros d e H; [done|].
  simpl in H. destruct (inode_num de0 =? d) eqn:Hd.
  - injection H as <-. apply Z.eqb_eq in Hd. split; [lia|]. by exists de0.
  - destruct (find_entry d dirent) as [e'|] eqn:He'; [|done].
    injection H as <-. destruct (IH d e' He') as (He0 & de & Hde & Hino).
    split; [lia|]. exists de. split; [|done].
    replace (Z.to_nat (Z.succ e')) with (S (Z.to_nat e')) by lia. done.
Qed.

Lemma find_entry_inode (dirent : list dir_entry) (d e : Z) :
  find_entry d dirent = Some e → entry_inode dirent e = d.
Proof.
  intros (_ & de & Hde & Hino)%find_entry_Some.
  unfold entry_inode. by rewrite Hde.
Qed.

Lemma find_entry_inj (dirent : list dir_entry) (d1 d2 e : Z) :
  find_entry d1 dirent = Some e → find_entry d2 dirent = Some e → d1 = d2.
Proof.
  intros H1%find_entry_inode H2%find_entry_inode. congruence.
Qed.

Lemma u32_add_sub (prev f : Z) :
  0 ≤ f < 2 ^ 32 → u32 (prev + u32 (f - prev)) = f.
Proof.
  intros Hf. unfold u32, wrap. rewrite Zplus_mod_idemp_r.
  replace (prev + (f - prev)) with f by lia. by apply Z.mod_small.
Qed.

(** Delta-decoding undoes the delta-encoding of the first entries. *)
Lemma unpack_pack_first_entries (ds : list directory) :
  ∀ prev,
    Forall (λ x, 0 ≤ first_entry x < 2 ^ 32) ds →
    unpack_first_entries prev (pack_directories_loop prev ds)
    = zero_parent <$> ds.
Proof.
  induction ds as [|d ds IH]; intros prev Hall; [done|].
  apply Forall_cons in Hall as [Hd Hall]. simpl.
  rewrite u32_add_sub by done. f_equal. by apply IH.
Qed.

Lemma packed_parent_entries_zero (ds : list directory) :
  ∀ prev d, d ∈ pack_directories_loop prev ds → parent_entry d = 0.
Proof.
  induction ds as [|d0 ds IH]; intros prev d Hd; [inversion Hd|].
  simpl in Hd. apply elem_of_cons in Hd as [->|Hd]; [done|]. by eapply IH.
Qed.

Section PackedDirectories.

Variable dirs : list directory.
Variable dirent : list dir_entry.
Hypothesis Hvalid : valid_tree dirs dirent = true.

Local Abbreviation n := (size dirs - 1).

Lemma valid_tree_size : 1 ≤ n ∧ size dirs < 2 ^ 32.
Proof.
  unfold valid_tree in Hvalid.
  repeat (apply andb_true_iff in Hvalid as [Hvalid ?]).
  apply Z.leb_le in Hvalid. split; [done|]. by apply Z.ltb_lt.
Qed.

Lemma valid_tree_first_entries :
  Forall (λ x, 0 ≤ first_entry x < 2 ^ 32) dirs.
Proof.
  unfold valid_tree in Hvalid.
  repeat (apply andb_true_iff in Hvalid as [Hvalid ?]).
  apply Forall_forall. intros x Hx%list_elem_of_In.
  match goal with H : forallb _ dirs = true |- _ =>
    rewrite forallb_forall in H; specialize (H x Hx);
    apply andb_true_iff in H as [?%Z.leb_le ?%Z.ltb_lt] end.
  done.
Qed.

Lemma valid_tree_root :
  find_entry 0 dirent = Some 0 ∧ dir_parent dirs 0 = 0 ∧ dir_parent dirs n = 0.
Proof.
  unfold valid_tree in Hvalid.
  repeat (apply andb_true_iff in Hvalid as [Hvalid ?]).
  repeat match goal with
  | H : bool_decide _ = true |- _ => apply bool_decide_eq_true in H
  | H : (_ =? _) = true |- _ => apply Z.eqb_eq in H
  end.
  done.
Qed.

Lemma valid_tree_listed_entry (p e : Z) :
  0 ≤ p < n → e ∈ entries_of dirs p →
  ∃ de, dirent !! Z.to_nat e = Some de ∧ 0 ≤ inode_num de ∧
    (inode_num de < n →
       p < inode_num de ∧
       find_entry (inode_num de) dirent = Some e ∧
       find_entry p dirent = Some (dir_parent dirs (inode_num de))).
Proof.
  intros Hp He.
  unfold valid_tree in Hvalid.
  repeat (apply andb_true_iff in Hvalid as [Hvalid ?]).
  match goal with H : forallb _ (seqZ 0 n) = true |- _ =>
    rewrite forallb_forall in H;
    specialize (H p); rewrite forallb_forall in H;
    pose proof (H ltac:(apply list_elem_of_In, elem_of_seqZ; lia)
                  e ltac:(by apply list_elem_of_In)) as Hok
  end.
  unfold listed_entry_ok in Hok. 
  destruct (dirent !! Z.to_nat e) as [de|]; [|done].
  exists de. split; [done|].
  apply andb_true_iff in Hok as [Hd0%Z.leb_le Hok]. split; [done|].
  intros Hlt. apply orb_true_iff in Hok as [Hge%Z.leb_le | Hok]; [lia|].
  apply andb_true_iff in Hok as [Hok Hpar%bool_decide_eq_true].
  apply andb_true_iff in Hok as [Hpd%Z.ltb_lt Hself%bool_decide_eq_true].
  done.
Qed.

Lemma valid_tree_is_listed (d : Z) :
  1 ≤ d < n →
  find_entry d dirent = Some (entry_index dirent d) ∧
  ∃ p, parent_dir dirs dirent d p.
Proof.
  intros Hd.
  unfold valid_tree in Hvalid.
  repeat (apply andb_true_iff in Hvalid as [Hvalid ?]).
  match goal with H : forallb _ (seqZ 1 (n - 1)) = true |- _ =>
    rewrite forallb_forall in H;
    pose proof (H d ltac:(apply list_elem_of_In, elem_of_seqZ; lia)) as Hl
  end.
  unfold is_listed in Hl. unfold parent_dir, entry_index.
  destruct (find_entry d dirent) as [e|]; [|done]. simpl.
  split; [done|].
  apply existsb_exists in Hl as (p & Hp%list_elem_of_In%elem_of_seqZ & Hr).
  apply andb_true_iff in Hr as [?%Z.leb_le ?%Z.ltb_lt].
  exists p. lia.
Qed.

Lemma entry_index_dir (p : Z) :
  0 ≤ p < n → find_entry p dirent = Some (entry_index dirent p).
Proof.
  intros Hp. destruct (decide (p = 0)) as [->|Hne].
  - unfold entry_index. by destruct valid_tree_root as [-> _].
  - apply valid_tree_is_listed. lia.
Qed.

Lemma entry_index_in_entries (d p : Z) :
  parent_dir dirs dirent d p ↔
  0 ≤ p < n ∧ entry_index dirent d ∈ entries_of dirs p.
Proof.
  unfold parent_dir, entries_of. rewrite elem_of_seqZ. split; lia.
Qed.

Lemma parent_dir_facts (d p : Z) :
  1 ≤ d < n → parent_dir dirs dirent d p →
  p < d ∧ dir_parent dirs d = entry_index dirent p.
Proof.
  intros Hd Hp. pose proof Hp as [Hpn Hin]%entry_index_in_entries.
  destruct (valid_tree_is_listed d Hd) as [Hself _].
  destruct (valid_tree_listed_entry p _ Hpn Hin) as (de & Hde & _ & Hdir).
  pose proof (find_entry_inode _ _ _ Hself) as Hino.
  unfold entry_inode in Hino. rewrite Hde in Hino. rewrite Hino in Hdir.
  destruct Hdir as (Hlt & _ & Hpar); [lia|]. split; [done|].
  unfold entry_index. by rewrite Hpar.
Qed.

Lemma parent_dir_unique (d p1 p2 : Z) :
  1 ≤ d < n → parent_dir dirs dirent d p1 → parent_dir dirs dirent d p2 →
  p1 = p2.
Proof.
  intros Hd H1 H2.
  destruct (parent_dir_facts d p1 Hd H1) as [_ Hp1].
  destruct (parent_dir_facts d p2 Hd H2) as [_ Hp2].
  destruct H1 as [Hn1 _], H2 as [Hn2 _].
  pose proof (entry_index_dir p1 Hn1) as He1.
  pose proof (entry_index_dir p2 Hn2) as He2.
  rewrite <- Hp1 in He1. rewrite <- Hp2 in He2.
  eapply find_entry_inj; eauto.
Qed.

(** The directories listed in [p], as the traversal finds them. *)
Lemma subdir_entries_spec (p e : Z) :
  0 ≤ p < n →
  e ∈ subdir_entries dirs dirent (entries_of dirs p) →
  1 ≤ entry_inode dirent e < n ∧
  entry_index dirent (entry_inode dirent e) = e ∧
  parent_dir dirs dirent (entry_inode dirent e) p.
Proof.
  intros Hp He. unfold subdir_entries in He.
  apply list_elem_of_In, filter_In in He as [He%list_elem_of_In Hsub].
  unfold is_subdir_entry in Hsub.  apply Z.ltb_lt in Hsub.
  destruct (valid_tree_listed_entry p e Hp He) as (de & Hde & H0 & Hdir).
  unfold entry_inode in *. rewrite Hde in *.
  destruct (Hdir Hsub) as (Hlt & Hself & _).
  assert (entry_index dirent (inode_num de) = e) as Hidx
    by (unfold entry_index; by rewrite Hself).
  split; [lia|]. split; [done|].
  apply entry_index_in_entries. by rewrite Hidx.
Qed.

Lemma subdir_entries_complete (p d : Z) :
  1 ≤ d < n → parent_dir dirs dirent d p →
  entry_index dirent d ∈ subdir_entries dirs dirent (entries_of dirs p).
Proof.
  intros Hd [Hp Hin]%entry_index_in_entries.
  destruct (valid_tree_is_listed d Hd) as [Hself%find_entry_inode _].
  unfold subdir_entries. apply list_elem_of_In, filter_In.
  split; [by apply list_elem_of_In|].
  unfold is_subdir_entry. rewrite Hself. apply Z.ltb_lt. lia.
Qed.

Lemma approx_size (ds : list directory) :
  approx dirs ds → u64 (size ds - 1) = n.
Proof.
  intros [Hlen _]. destruct valid_tree_size as [Hn Hsz].
  unfold size in *. rewrite Hlen. apply u64_small. lia.
Qed.

Lemma approx_first (ds : list directory) (d : Z) :
  approx dirs ds → 0 ≤ d ≤ n →
  ∃ x, at_ ds d = Ok x ∧ first_entry x = dir_first dirs d.
Proof.
  intros [Hlen Hap] Hd. unfold dir_first.
  destruct (lookup_lt_is_Some_2 dirs (Z.to_nat d)) as [x Hx].
  { unfold size in Hd. lia. }
  rewrite Hx. destruct (Hap _ _ Hx) as [Hds|Hds];
    eexists; (split; [by apply at_Ok|done]).
Qed.

Lemma directory_eta (x : directory) :
  mk_directory (parent_entry x) (first_entry x) = x.
Proof. by destruct x. Qed.

(** Writing the parent entry of a listed directory gives the row of the
    builder's table. *)
Lemma approx_alter (ds : list directory) (parent d : Z) :
  approx dirs ds → 0 ≤ d < n → dir_parent dirs d = parent →
  let ds' := alter (set_parent_entry parent) (Z.to_nat d) ds in
  approx dirs ds' ∧
  ds' !! Z.to_nat d = dirs !! Z.to_nat d ∧
  ∀ i, ds !! i = dirs !! i → ds' !! i = dirs !! i.
Proof.
  intros [Hlen Hap] Hd Hpar ds'.
  destruct (lookup_lt_is_Some_2 dirs (Z.to_nat d)) as [x Hx].
  { unfold size in Hd. lia. }
  unfold dir_parent in Hpar. rewrite Hx in Hpar.
  assert (ds' !! Z.to_nat d = Some x) as Hd'.
  { unfold ds'. rewrite list_lookup_alter_eq.
    destruct (Hap _ _ Hx) as [-> | ->]; simpl; unfold set_parent_entry;
      simpl; rewrite <- Hpar; by rewrite directory_eta. }
  split; [split|split].
  - unfold ds'. by rewrite length_alter.
  - intros i y Hy. destruct (decide (i = Z.to_nat d)) as [->|Hne].
    + left. congruence.
    + unfold ds'. rewrite list_lookup_alter_ne by done. by apply Hap.
  - congruence.
  - intros i Hi. destruct (decide (i = Z.to_nat d)) as [->|Hne].
    + congruence.
    + unfold ds'. by rewrite list_lookup_alter_ne.
Qed.

(** The inner loop over the entries of one directory. *)
Lemma visit_entries_spec (parent : Z) (es : list Z) :
  ∀ (ds : list directory) (q : list Z),
    approx dirs ds →
    (∀ e, e ∈ es → ∃ de, dirent !! Z.to_nat e = Some de ∧
       0 ≤ inode_num de ∧
       (inode_num de < n → dir_parent dirs (inode_num de) = parent)) →
    ∃ ds',
      visit_entries dirent parent (ds, q) es
        = Ok (ds', q ++ subdir_entries dirs dirent es) ∧
      approx dirs ds' ∧
      (∀ i, ds !! i = dirs !! i → ds' !! i = dirs !! i) ∧
      (∀ e, e ∈ es → entry_inode dirent e < n →
         ds' !! Z.to_nat (entry_inode dirent e)
         = dirs !! Z.to_nat (entry_inode dirent e)).
Proof.
  induction es as [|e es IH]; intros ds q Hap Hes.
  - exists ds. simpl. rewrite app_nil_r.
    split; [done|]. split; [done|]. split; [done|].
    intros e He. inversion He.
  - destruct (Hes e) as (de & Hde & Hd0 & Hpar); [by left|].
    assert (entry_inode dirent e = inode_num de) as Hino
      by (unfold entry_inode; by rewrite Hde).
    simpl. unfold is_subdir_entry. rewrite Hino.
    apply at_Ok in Hde. rewrite Hde. simpl. rewrite (approx_size ds Hap).
    destruct (inode_num de <? n) eqn:Hlt.
    + apply Z.ltb_lt in Hlt. simpl.
      destruct (approx_alter ds parent (inode_num de) Hap)
        as (Hap' & Hnew & Hkeep); [lia | by apply Hpar |].
      destruct (IH _ (q ++ [e]) Hap') as (ds' & Hloop & Hap'' & Hkeep' & Hes').
      { intros e' He'. apply Hes. by right. }
      exists ds'. rewrite Hloop, <- app_assoc.
      split; [done|]. split; [done|]. split.
      * intros i Hi. by apply Hkeep', Hkeep.
      * intros e' [->|He']%elem_of_cons Hlt'.
        -- rewrite Hino. by apply Hkeep'.
        -- by apply Hes'.
    + apply Z.ltb_ge in Hlt. simpl.
      destruct (IH ds q Hap) as (ds' & Hloop & Hap' & Hkeep & Hes').
      { intros e' He'. apply Hes. by right. }
      exists ds'. split; [done|]. split; [done|]. split; [done|].
      intros e' [->|He']%elem_of_cons Hlt'; [lia | by apply Hes'].
Qed.

Lemma entry_inode_index (d : Z) :
  0 ≤ d < n → entry_inode dirent (entry_index dirent d) = d.
Proof. intros Hd. by apply find_entry_inode, entry_index_dir. Qed.

(** The directories whose entries one step appends to the queue are the
    directories listed in [p]. *)
Lemma listed_dirs_spec (p d : Z) :
  0 ≤ p < n →
  d ∈ entry_inode dirent <$> subdir_entries dirs dirent (entries_of dirs p) ↔
  1 ≤ d < n ∧ parent_dir dirs dirent d p.
Proof.
  intros Hp. rewrite list_elem_of_fmap. split.
  - intros (e & -> & He). destruct (subdir_entries_spec p e Hp He) as (? & _ & ?).
    done.
  - intros [Hd Hpar]. exists (entry_index dirent d). split.
    + symmetry. apply entry_inode_index. lia.
    + by apply subdir_entries_complete.
Qed.

Lemma listed_dirs_NoDup (p : Z) :
  0 ≤ p < n →
  NoDup (entry_inode dirent <$> subdir_entries dirs dirent (entries_of dirs p)).
Proof.
  intros Hp. apply NoDup_fmap_2_strong.
  - intros e1 e2 He1 He2 Heq.
    destruct (subdir_entries_spec p e1 Hp He1) as (_ & <- & _).
    destruct (subdir_entries_spec p e2 Hp He2) as (_ & <- & _).
    by rewrite Heq.
  - unfold subdir_entries. apply NoDup_ListNoDup, List.NoDup_filter.
    apply NoDup_ListNoDup, NoDup_seqZ.
Qed.

Lemma listed_dirs_entries (p : Z) :
  0 ≤ p < n →
  entry_index dirent
    <$> (entry_inode dirent <$> subdir_entries dirs dirent (entries_of dirs p))
  = subdir_entries dirs dirent (entries_of dirs p).
Proof.
  intros Hp. rewrite <- list_fmap_compose.
  rewrite <- (list_fmap_id (subdir_entries _ _ _)) at 2.
  apply list_fmap_ext. intros i e He%list_elem_of_lookup_2. simpl.
  by destruct (subdir_entries_spec p e Hp He) as (_ & -> & _).
Qed.

(** One step of the traversal keeps the invariant. *)
Lemma traversal_step (p : Z) (rest : list Z) (ds ds' : list directory)
    (todo : gset Z) :
  traversal_inv dirs dirent (p :: rest) ds todo →
  approx dirs ds' →
  (∀ i, ds !! i = dirs !! i → ds' !! i = dirs !! i) →
  (∀ e, e ∈ entries_of dirs p → entry_inode dirent e < n →
     ds' !! Z.to_nat (entry_inode dirent e)
     = dirs !! Z.to_nat (entry_inode dirent e)) →
  traversal_inv dirs dirent
    (rest ++ (entry_inode dirent
                <$> subdir_entries dirs dirent (entries_of dirs p)))
    ds' (todo ∖ {[p]}).
Proof.
  intros [Hap Hnd Hq Hdirs Hchild Hpend Hdone Hroot] Hap' Hkeep Hnew.
  assert (p ∈ todo) as Hp by (apply Hq; by left).
  pose proof (Hdirs p Hp) as Hpn.
  apply NoDup_cons in Hnd as [Hprest Hnd].
  pose proof (listed_dirs_spec p) as Hcds.
  split.
  - done.
  - apply NoDup_app. split; [done|]. split; [|by apply listed_dirs_NoDup].
    intros d Hd [Hdn Hpar]%Hcds; [|done].
    destruct (Hchild d p Hdn Hpar Hp) as [_ Hnot]. apply Hnot. by right.
  - intros d [Hd|Hd]%elem_of_app.
    + apply elem_of_difference. split; [apply Hq; by right|].
      rewrite elem_of_singleton. by intros ->.
    + apply Hcds in Hd as [Hdn Hpar]; [|done].
      destruct (Hchild d p Hdn Hpar Hp) as [Hd _].
      destruct (parent_dir_facts d p Hdn Hpar) as [Hlt _].
      apply elem_of_difference. split; [done|]. rewrite elem_of_singleton. lia.
  - intros d [Hd _]%elem_of_difference. by apply Hdirs.
  - intros d p' Hdn Hpar [Hp' Hne]%elem_of_difference.
    rewrite elem_of_singleton in Hne.
    destruct (Hchild d p' Hdn Hpar Hp') as [Hd Hnot].
    split.
    + apply elem_of_difference. split; [done|]. rewrite elem_of_singleton.
      intros ->. apply Hnot. by left.
    + intros [Hin|Hin]%elem_of_app.
      * apply Hnot. by right.
      * apply Hcds in Hin as [_ Hpar']; [|done].
        by pose proof (parent_dir_unique d p' p Hdn Hpar Hpar').
  - intros d p' Hdn Hpar [Hd Hne]%elem_of_difference.
    rewrite elem_of_singleton in Hne.
    destruct (Hpend d p' Hdn Hpar Hd) as [[->|Hin]%elem_of_cons | Hp'].
    + done.
    + left. apply elem_of_app. by left.
    + destruct (decide (p' = p)) as [->|Hne'].
      * left. apply elem_of_app. right. by apply Hcds.
      * right. apply elem_of_difference. split; [done|].
        by rewrite elem_of_singleton.
  - intros d p' Hdn Hpar Hnot.
    destruct (decide (p' = p)) as [->|Hne'].
    + rewrite <- (entry_inode_index d) by lia. apply Hnew.
      * by apply entry_index_in_entries.
      * rewrite entry_inode_index; lia.
    + apply Hkeep, (Hdone d p' Hdn Hpar). intros Hin. apply Hnot.
      apply elem_of_difference. split; [done|]. by rewrite elem_of_singleton.
  - intros [H0 Hne]%elem_of_difference. rewrite elem_of_singleton in Hne.
    apply Hroot in H0. apply elem_of_cons in H0 as [Heq|H0]; [congruence|].
    apply elem_of_app. by left.
Qed.

(** With an empty queue every directory has been taken from it, and the
    table is the builder's. *)
Lemma traversal_end (ds : list directory) (todo : gset Z) :
  traversal_inv dirs dirent [] ds todo → ds = dirs.
Proof.
  intros [[Hlen Hap] _ _ Hdirs _ Hpend Hdone Hroot].
  assert (∀ (k : nat) d, 0 ≤ d ≤ Z.of_nat k → d ∉ todo) as Hnone.
  { induction k as [|k IH]; intros d Hd Hin.
    - assert (d = 0) as -> by lia. apply Hroot in Hin. inversion Hin.
    - destruct (decide (d ≤ Z.of_nat k)) as [Hle|Hgt].
      { by apply (IH d ltac:(lia)). }
      pose proof (Hdirs d Hin) as Hdn.
      destruct (valid_tree_is_listed d ltac:(lia)) as [_ [p Hpar]].
      destruct (parent_dir_facts d p ltac:(lia) Hpar) as [Hlt _].
      destruct (Hpend d p ltac:(lia) Hpar Hin) as [Hq|Hp]; [inversion Hq|].
      pose proof (Hdirs p Hp). apply (IH p ltac:(lia) Hp). }
  destruct valid_tree_root as (_ & Hp0 & Hpn).
  destruct valid_tree_size as [Hn1 _].
  apply list_eq. intros i.
  destruct (dirs !! i) as [x|] eqn:Hx.
  - pose proof (lookup_lt_Some _ _ _ Hx) as Hi.
    assert (Z.of_nat i = 0 ∨ Z.of_nat i = n ∨ 1 ≤ Z.of_nat i < n)
      as [H0|[H0|H0]] by (unfold size; lia).
    + assert (parent_entry x = 0) as Hpx.
      { unfold dir_parent in Hp0.
        replace (Z.to_nat 0) with i in Hp0 by lia. by rewrite Hx in Hp0. }
      destruct (Hap _ _ Hx) as [->| ->]; [done|].
      unfold zero_parent. by rewrite <- Hpx, directory_eta.
    + assert (parent_entry x = 0) as Hpx.
      { unfold dir_parent in Hpn.
        replace (Z.to_nat n) with i in Hpn by lia. by rewrite Hx in Hpn. }
      destruct (Hap _ _ Hx) as [->| ->]; [done|].
      unfold zero_parent. by rewrite <- Hpx, directory_eta.
    + destruct (valid_tree_is_listed _ H0) as [_ [p Hpar]].
      pose proof (Hdone _ p H0 Hpar) as Hd. rewrite Nat2Z.id, Hx in Hd.
      apply Hd. destruct Hpar as [Hp _].
      apply (Hnone (Z.to_nat p)). lia.
  - apply lookup_ge_None. apply lookup_ge_None in Hx. lia.
Qed.

(** The invariant holds when the traversal starts: the root's entry in
    the queue, no parent entry recovered. *)
Lemma traversal_init :
  traversal_inv dirs dirent [0] (zero_parent <$> dirs)
                (list_to_set (seqZ 0 n)).
Proof.
  destruct valid_tree_size as [Hn1 _].
  assert (∀ d, d ∈ (list_to_set (seqZ 0 n) : gset Z) ↔ 0 ≤ d < n) as Hin.
  { intros d. rewrite elem_of_list_to_set, elem_of_seqZ. lia. }
  split.
  - split; [by rewrite length_fmap|].
    intros i x Hx. right. by rewrite list_lookup_fmap, Hx.
  - apply NoDup_singleton.
  - intros d ->%list_elem_of_singleton. apply Hin. lia.
  - intros d Hd. by apply Hin.
  - intros d p Hd Hpar Hp. split; [apply Hin; lia|].
    intros ->%list_elem_of_singleton. lia.
  - intros d p Hd [Hp _] _. right. by apply Hin.
  - intros d p Hd [Hp _] Hnot. exfalso. by apply Hnot, Hin.
  - intros _. by left.
Qed.

Lemma recover_parent_entries_step (fuel : nat) (parent : Z)
    (queue : list Z) (ds : list directory) :
  recover_parent_entries (S fuel) dirent (parent :: queue) ds =
    (pde ← at_ dirent parent ;
     let p_ino := inode_num pde in
     dbeg ← at_ ds p_ino ;
     dend ← at_ ds (u32 (p_ino + 1)) ;
     '(ds', queue') ←
       visit_entries dirent parent (ds, queue)
         (seqZ (first_entry dbeg) (first_entry dend - first_entry dbeg)) ;
     recover_parent_entries fuel dirent queue' ds').
Proof. reflexivity. Qed.

(** The traversal ends within one step per directory and recovers the
    builder's table. *)
Lemma recover_parent_entries_spec (fuel : nat) :
  ∀ (qd : list Z) (ds : list directory) (todo : gset Z),
    traversal_inv dirs dirent qd ds todo →
    (base.size todo ≤ fuel)%nat →
    recover_parent_entries fuel dirent (entry_index dirent <$> qd) ds
    = Ok dirs.
Proof.
  destruct valid_tree_size as [Hn1 Hsz].
  induction fuel as [|fuel IH]; intros qd ds todo Hinv Hfuel.
  - destruct qd as [|p rest].
    + simpl. f_equal. by eapply traversal_end.
    + assert (p ∈ todo) as Hp by (apply (inv_queue _ _ _ _ _ Hinv); by left).
      assert (base.size todo ≠ 0%nat) as Hne; [|lia].
      apply size_non_empty_iff. intros Hempty. rewrite Hempty in Hp.
      by apply not_elem_of_empty in Hp.
  - destruct qd as [|p rest].
    + simpl. f_equal. by eapply traversal_end.
    + assert (p ∈ todo) as Hp by (apply (inv_queue _ _ _ _ _ Hinv); by left).
      pose proof (inv_dirs _ _ _ _ _ Hinv p Hp) as Hpn. 
      pose proof (inv_approx _ _ _ _ _ Hinv) as Hap.
      rewrite fmap_cons, recover_parent_entries_step.
      destruct (find_entry_Some _ _ _ (entry_index_dir p Hpn))
        as (_ & pde & Hpde%at_Ok & Hino).
      rewrite Hpde. simpl. rewrite Hino.
      destruct (approx_first ds p Hap ltac:(lia)) as (dbeg & -> & Hbeg).
      rewrite (u32_small (p + 1)) by lia.
      destruct (approx_first ds (p + 1) Hap ltac:(lia)) as (dend & -> & Hend).
      simpl. rewrite Hbeg, Hend. fold (entries_of dirs p).
      destruct (visit_entries_spec (entry_index dirent p) (entries_of dirs p)
                  ds (entry_index dirent <$> rest) Hap)
        as (ds' & -> & Hap' & Hkeep & Hnew).
      { intros e He.
        destruct (valid_tree_listed_entry p e Hpn He) as (de & Hde & H0 & Hdir).
        exists de. split; [done|]. split; [done|]. intros Hlt.
        destruct (Hdir Hlt) as (_ & _ & Hpar).
        unfold entry_index. by rewrite Hpar. }
      simpl. rewrite <- (listed_dirs_entries p Hpn), <- fmap_app.
      apply (IH _ _ (todo ∖ {[p]})).
      * exact (traversal_step p rest ds ds' todo Hinv Hap' Hkeep Hnew).
      * assert (base.size (todo ∖ {[p]}) = (base.size todo - 1)%nat) as ->.
        { rewrite size_difference by (by apply singleton_subseteq_l).
          by rewrite size_singleton. }
        lia.
Qed.

End PackedDirectories.

(** Unpacking a packed valid table gives the table back, with one unit
    of fuel per directory. *)
Lemma unpack_pack_directories (meta : metadata) (dirs : list directory)
    (dirent : list dir_entry) (fuel : nat) :
  valid_tree dirs dirent = true →
  option_set packed_directories meta = true →
  directories meta = pack_directory_table dirs →
  dir_entries meta = Some dirent →
  size dirs - 1 ≤ Z.of_nat fuel →
  unpack_directories fuel meta = Ok dirs.
Proof.
  intros Hvalid Hopt Hdirs Hde Hfuel.
  destruct (valid_tree_size dirs dirent Hvalid) as [Hn1 Hsz].
  pose proof (valid_tree_first_entries dirs dirent Hvalid) as Hfirst.
  destruct (valid_tree_root dirs dirent Hvalid) as (Hroot & _ & _).
  unfold unpack_directories. rewrite Hopt, Hde, Hdirs.
  cbv beta iota delta [mbind result_bind from_option].
  destruct dirs as [|d0 rest] eqn:Hd; [unfold size in Hn1; simpl in Hn1; lia|].
  apply Forall_cons in Hfirst as [Hd0 Hrest].
  change (pack_directory_table (d0 :: rest))
    with (mk_directory 0 (u32 (first_entry d0 - 0))
            :: pack_directories_loop (first_entry d0) rest).
  rewrite Z.sub_0_r, (u32_small (first_entry d0)) by done.
  cbn [first_entry]. rewrite unpack_pack_first_entries by done.
  change (mk_directory 0 (first_entry d0) :: (zero_parent <$> rest))
    with (zero_parent <$> (d0 :: rest)).
  rewrite <- Hd in *.
  replace [0] with (entry_index dirent <$> [0])
    by (cbn [fmap list_fmap]; unfold entry_index; by rewrite Hroot).
  apply (recover_parent_entries_spec dirs dirent Hvalid fuel [0] _
           (list_to_set (seqZ 0 (size dirs - 1)))).
  - by apply traversal_init.
  - rewrite size_list_to_set by apply NoDup_seqZ. rewrite length_seqZ. lia.
Qed.

(** The packed table, row by row. *)
Lemma pack_directories_loop_lookup (ds : list directory) :
  ∀ (prev : Z) (i : nat) (d : directory), ds !! i = Some d →
    pack_directories_loop prev ds !! i
    = Some (mk_directory 0
              (u32 (first_entry d
                    - match i with
                      | O => prev
                      | S j => dir_first ds (Z.of_nat j)
                      end))).
Proof.
  induction ds as [|d0 ds IH]; intros prev i d Hi; [done|].
  destruct i as [|i]; simpl in Hi.
  - by injection Hi as ->.
  - simpl. rewrite (IH _ _ _ Hi). do 3 f_equal.
    destruct i as [|i]; [done|].
    unfold dir_first. rewrite !Nat2Z.id. done.
Qed.

(** C1. When the builder packs the directories of a valid tree, row [i]
    of the stored table holds a zero parent entry and the delta of its
    first entry against the first entry of row [i - 1] (row 0 against 0,
    so it stays absolute), and the reader's unpacking, prefix sums and
    the traversal from the root's entry, returns the table the builder
    had before packing: the same first and parent entries for every
    directory and the sentinel. One unit of fuel per directory suffices
    for the traversal. *)
Theorem packed_directories_roundtrip (PRJ_GIT_ID : string)
    (string_table_pack : bool → list string → string_table)
    (opts : scanner_options) (now : Z) (sd : scan_data) (m : metadata)
    (fuel : nat) :
  scan_metadata PRJ_GIT_ID string_table_pack opts now sd = Ok m →
  pack_directories opts = true →
  valid_tree (sd_directories sd) (sd_dir_entries sd) = true →
  size (sd_directories sd) - 1 ≤ Z.of_nat fuel →
  (∀ (i : nat) d, sd_directories sd !! i = Some d →
     directories m !! i
     = Some (mk_directory 0
               (u32 (first_entry d - previous_first (sd_directories sd) i)))) ∧
  unpack_directories fuel m = Ok (sd_directories sd).
Proof.
  intros Hscan Hpack Hvalid Hfuel. unfold scan_metadata in Hscan.
  inv_bind Hscan. destruct a as [ct cs]. inv_bind Hscan.
  injection Hscan as <-. rewrite Hpack.
  split.
  - simpl. intros i d Hd. unfold pack_directory_table.
    by rewrite (pack_directories_loop_lookup _ 0 i d Hd).
  - apply (unpack_pack_directories _ (sd_directories sd) (sd_dir_entries sd));
      done.
Qed.

Lemma packed_directories_roundtrip_witness :
  sample_scan packed_options 0 = Ok sample_packed_image ∧
  valid_tree (sd_directories sample_data) (sd_dir_entries sample_data) = true ∧
  directories sample_packed_image
  = [mk_directory 0 1; mk_directory 0 5; mk_directory 0 7; mk_directory 0 1] ∧
  unpack_directories 3 sample_packed_image
  = Ok [mk_directory 0 1; mk_directory 0 6; mk_directory 4 13;
        mk_directory 0 14].
Proof.
  assert (sample_scan packed_options 0 = Ok sample_packed_image) as Hscan
    by (vm_compute; reflexivity).
  assert (valid_tree (sd_directories sample_data) (sd_dir_entries sample_data)
          = true) as Hvalid by (vm_compute; reflexivity).
  split; [exact Hscan|]. split; [exact Hvalid|].
  destruct (packed_directories_roundtrip "v0.5" sample_string_table_pack
              packed_options 0 sample_data sample_packed_image 3 Hscan)
    as (Hpacked & Hunpack).
  - reflexivity.
  - exact Hvalid.
  - vm_compute. discriminate.
  - split; [reflexivity | exact Hunpack].
Defined.

(** ** What the string-table checks do enforce *)

Lemma max_element_by_ge (l : list Z) :
  ∀ best x, x = best ∨ x ∈ l → x ≤ max_element_by Z.ltb best l.
Proof.
  induction l as [|y l IH]; intros best x Hx; simpl.
  - destruct Hx as [->|Hx]; [lia | inversion Hx].
  - destruct (best <? y) eqn:Hlt.
    + apply Z.ltb_lt in Hlt.
      destruct Hx as [->|[->|Hx]%elem_of_cons].
      * specialize (IH y y (or_introl eq_refl)). lia.
      * apply IH. by left.
      * apply IH. by right.
    + apply Z.ltb_ge in Hlt.
      destruct Hx as [->|[->|Hx]%elem_of_cons].
      * apply IH. by left.
      * specialize (IH best best (or_introl eq_refl)). lia.
      * apply IH. by right.
Qed.

Lemma check_plain_strings_Ok (v : list frozen_string)
    (expected_num max_item_len : Z) (what : string) :
  check_plain_strings v expected_num max_item_len what = Ok tt →
  size v = expected_num ∧ ∀ s, s ∈ v → fs_size s ≤ max_item_len.
Proof.
  unfold check_plain_strings. intros H. inv_check H. inv_check H.
  apply throw_if_Ok, negb_false_iff, Z.eqb_eq in Hchk. split; [done|].
  intros s Hs. rewrite for_each_Ok in Hchk0.
  by apply Hchk0, throw_if_Ok, Z.ltb_ge in Hs.
Qed.

Lemma check_compact_strings_packed_Ok (v : string_table)
    (expected_num max_item_len : Z) (what : string) :
  check_compact_strings v expected_num max_item_len what = Ok tt →
  packed_index v = true →
  size (index v) = expected_num ∧
  size (buffer v) = u64 (accumulate_int (index v)) ∧
  ∀ x, x ∈ index v → x ≤ max_item_len.
Proof.
  unfold check_compact_strings. intros H Hpacked. rewrite Hpacked in H.
  simpl in H. inv_check H.
  apply throw_if_Ok, negb_false_iff, Z.eqb_eq in Hchk. split; [done|].
  destruct (index v) as [|x l] eqn:Hidx.
  - simpl in H. inv_check H.
    apply throw_if_Ok, negb_false_iff, Z.eqb_eq in Hchk0.
    split; [done|]. intros y Hy. inversion Hy.
  - simpl in H. inv_check H.
    apply throw_if_Ok, negb_false_iff, Z.eqb_eq in Hchk0.
    apply throw_if_Ok, Z.ltb_ge in H. split; [done|].
    intros y Hy.
    assert (y ≤ max_element_by Z.ltb x l); [|lia].
    apply max_element_by_ge. by apply elem_of_cons in Hy.
Qed.

Lemma check_compact_strings_offsets_Ok (v : string_table)
    (expected_num max_item_len : Z) (what : string) :
  check_compact_strings v expected_num max_item_len what = Ok tt →
  packed_index v = false → index v ≠ [] →
  size (index v) - 1 = expected_num ∧
  is_sorted (index v) = true ∧
  back (index v) = Ok (size (buffer v)).
Proof.
  unfold check_compact_strings. intros H Hpacked Hne. rewrite Hpacked in H.
  destruct (index v) as [|x l] eqn:Hidx; [done|].
  assert ((0 <? size (x :: l)) = true) as Hpos.
  { apply Z.ltb_lt. rewrite size_cons. pose proof (size_nonneg l). lia. }
  rewrite Hpos in H. simpl in H. inv_check H.
  apply throw_if_Ok, negb_false_iff, Z.eqb_eq in Hchk. split; [done|].
  inv_bind H. destruct a as [expected longest].
  inv_bind Ha. inv_check Ha. injection Ha as <- <-.
  apply throw_if_Ok, negb_false_iff in Hchk0. split; [done|].
  inv_check H. apply throw_if_Ok, negb_false_iff, Z.eqb_eq in Hchk1.
  congruence.
Qed.

(** An accepted image keeps the length limits in the plain tables and in
    compact tables with a packed index; for a compact table with an index
    of offsets the check establishes the order of the index and the size
    of the buffer only. *)
Lemma accepted_string_tables (meta m : metadata) :
  check_metadata meta true = Ok m →
  match compact_names meta with
  | None => ∀ s, s ∈ names meta → fs_size s ≤ max_name_len
  | Some cn =>
      if packed_index cn then ∀ x, x ∈ index cn → x ≤ max_name_len
      else index cn ≠ [] →
           is_sorted (index cn) = true ∧ back (index cn) = Ok (size (buffer cn))
  end ∧
  match compact_symlinks meta with
  | None => ∀ s, s ∈ symlinks meta → fs_size s ≤ max_symlink_len
  | Some cs =>
      if packed_index cs then ∀ x, x ∈ index cs → x ≤ max_symlink_len
      else index cs ≠ [] →
           is_sorted (index cs) = true ∧ back (index cs) = Ok (size (buffer cs))
  end.
Proof.
  intros H. apply check_metadata_Ok in H as (_ & _ & _ & _ & H & _).
  unfold check_string_tables in H. inv_check H. split.
  - destruct (compact_names meta) as [cn|].
    + destruct (packed_index cn) eqn:Hp.
      * by apply check_compact_strings_packed_Ok in Hchk as (_ & _ & ?).
      * intros Hne.
        by apply check_compact_strings_offsets_Ok in Hchk as (_ & ? & ?).
    + by apply check_plain_strings_Ok in Hchk as [_ ?].
  - destruct (compact_symlinks meta) as [cs|].
    + destruct (packed_index cs) eqn:Hp.
      * by apply check_compact_strings_packed_Ok in H as (_ & _ & ?).
      * intros Hne.
        by apply check_compact_strings_offsets_Ok in H as (_ & ? & ?).
    + by apply check_plain_strings_Ok in H as [_ ?].
Qed.

(** * Further properties of the reader's checks *)

(** ** Chunks and block size ([check_chunks]) *)

Lemma land_even_odd (a b : Z) : Z.land (2 * a) (2 * b + 1) = 2 * Z.land a b.
Proof.
  apply Z.bits_inj'. intros i Hi. rewrite Z.land_spec.
  destruct (Z.eq_dec i 0) as [->|Hne].
  - rewrite !Z.testbit_even_0. done.
  - replace i with (Z.succ (i - 1)) by lia.
    rewrite !Z.testbit_even_succ, Z.testbit_odd_succ by lia.
    by rewrite Z.land_spec.
Qed.

Lemma land_odd_even (a b : Z) : Z.land (2 * a + 1) (2 * b) = 2 * Z.land a b.
Proof. rewrite Z.land_comm, land_even_odd. by rewrite Z.land_comm. Qed.

(** The test [x & (x - 1)] of a positive number is zero only for the
    powers of two. *)
Lemma land_pred_zero_pow2 (p : positive) :
  Z.land (Z.pos p) (Z.pos p - 1) = 0 → ∃ k, 0 ≤ k ∧ Z.pos p = 2 ^ k.
Proof.
  induction p as [q IH | q IH |]; intros H.
  - exfalso. rewrite Pos2Z.inj_xI in H.
    replace (2 * Z.pos q + 1 - 1) with (2 * Z.pos q) in H by lia.
    rewrite land_odd_even, Z.land_diag in H. lia.
  - rewrite Pos2Z.inj_xO in H |- *.
    replace (2 * Z.pos q - 1) with (2 * (Z.pos q - 1) + 1) in H by lia.
    rewrite land_even_odd in H.
    destruct IH as (k & Hk & Hq); [lia|].
    exists (k + 1). split; [lia|]. rewrite Hq, Z.pow_add_r by lia. lia.
  - exists 0. split; [lia | done].
Qed.

(** X1. An accepted image has a block size that is a power of two, fewer
    than 2^32 - 1 chunks, and every chunk starts inside a block and ends
    inside the same block. The block size is a 32-bit value, offsets and
    sizes are not negative. *)
Theorem accepted_chunks_in_block (meta m : metadata) :
  check_metadata meta true = Ok m →
  0 ≤ block_size meta < 2 ^ 32 →
  (∃ k, 0 ≤ k < 32 ∧ block_size meta = 2 ^ k) ∧
  size (chunks meta) < UINT32_MAX ∧
  ∀ c, c ∈ chunks meta → 0 ≤ chunk_offset c → 0 ≤ chunk_size c →
    chunk_offset c < block_size meta ∧
    chunk_offset c + chunk_size c ≤ block_size meta.
Proof.
  intros H Hbs. apply check_metadata_Ok in H as (_ & _ & _ & _ & _ & H).
  unfold check_chunks in H. inv_check H. inv_check H.
  apply throw_if_Ok, orb_false_iff in Hchk as [Hz%Z.eqb_neq Hland].
  apply negb_false_iff, Z.eqb_eq in Hland.
  apply throw_if_Ok, Z.leb_gt in Hchk0.
  rewrite u32_small in Hland by lia.
  assert (∃ k, 0 ≤ k ∧ block_size meta = 2 ^ k) as (k & Hk & Hpow).
  { destruct (block_size meta) as [|p|p] eqn:Hb; [done | | lia].
    by apply land_pred_zero_pow2. }
  assert (k < 32) as Hk32.
  { destruct (decide (k < 32)) as [|Hge]; [done|].
    assert (2 ^ 32 ≤ 2 ^ k) by (apply Z.pow_le_mono_r; lia). lia. }
  assert (block_size meta ≤ 2 ^ 31) as Hbs31.
  { rewrite Hpow. apply Z.pow_le_mono_r; lia. }
  split; [by exists k|].
  split; [done|].
  intros c Hc Hoff Hsz. rewrite for_each_Ok in H. specialize (H c Hc).
  apply bind_Ok in H as ([] & Hrange & H).
  apply throw_if_Ok, orb_false_iff in Hrange as [Ho%Z.leb_gt Hs%Z.ltb_ge].
  apply throw_if_Ok, Z.ltb_ge in H.
  rewrite u32_small in H by lia. done.
Qed.

Lemma accepted_chunks_in_block_witness :
  check_metadata sample_image true = Ok sample_image ∧
  (∃ k, 0 ≤ k < 32 ∧ block_size sample_image = 2 ^ k) ∧
  ∀ c, c ∈ chunks sample_image → 0 ≤ chunk_offset c → 0 ≤ chunk_size c →
    chunk_offset c + chunk_size c ≤ 32768.
Proof.
  assert (check_metadata sample_image true = Ok sample_image) as Hacc
    by (vm_compute; reflexivity).
  split; [exact Hacc|].
  destruct (accepted_chunks_in_block sample_image sample_image Hacc)
    as (Hpow & _ & Hchunks).
  - vm_compute. split; [discriminate | reflexivity].
  - split; [exact Hpow|]. intros c Hc Ho Hs.
    by destruct (Hchunks c Hc Ho Hs).
Defined.

(** ** Unpacked directory tables ([check_packed_tables]) *)

Lemma is_sorted_by_first_entry (ds : list directory) :
  is_sorted_by (λ a b, first_entry a <? first_entry b) ds
  = is_sorted (first_entry <$> ds).
Proof.
  induction ds as [|d ds IH]; [done|].
  destruct ds as [|d' ds]; [done|].
  change (negb (first_entry d' <? first_entry d)
          && is_sorted_by (λ a b, first_entry a <? first_entry b) (d' :: ds)
          = negb (first_entry d' <? first_entry d)
            && is_sorted (first_entry <$> d' :: ds)).
  by rewrite IH.
Qed.

Lemma is_sorted_lookup (l : list Z) :
  is_sorted l = true →
  ∀ (i j : nat) x y, l !! i = Some x → l !! j = Some y → (i ≤ j)%nat → x ≤ y.
Proof.
  induction l as [|a l IH]; intros Hs i j x y Hi Hj Hij; [done|].
  destruct (is_sorted_cons_inv _ _ Hs) as [Hs' Ha].
  destruct i as [|i], j as [|j]; simpl in Hi, Hj.
  - injection Hi as <-. injection Hj as <-. lia.
  - injection Hi as <-. apply Ha. by eapply list_elem_of_lookup_2.
  - lia.
  - eapply (IH Hs' i j); eauto. lia.
Qed.

Lemma check_packed_tables_unpacked (meta : metadata) :
  check_packed_tables meta = Ok tt →
  option_set packed_directories meta = false →
  is_sorted (first_entry <$> directories meta) = true ∧
  ∀ d, d ∈ directories meta →
    first_entry d ≤ match dir_entries meta with
                    | Some de => size de
                    | None => size (inodes meta)
                    end ∧
    parent_entry d < match dir_entries meta with
                     | Some de => size de
                     | None => size (inodes meta)
                     end.
Proof.
  unfold check_packed_tables. intros H Hopt. rewrite Hopt in H.
  do 3 inv_check H. inv_check Hchk1.
  apply throw_if_Ok, negb_false_iff in Hchk2.
  rewrite is_sorted_by_first_entry in Hchk2. split; [done|].
  intros d Hd. rewrite for_each_Ok in Hchk1. specialize (Hchk1 d Hd).
  apply bind_Ok in Hchk1 as ([] & Hf & Hp).
  apply throw_if_Ok, Z.ltb_ge in Hf. apply throw_if_Ok, Z.leb_gt in Hp. done.
Qed.

(** X2. In an accepted image with an unpacked directories table, the
    first entries do not decrease along the table, and every entry a
    directory lists, [first_entry(p) .. first_entry(p+1)), is an index
    into [dir_entries]. First entries are not negative. *)
Theorem accepted_directory_ranges (meta m : metadata) (dep : list dir_entry) :
  check_metadata meta true = Ok m →
  option_set packed_directories meta = false →
  dir_entries meta = Some dep →
  (∀ d, d ∈ directories meta → 0 ≤ first_entry d) →
  (∀ p q, 0 ≤ p ≤ q → q < size (directories meta) →
     dir_first (directories meta) p ≤ dir_first (directories meta) q) ∧
  (∀ p e, 0 ≤ p → p + 1 < size (directories meta) →
     e ∈ entries_of (directories meta) p → ∃ de, at_ dep e = Ok de).
Proof.
  intros H Hopt Hdep Hpos.
  apply check_metadata_Ok in H as (_ & _ & _ & H & _).
  destruct (check_packed_tables_unpacked meta H Hopt) as [Hs Hb].
  rewrite Hdep in Hb.
  assert (∀ p, 0 ≤ p < size (directories meta) →
            ∃ d, directories meta !! Z.to_nat p = Some d ∧
                 dir_first (directories meta) p = first_entry d) as Hlook.
  { intros p Hp. unfold dir_first.
    destruct (lookup_lt_is_Some_2 (directories meta) (Z.to_nat p)) as [d Hd];
      [unfold size in Hp; lia|].
    exists d. by rewrite Hd. }
  split.
  - intros p q Hpq Hq.
    destruct (Hlook p ltac:(lia)) as (dp & Hdp & ->).
    destruct (Hlook q ltac:(lia)) as (dq & Hdq & ->).
    eapply (is_sorted_lookup _ Hs (Z.to_nat p) (Z.to_nat q)).
    + by rewrite list_lookup_fmap, Hdp.
    + by rewrite list_lookup_fmap, Hdq.
    + lia.
  - intros p e Hp Hp1 He. unfold entries_of in He.
    apply elem_of_seqZ in He.
    destruct (Hlook p ltac:(lia)) as (dp & Hdp & Hfp).
    destruct (Hlook (p + 1) ltac:(lia)) as (dq & Hdq & Hfq).
    rewrite Hfp, Hfq in He.
    assert (0 ≤ first_entry dp)
      by (eapply Hpos, list_elem_of_lookup_2, Hdp).
    destruct (Hb dq) as [Hle _]; [by eapply list_elem_of_lookup_2|].
    apply at_in_range. lia.
Qed.

Lemma accepted_directory_ranges_witness :
  check_metadata sample_image true = Ok sample_image ∧
  ∀ e, e ∈ entries_of (directories sample_image) 1 →
    ∃ de, at_ (sd_dir_entries sample_data) e = Ok de.
Proof.
  assert (check_metadata sample_image true = Ok sample_image) as Hacc
    by (vm_compute; reflexivity).
  split; [exact Hacc|].
  destruct (accepted_directory_ranges sample_image sample_image
              (sd_dir_entries sample_data) Hacc) as [_ Hin].
  - reflexivity.
  - reflexivity.
  - intros d Hd.
    repeat (apply elem_of_cons in Hd as [->|Hd]); [simpl; lia ..|].
    inversion Hd.
  - intros e He. apply (Hin 1 e); [lia | vm_compute; reflexivity | exact He].
Defined.

(** X3. In an accepted image with an unpacked directories table and a
    [dir_entries] table, [parent_inode()] succeeds for every row of the
    directories table and returns an inode number inside the inodes
    table. Parent entries are not negative. *)
Theorem accepted_parent_inode_total (g : global_metadata) (m : metadata)
    (d : Z) :
  check_metadata (meta_ g) true = Ok m →
  option_set packed_directories (meta_ g) = false →
  directories_storage_ g = [] →
  is_Some (dir_entries (meta_ g)) →
  (∀ x, x ∈ directories (meta_ g) → 0 ≤ parent_entry x) →
  0 ≤ d < size (directories (meta_ g)) →
  ∃ p, directory_view_parent_inode (mk_directory_view d g) = Ok p ∧
       p < size (inodes (meta_ g)).
Proof.
  intros H Hopt Hst [dep Hdep] Hpos Hd.
  pose proof H as (_ & He & Hi & Hp & _)%check_metadata_Ok.
  apply check_empty_tables_Ok in He as (Hino & _).
  destruct (check_packed_tables_unpacked _ Hp Hopt) as [_ Hb].
  rewrite Hdep in Hb.
  unfold directory_view_parent_inode, directory_view_parent_entry. simpl.
  destruct (d =? 0) eqn:Hd0.
  { exists 0. split; [done|]. unfold size.
    destruct (inodes (meta_ g)); [done | simpl; lia]. }
  unfold parent_dir_entry, directories_. rewrite Hst.
  destruct (at_in_range (directories (meta_ g)) d Hd) as [x Hx].
  rewrite Hx. simpl. rewrite Hdep.
  assert (x ∈ directories (meta_ g)) as Hin
    by (apply at_Ok in Hx; by eapply list_elem_of_lookup_2).
  destruct (Hb x Hin) as [_ Hlt]. specialize (Hpos x Hin).
  destruct (at_in_range dep (parent_entry x) ltac:(lia)) as [de Hde].
  rewrite Hde. simpl. exists (inode_num de). split; [done|].
  unfold check_index_range in Hi. do 6 inv_check Hi. rewrite Hdep in Hi.
  inv_check Hi. inv_bind Hi. rewrite for_each_Ok in Hi.
  assert (de ∈ dep) as Hdein
    by (apply at_Ok in Hde; by eapply list_elem_of_lookup_2).
  specialize (Hi de Hdein). apply bind_Ok in Hi as ([] & _ & Hi).
  by apply throw_if_Ok, Z.leb_gt in Hi.
Qed.

Lemma accepted_parent_inode_total_witness :
  let g := mk_global_metadata sample_image [] [] in
  ∃ p, directory_view_parent_inode (mk_directory_view 2 g) = Ok p ∧ p < 13.
Proof.
  intros g.
  apply (accepted_parent_inode_total g sample_image 2).
  - vm_compute. reflexivity.
  - reflexivity.
  - reflexivity.
  - eexists. reflexivity.
  - intros x Hx.
    repeat (apply elem_of_cons in Hx as [->|Hx]); [simpl; lia ..|].
    inversion Hx.
  - vm_compute. split; [discriminate | reflexivity].
Defined.

(** ** Inode numbers of the legacy layout ([check_metadata]) *)

(** X4. In an accepted image of the legacy v2.2 layout, the inode number
    stored in a row of the inodes table lies in the partition of the
    row's mode, [lo ≤ i < hi], or equals the start [lo] of that partition
    (which the check also lets through when the partition is empty). *)
Theorem accepted_legacy_inode_numbers (meta m : metadata) :
  check_metadata meta true = Ok m →
  dir_entries meta = None →
  ∃ offsets, check_partitioning meta = Ok offsets ∧
    ∀ ino, ino ∈ inodes meta →
      ∃ mode lo hi,
        at_ (modes meta) (mode_index ino) = Ok mode ∧
        at_ offsets (mode_rank mode) = Ok lo ∧
        at_ offsets (mode_rank mode + 1) = Ok hi ∧
        lo ≤ inode_v2_2 ino ∧
        (inode_v2_2 ino < hi ∨ inode_v2_2 ino = lo).
Proof.
  unfold check_metadata. intros H Hde. do 5 inv_check H.
  inv_bind H. rename a into offsets. exists offsets. split; [done|].
  inv_bind H. destruct a as [nu ns]. do 4 inv_bind H. do 5 inv_check H.
  rewrite Hde in Hchk8. rewrite for_each_Ok in Hchk8.
  intros ino Hino. specialize (Hchk8 ino Hino).
  apply bind_Ok in Hchk8 as (mode & Hmode & Hrest).
  apply bind_Ok in Hrest as (lo & Hlo & Hrest).
  apply bind_Ok in Hrest as (hi & Hhi & Hrest).
  apply throw_if_Ok, orb_false_iff in Hrest as [Hge%Z.ltb_ge Hand].
  exists mode, lo, hi. do 4 (split; [done|]).
  apply andb_false_iff in Hand as [?%Z.leb_gt | ?%Z.ltb_ge]; lia.
Qed.

Lemma accepted_legacy_inode_numbers_witness :
  check_metadata legacy_image true = Ok legacy_image ∧
  ∃ offsets, check_partitioning legacy_image = Ok offsets ∧
    offsets = [0; 1; 1; 2; 2; 2].
Proof.
  assert (check_metadata legacy_image true = Ok legacy_image) as Hacc
    by (vm_compute; reflexivity).
  split; [exact Hacc|].
  destruct (accepted_legacy_inode_numbers legacy_image legacy_image Hacc)
    as (offsets & Hoffs & _); [reflexivity|].
  exists offsets. split; [exact Hoffs|].
  vm_compute in Hoffs. injection Hoffs as <-. reflexivity.
Defined.

(** ** What [unpack_directories] returns on any image *)

Lemma fmap_first_entry_alter (parent : Z) (i : nat) (ds : list directory) :
  first_entry <$> alter (set_parent_entry parent) i ds = first_entry <$> ds.
Proof.
  revert i. induction ds as [|d ds IH]; intros [|i]; try done.
  - cbn. f_equal. apply IH.
Qed.

(** The inner loop keeps the first entries, only appends to the queue, and
    appends every visited entry that refers to a directory. *)
Lemma visit_entries_first (dirent : list dir_entry) (parent : Z)
    (es : list Z) :
  ∀ ds q ds' q',
    visit_entries dirent parent (ds, q) es = Ok (ds', q') →
    first_entry <$> ds' = first_entry <$> ds ∧
    (∀ x, x ∈ q → x ∈ q') ∧
    (∀ e de, e ∈ es → dirent !! Z.to_nat e = Some de →
       inode_num de < u64 (size ds - 1) → e ∈ q').
Proof.
  induction es as [|e es IH]; intros ds q ds' q' H; simpl in H.
  - injection H as <- <-. split; [done|]. split; [done|].
    intros e de He. inversion He.
  - apply bind_Ok in H as ([ds1 q1] & Hstep & H).
    apply IH in H as (Hfirst & Hq & Hes).
    unfold visit_entry in Hstep.
    apply bind_Ok in Hstep as (de & Hde%at_Ok & Hstep).
    destruct (inode_num de <? u64 (size ds - 1)) eqn:Hlt;
      injection Hstep as <- <-.
    + rewrite fmap_first_entry_alter in Hfirst.
      assert (size (alter (set_parent_entry parent) (Z.to_nat (inode_num de)) ds)
              = size ds) as Hsz by (unfold size; by rewrite length_alter).
      rewrite Hsz in Hes.
      split; [done|]. split.
      * intros x Hx. apply Hq, elem_of_app. by left.
      * intros e' de' [->|He']%elem_of_cons Hde' Hlt'.
        -- apply Hq, elem_of_app. right. by apply list_elem_of_singleton.
        -- by eapply Hes.
    + split; [done|]. split; [done|].
      intros e' de' [->|He']%elem_of_cons Hde' Hlt'.
      * rewrite Hde in Hde'. injection Hde' as <-.
        apply Z.ltb_ge in Hlt. lia.
      * by eapply Hes.
Qed.

Lemma recover_parent_entries_first (dirent : list dir_entry) (fuel : nat) :
  ∀ queue ds ds',
    recover_parent_entries fuel dirent queue ds = Ok ds' →
    first_entry <$> ds' = first_entry <$> ds.
Proof.
  induction fuel as [|fuel IH]; intros [|parent queue] ds ds' H;
    simpl in H; try by injection H as <-. 
  - discriminate.
  - apply bind_Ok in H as (pde & _ & H).
    apply bind_Ok in H as (dbeg & _ & H).
    apply bind_Ok in H as (dend & _ & H).
    apply bind_Ok in H as ([ds1 q1] & Hvisit & H).
    apply visit_entries_first in Hvisit as (Hfirst & _).
    apply IH in H. congruence.
Qed.

Lemma unpack_first_entries_sums (prev : Z) (metadir : list directory) :
  first_entry <$> unpack_first_entries prev metadir
  = running_sums prev (first_entry <$> metadir).
Proof.
  revert prev. induction metadir as [|d rest IH]; intros prev; simpl;
    [done|]. by rewrite IH.
Qed.

Lemma length_running_sums (acc : Z) (l : list Z) :
  length (running_sums acc l) = length l.
Proof. revert acc. induction l; intros; simpl; [done | by f_equal]. Qed.

(** X5. For an image without packed directories, [unpack_directories]
    returns an empty vector, with no step of the traversal. For a packed
    image, a vector it returns has as many rows as the stored table, and
    its first entries are the running 32-bit sums of the stored deltas:
    the traversal that follows the decoding writes parent entries only. *)
Theorem unpack_directories_first_entries (fuel : nat) (meta : metadata) :
  (option_set packed_directories meta = false →
     unpack_directories fuel meta = Ok []) ∧
  (option_set packed_directories meta = true →
     ∀ ds, unpack_directories fuel meta = Ok ds →
       first_entry <$> ds = decoded_first_entries (directories meta) ∧
       size ds = size (directories meta)).
Proof.
  unfold unpack_directories. split; intros ->; [done|]. intros ds H.
  apply bind_Ok in H as (dirent & _ & H).
  destruct (directories meta) as [|d0 metadir]; [discriminate|].
  apply recover_parent_entries_first in H.
  cbn [fmap list_fmap first_entry] in H.
  rewrite unpack_first_entries_sums in H.
  split; [exact H|].
  apply (f_equal length) in H. rewrite length_fmap in H.
  unfold size. rewrite H. simpl.
  by rewrite length_running_sums, length_fmap.
Qed.

Lemma unpack_directories_first_entries_witness :
  unpack_directories 0 sample_image = Ok [] ∧
  unpack_directories 3 sample_packed_image = Ok (directories sample_image) ∧
  first_entry <$> directories sample_image
  = decoded_first_entries (directories sample_packed_image).
Proof.
  assert (unpack_directories 3 sample_packed_image
          = Ok (directories sample_image)) as H by (vm_compute; reflexivity).
  split.
  - apply (proj1 (unpack_directories_first_entries 0 sample_image)).
    reflexivity.
  - split; [exact H|].
    apply (proj2 (unpack_directories_first_entries 3 sample_packed_image));
      [reflexivity | exact H].
Defined.

(** ** A packed image on which the traversal does not end *)

Lemma recover_parent_entries_cycle (dirent : list dir_entry) (f0 f1 e : Z)
    (F : list Z) (de0 de : dir_entry) :
  dirent !! 0%nat = Some de0 → inode_num de0 = 0 →
  f0 ≤ e < f1 → 0 ≤ e →
  dirent !! Z.to_nat e = Some de → inode_num de = 0 →
  size F < 2 ^ 32 →
  ∀ fuel queue ds x dx,
    first_entry <$> ds = f0 :: f1 :: F →
    x ∈ queue → 0 ≤ x → dirent !! Z.to_nat x = Some dx → inode_num dx = 0 →
    is_ok (recover_parent_entries fuel dirent queue ds) = false.
Proof.
  intros Hde0 Hino0 He He0 Hde Hino HF.
  induction fuel as [|fuel IH]; intros queue ds x dx Hds Hx Hx0 Hdx Hinox;
    (destruct queue as [|parent queue]; [inversion Hx|]); [done|].
  rewrite recover_parent_entries_step.
  destruct (at_ dirent parent) as [pde|] eqn:Hpde; [|done].
  cbv beta iota zeta delta [mbind result_bind].
  destruct (at_ ds (inode_num pde)) as [dbeg|] eqn:Hbeg; [|done].
  destruct (at_ ds (u32 (inode_num pde + 1))) as [dend|] eqn:Hend; [|done].
  destruct (visit_entries dirent parent (ds, queue)
              (seqZ (first_entry dbeg) (first_entry dend - first_entry dbeg)))
    as [[ds' q']|] eqn:Hvisit; [|done].
  apply visit_entries_first in Hvisit as (Hfirst & Hq & Hes).
  rewrite Hds in Hfirst.
  destruct (decide (inode_num pde = 0)) as [Hp0|Hp0].
  - (* the directory taken from the queue is the root: [e] is queued again *)
    rewrite Hp0 in Hbeg, Hend. change (u32 (0 + 1)) with 1 in Hend.
    destruct ds as [|a [|b ds0]]; try discriminate.
    injection Hds as Ha Hb HF0.
    apply at_Ok in Hbeg, Hend. simpl in Hbeg, Hend.
    injection Hbeg as <-. injection Hend as <-.
    apply (IH q' ds' e de); try done.
    apply (Hes e de); [|done|].
    + apply elem_of_seqZ. lia.
    + rewrite Hino. apply (f_equal length) in HF0.
      rewrite length_fmap in HF0.
      assert (size (a :: b :: ds0) - 1 = 1 + size F) as ->.
      { unfold size in *. simpl. lia. }
      pose proof (size_nonneg F). rewrite u64_small; lia.
  - (* another directory: the entry of the root stays in the queue *)
    apply (IH q' ds' x dx); try done.
    apply Hq. apply elem_of_cons in Hx as [->|Hx]; [|done].
    apply at_Ok in Hpde. congruence.
Qed.

(** X6. The traversal of [unpack_directories] has no visited set: on a
    packed image in which the root directory lists an entry that refers
    to the root again (inode 0), the queue never empties, so the function
    returns no table, with whatever number of steps, and neither does
    the constructor of [global_metadata] return a view, with or without
    the consistency check. *)
Theorem unpack_directories_cycle (meta : metadata) (dirent : list dir_entry)
    (d0 d1 : directory) (rest : list directory) (de0 de : dir_entry) (e : Z) :
  option_set packed_directories meta = true →
  dir_entries meta = Some dirent →
  directories meta = d0 :: d1 :: rest →
  size rest < 2 ^ 32 →
  dirent !! 0%nat = Some de0 → inode_num de0 = 0 →
  0 ≤ first_entry d0 ≤ e →
  e < u32 (first_entry d0 + first_entry d1) →
  dirent !! Z.to_nat e = Some de → inode_num de = 0 →
  ∀ fuel,
    is_ok (unpack_directories fuel meta) = false ∧
    ∀ string_table_new check_consistency,
      is_ok (global_metadata_new string_table_new fuel meta check_consistency)
      = false.
Proof.
  intros Hopt Hdirent Hdirs Hsz Hde0 Hino0 He Hlt Hde Hino fuel.
  assert (is_ok (unpack_directories fuel meta) = false) as Hunpack; last first.
  { split; [exact Hunpack|]. intros stn check. unfold global_metadata_new.
    destruct (check_metadata meta check) as [m|] eqn:Hcheck; [|done].
    assert (m = meta) as ->.
    { destruct check; [by apply check_metadata_Ok in Hcheck as [-> _]|].
      by injection Hcheck as <-. }
    cbv beta iota zeta delta [mbind result_bind].
    by destruct (unpack_directories fuel meta). }
  unfold unpack_directories. rewrite Hopt, Hdirent, Hdirs.
  cbv beta iota zeta delta [mbind result_bind from_option].
  apply (recover_parent_entries_cycle dirent (first_entry d0)
           (u32 (first_entry d0 + first_entry d1)) e
           (running_sums (u32 (first_entry d0 + first_entry d1))
              (first_entry <$> rest)) de0 de) with (x := 0) (dx := de0);
    try done; try lia.
  - unfold size. rewrite length_running_sums, length_fmap. exact Hsz.
  - cbn [fmap list_fmap first_entry unpack_first_entries].
    by rewrite unpack_first_entries_sums.
  - by left.
Qed.

Lemma unpack_directories_cycle_witness :
  check_metadata cyclic_image true = Ok cyclic_image ∧
  ∀ fuel,
    is_ok (unpack_directories fuel cyclic_image) = false ∧
    ∀ string_table_new check_consistency,
      is_ok (global_metadata_new string_table_new fuel cyclic_image
               check_consistency) = false.
Proof.
  split; [vm_compute; reflexivity|].
  apply (unpack_directories_cycle cyclic_image
           [mk_dir_entry 0 0; mk_dir_entry 0 0]
           (mk_directory 0 1) (mk_directory 0 1) []
           (mk_dir_entry 0 0) (mk_dir_entry 0 0) 1).
  - reflexivity.
  - reflexivity.
  - reflexivity.
  - reflexivity.
  - reflexivity.
  - reflexivity.
  - simpl. lia.
  - reflexivity.
  - reflexivity.
  - reflexivity.
Defined.

(** * Further properties of the builder's tables *)

(** ** Edge cases of [pack_shared_files] *)

Lemma is_sorted_cons_intro (x : Z) (l : list Z) :
  is_sorted l = true → (∀ y, y ∈ l → x ≤ y) → is_sorted (x :: l) = true.
Proof.
  destruct l as [|y l]; intros Hs Hx; [done|].
  rewrite is_sorted_cons_cons, Hs, andb_true_r.
  apply Z.leb_le, Hx. by left.
Qed.

Lemma is_sorted_app (l1 l2 : list Z) :
  is_sorted l1 = true → is_sorted l2 = true →
  (∀ x y, x ∈ l1 → y ∈ l2 → x ≤ y) →
  is_sorted (l1 ++ l2) = true.
Proof.
  induction l1 as [|x l1 IH]; intros H1 H2 Hle; [done|].
  destruct (is_sorted_cons_inv _ _ H1) as [H1' Hx].
  simpl. apply is_sorted_cons_intro.
  - apply IH; [done | done |]. intros a b Ha Hb. apply Hle; [by right | done].
  - intros y [Hy|Hy]%elem_of_app; [by apply Hx|].
    apply Hle; [by left | done].
Qed.

Lemma is_sorted_replicate (n : nat) (x : Z) :
  is_sorted (replicate n x) = true.
Proof.
  induction n as [|n IH]; [done|]. simpl. apply is_sorted_cons_intro; [done|].
  intros y [-> _]%elem_of_replicate. lia.
Qed.

Lemma is_sorted_runs_from (cs : list Z) :
  ∀ index, is_sorted (runs_from index cs) = true.
Proof.
  induction cs as [|c cs IH]; intros index; [done|].
  simpl. apply is_sorted_app; [apply is_sorted_replicate | apply IH |].
  intros x y [-> _]%elem_of_replicate Hy%runs_from_ge. lia.
Qed.

Lemma runs_from_lt (cs : list Z) :
  ∀ index x, x ∈ runs_from index cs → x < index + size cs.
Proof.
  induction cs as [|c cs IH]; intros index x Hx; [inversion Hx|].
  rewrite size_cons. pose proof (size_nonneg cs).
  simpl in Hx. apply elem_of_app in Hx as [Hx|Hx].
  - apply elem_of_replicate in Hx as [-> _]. lia.
  - apply IH in Hx. lia.
Qed.

Lemma pack_shared_loop_app (l1 l2 : list Z) :
  ∀ st, pack_shared_loop st (l1 ++ l2)
        = pack_shared_loop st l1 ≫= λ st', pack_shared_loop st' l2.
Proof.
  induction l1 as [|x l1 IH]; intros st; [done|].
  simpl. destruct (pack_shared_step st x) as [st'|e]; [apply IH | done].
Qed.

(** The number of items of a vector of runs. *)
Lemma size_runs_from_eq (cs : list Z) :
  ∀ index, (∀ c, c ∈ cs → 0 ≤ c) →
    size (runs_from index cs) = foldr Z.add 0 cs + 2 * size cs.
Proof.
  induction cs as [|c cs IH]; intros index Hpos; [done|].
  assert (0 ≤ c) by (apply Hpos; by left).
  simpl. rewrite size_app, size_cons, size_replicate, (IH (index + 1));
    [lia | intros; apply Hpos; by right].
Qed.

(** The loop over a vector of runs: where it stands after the last run. *)
Lemma pack_shared_loop_runs_state (cs : list Z) :
  ∀ index count comp,
    2 ≤ count < 2 ^ 32 → 0 ≤ index → index + size cs < 2 ^ 32 →
    (∀ c, c ∈ cs → 0 ≤ c ∧ c + 2 < 2 ^ 32) →
    ∃ count' comp',
      pack_shared_loop (count, index, comp) (runs_from (index + 1) cs)
        = Ok (count', index + size cs, comp') ∧
      2 ≤ count' < 2 ^ 32 ∧
      comp' ++ [count' - 2] = comp ++ (count - 2) :: cs.
Proof.
  induction cs as [|c cs IH]; intros index count comp Hcount Hindex Hb Hcs.
  - exists count, comp. unfold size. simpl. rewrite Z.add_0_r. done.
  - destruct (Hcs c) as [Hc0 Hc2]; [by left|].
    rewrite size_cons in Hb. pose proof (size_nonneg cs).
    simpl runs_from.
    replace (Z.to_nat (c + 2)) with (S (Z.to_nat (c + 1))) by lia.
    rewrite replicate_S. simpl app. simpl pack_shared_loop.
    assert ((index + 1 =? index) = false) as -> by (apply Z.eqb_neq; lia).
    rewrite (u32_small (index + 1)) by lia. rewrite Z.eqb_refl.
    assert ((2 <=? count) = true) as -> by (apply Z.leb_le; lia).
    simpl. rewrite pack_shared_loop_run by lia.
    destruct (IH (index + 1) (1 + Z.of_nat (Z.to_nat (c + 1)))
                 (comp ++ [u32 (count - 2)]))
      as (count' & comp' & Hloop & Hcount' & Hcomp);
      [lia | lia | lia | intros; apply Hcs; by right |].
    exists count', comp'. rewrite size_cons.
    replace (index + (1 + size cs)) with (index + 1 + size cs) by lia.
    split; [done|]. split; [done|].
    rewrite Hcomp, <- app_assoc. simpl. rewrite u32_small by lia.
    do 3 f_equal. lia.
Qed.

(** The loop over a vector of runs of 0, 1, ..., from the start. *)
Lemma pack_shared_loop_start (c0 : Z) (cs : list Z) :
  (∀ c, c ∈ c0 :: cs → 0 ≤ c) →
  size (runs_from 0 (c0 :: cs)) < 2 ^ 32 →
  ∃ count' comp',
    pack_shared_loop (0, 0, []) (runs_from 0 (c0 :: cs))
      = Ok (count', size cs, comp') ∧
    2 ≤ count' < 2 ^ 32 ∧
    comp' ++ [count' - 2] = c0 :: cs.
Proof.
  intros Hpos Hsize.
  destruct (size_runs_from (c0 :: cs) 0 Hpos) as [Hlen Hc].
  rewrite size_cons in Hlen. pose proof (size_nonneg cs).
  assert (0 ≤ c0 ∧ c0 + 2 ≤ size (runs_from 0 (c0 :: cs))) as [Hc0 Hc0'].
  { split; [apply Hpos | apply Hc]; by left. }
  simpl runs_from. rewrite (pack_shared_loop_run _ 0 0 []) by lia.
  destruct (pack_shared_loop_runs_state cs 0
              (0 + Z.of_nat (Z.to_nat (c0 + 2))) [])
    as (count' & comp' & Hloop & Hcount' & Hcomp).
  - lia.
  - lia.
  - lia.
  - intros c Hc'. split; [apply Hpos; by right|].
    assert (c + 2 ≤ size (runs_from 0 (c0 :: cs))) by (apply Hc; by right).
    lia.
  - exists count', comp'. simpl in Hloop. rewrite Hloop.
    split; [done|]. split; [done|]. rewrite Hcomp. simpl. f_equal. lia.
Qed.

(** Packing a vector of runs of at least two gives the run lengths less
    two. *)
Lemma pack_shared_files_runs (cs : list Z) :
  (∀ c, c ∈ cs → 0 ≤ c) →
  size (runs_from 0 cs) < 2 ^ 32 →
  pack_shared_files (runs_from 0 cs) = Ok cs.
Proof.
  intros Hpos Hsize. destruct cs as [|c0 cs]; [done|].
  destruct (pack_shared_loop_start c0 cs Hpos Hsize)
    as (count' & comp' & Hloop & Hcount' & Hcomp).
  destruct (size_runs_from (c0 :: cs) 0 Hpos) as [Hlen _].
  rewrite size_cons in Hlen. pose proof (size_nonneg cs).
  unfold pack_shared_files.
  rewrite last_runs_from, is_sorted_runs_from, Hloop by done.
  cbv beta iota zeta delta [mbind result_bind DWARFS_CHECK].
  rewrite (u32_small (count' - 2)) by lia. rewrite Hcomp, size_cons.
  replace (0 + (1 + size cs) - 1 + 1) with (1 + size cs) by lia.
  rewrite u32_small by lia. by rewrite Z.eqb_refl.
Qed.

(** X7. The last run is not checked. A vector of runs of at least two
    of 0, 1, ..., [k - 1] followed by the single item [k] is packed
    without an error, and the entry stored for [k] is [1 - 2] in 32 bits,
    that is [2^32 - 1]. *)
Theorem pack_shared_files_single_last (cs : list Z) :
  (∀ c, c ∈ cs → 0 ≤ c) →
  size (runs_from 0 cs) + 1 < 2 ^ 32 →
  pack_shared_files (runs_from 0 cs ++ [size cs]) = Ok (cs ++ [UINT32_MAX]).
Proof.
  intros Hpos Hsize. pose proof (size_nonneg cs) as Hcs0.
  destruct (size_runs_from cs 0 Hpos) as [Hlen _].
  unfold pack_shared_files. rewrite last_snoc.
  rewrite is_sorted_app;
    [| apply is_sorted_runs_from | done
     | intros x y Hx%runs_from_lt ->%list_elem_of_singleton; lia].
  cbv beta iota zeta delta [mbind result_bind DWARFS_CHECK].
  change (result_bind _ _ ?f ?m) with (m ≫= f).
  rewrite pack_shared_loop_app.
  destruct cs as [|c0 cs].
  - reflexivity.
  - destruct (pack_shared_loop_start c0 cs Hpos ltac:(lia))
      as (count' & comp' & Hloop & Hcount' & Hcomp).
    rewrite size_cons in *. pose proof (size_nonneg cs).
    rewrite Hloop.
    cbv beta iota zeta delta [mbind result_bind pack_shared_loop pack_shared_step
                         DWARFS_CHECK].
    assert ((1 + size cs =? size cs) = false) as -> by (apply Z.eqb_neq; lia).
    rewrite (u32_small (size cs + 1)) by lia.
    assert ((1 + size cs =? size cs + 1) = true) as -> by (apply Z.eqb_eq; lia).
    assert ((2 <=? count') = true) as -> by (apply Z.leb_le; lia).
    rewrite (u32_small (count' - 2)) by lia. rewrite Hcomp.
    rewrite !size_app, !size_cons.
    change (size (@nil Z)) with 0.
    rewrite (u32_small (1 + size cs + 1)) by lia.
    assert ((1 + size cs + (1 + 0) =? 1 + size cs + 1) = true) as ->
      by (apply Z.eqb_eq; lia).
    reflexivity.
Qed.

Lemma pack_shared_files_single_last_witness :
  pack_shared_files [0; 0; 0; 1; 1; 2] = Ok [1; 0; 4294967295].
Proof.
  apply (pack_shared_files_single_last [1; 0]).
  - intros c Hc.
    repeat (apply elem_of_cons in Hc as [->|Hc]); try lia. inversion Hc.
  - vm_compute. reflexivity.
Defined.

(** X8. A single item before the last run is refused. A sorted vector
    that consists of runs of at least two of 0, ..., [k - 1], then the
    single item [k], then [k + 1] and whatever follows, fails the check
    "unique file in shared files vector". *)
Theorem pack_shared_files_single_inner (cs rest : list Z) :
  (∀ x, x ∈ cs → 0 ≤ x) →
  size (runs_from 0 cs) + 2 < 2 ^ 32 →
  is_sorted (runs_from 0 cs ++ size cs :: (size cs + 1) :: rest) = true →
  pack_shared_files (runs_from 0 cs ++ size cs :: (size cs + 1) :: rest)
  = Err (CheckFailed "unique file in shared files vector").
Proof.
  intros Hpos Hsize Hsorted. pose proof (size_nonneg cs) as Hcs0.
  destruct (size_runs_from cs 0 Hpos) as [Hlen _].
  unfold pack_shared_files. rewrite Hsorted.
  destruct (list.last (runs_from 0 cs ++ size cs :: (size cs + 1) :: rest))
    as [b|] eqn:Hlast.
  2: { apply last_None in Hlast. by destruct (runs_from 0 cs). }
  cbv beta iota zeta delta [mbind result_bind DWARFS_CHECK].
  change (result_bind _ _ ?f ?m) with (m ≫= f).
  rewrite pack_shared_loop_app.
  assert (∃ count index comp,
            pack_shared_loop (0, 0, []) (runs_from 0 cs)
              = Ok (count, index, comp) ∧
            (index = size cs ∧ count = 0 ∨ index = size cs - 1 ∧ 2 ≤ count)
            ∧ 0 ≤ index)
    as (count & index & comp & -> & Hstate & Hindex).
  { destruct cs as [|c0 cs].
    - exists 0, 0, []. split; [done|]. split; [by left | done].
    - destruct (pack_shared_loop_start c0 cs Hpos ltac:(lia))
        as (count' & comp' & Hloop & Hcount' & Hcomp).
      exists count', (size cs), comp'. rewrite size_cons.
      pose proof (size_nonneg cs).
      split; [done|]. split; [right; lia | done]. }
  cbv beta iota zeta delta [mbind result_bind pack_shared_loop].
  destruct Hstate as [[-> ->] | [-> Hcount]].
  - unfold pack_shared_step at 1. rewrite Z.eqb_refl.
    change (u32 (0 + 1)) with 1.
    cbv beta iota zeta delta [pack_shared_step mbind result_bind DWARFS_CHECK].
    assert ((size cs + 1 =? size cs) = false) as -> by (apply Z.eqb_neq; lia).
    rewrite (u32_small (size cs + 1)) by lia. by rewrite Z.eqb_refl.
  - unfold pack_shared_step at 1.
    assert ((size cs =? size cs - 1) = false) as -> by (apply Z.eqb_neq; lia).
    replace (size cs - 1 + 1) with (size cs) by lia.
    rewrite (u32_small (size cs)) by lia. rewrite Z.eqb_refl.
    assert ((2 <=? count) = true) as -> by (apply Z.leb_le; lia).
    cbv beta iota zeta delta [pack_shared_step mbind result_bind DWARFS_CHECK].
    assert ((size cs + 1 =? size cs) = false) as -> by (apply Z.eqb_neq; lia).
    rewrite (u32_small (size cs + 1)) by lia. by rewrite Z.eqb_refl.
Qed.

Lemma pack_shared_files_single_inner_witness :
  pack_shared_files [0; 0; 1; 2; 2]
  = Err (CheckFailed "unique file in shared files vector").
Proof.
  apply (pack_shared_files_single_inner [0] [2]).
  - intros c Hc.
    repeat (apply elem_of_cons in Hc as [->|Hc]); try lia. inversion Hc.
  - vm_compute. reflexivity.
  - reflexivity.
Defined.

(** X9. A skipped value is refused. A sorted vector that consists of runs
    of at least two of 0, ..., [k - 1] (with [k ≥ 1]) followed by an item
    greater than [k] fails the check "inconsistent shared files
    vector". *)
Theorem pack_shared_files_gap (c0 : Z) (cs : list Z) (x : Z) (rest : list Z) :
  (∀ c, c ∈ c0 :: cs → 0 ≤ c) →
  size (runs_from 0 (c0 :: cs)) < 2 ^ 32 →
  size (c0 :: cs) < x →
  is_sorted (runs_from 0 (c0 :: cs) ++ x :: rest) = true →
  pack_shared_files (runs_from 0 (c0 :: cs) ++ x :: rest)
  = Err (CheckFailed "inconsistent shared files vector").
Proof.
  intros Hpos Hsize Hx Hsorted.
  destruct (size_runs_from (c0 :: cs) 0 Hpos) as [Hlen _].
  rewrite size_cons in Hlen, Hx. pose proof (size_nonneg cs).
  unfold pack_shared_files. rewrite Hsorted.
  destruct (list.last (runs_from 0 (c0 :: cs) ++ x :: rest)) as [b|] eqn:Hlast.
  2: { apply last_None in Hlast. by destruct (runs_from 0 (c0 :: cs)). }
  cbv beta iota zeta delta [mbind result_bind DWARFS_CHECK].
  change (result_bind _ _ ?f ?m) with (m ≫= f).
  rewrite pack_shared_loop_app.
  destruct (pack_shared_loop_start c0 cs Hpos Hsize)
    as (count' & comp' & -> & Hcount' & Hcomp).
  cbv beta iota zeta delta [mbind result_bind pack_shared_loop].
  unfold pack_shared_step at 1.
  assert ((x =? size cs) = false) as -> by (apply Z.eqb_neq; lia).
  rewrite (u32_small (size cs + 1)) by lia.
  assert ((x =? size cs + 1) = false) as -> by (apply Z.eqb_neq; lia).
  reflexivity.
Qed.

Lemma pack_shared_files_gap_witness :
  pack_shared_files [0; 0; 2; 2]
  = Err (CheckFailed "inconsistent shared files vector").
Proof.
  apply (pack_shared_files_gap 0 [] 2 [2]).
  - intros c Hc.
    repeat (apply elem_of_cons in Hc as [->|Hc]); try lia. inversion Hc.
  - vm_compute. reflexivity.
  - vm_compute. reflexivity.
  - reflexivity.
Defined.

(** ** The file counts of the reader on a built image *)

Lemma u64_idemp (z : Z) : u64 (u64 z) = u64 z.
Proof. unfold u64, wrap. by rewrite Z.mod_mod. Qed.

Lemma u64_range (z : Z) : 0 ≤ u64 z < 2 ^ 64.
Proof. unfold u64, wrap. apply Z.mod_pos_bound. lia. Qed.

Lemma size_adjacent_difference (l : list Z) :
  size (adjacent_difference l) = size l.
Proof.
  destruct l as [|x l]; [done|]. unfold size. simpl. do 2 f_equal.
  revert x. induction l as [|y l IH]; intros x; simpl; [done | by f_equal].
Qed.

Lemma accumulate_run_lengths (cs : list Z) :
  ∀ init, 0 ≤ init → (∀ c, c ∈ cs → 0 ≤ c) →
    init + foldr Z.add 0 cs < 2 ^ 64 →
    accumulate (λ n c, u64 (n + c)) init cs = init + foldr Z.add 0 cs.
Proof.
  unfold accumulate.
  induction cs as [|c cs IH]; intros init Hinit Hpos Hb; simpl; [lia|].
  assert (0 ≤ c) by (apply Hpos; by left).
  assert (0 ≤ foldr Z.add 0 cs).
  { clear -Hpos. induction cs as [|x cs IH]; simpl; [lia|].
    assert (0 ≤ x) by (apply Hpos; right; by left).
    assert (0 ≤ foldr Z.add 0 cs); [|lia].
    apply IH. intros y [->|Hy]%elem_of_cons; apply Hpos;
      [by left | right; by right]. }
  simpl in Hb. rewrite u64_small by lia.
  rewrite IH; [lia | lia | intros; apply Hpos; by right | lia].
Qed.

(** The counts the reader derives from a built image, whether the
    shared-files table is packed or not. *)
Lemma num_reg_files_built (PRJ_GIT_ID : string)
    (string_table_pack : bool → list string → string_table)
    (opts : scanner_options) (now : Z) (sd : scan_data) (m : metadata)
    (cs : list Z) :
  sd_shared_files sd = runs_from 0 cs →
  (∀ c, c ∈ cs → 0 ≤ c) →
  size (runs_from 0 cs) < 2 ^ 32 →
  scan_metadata PRJ_GIT_ID string_table_pack opts now sd = Ok m →
  ∃ ct chunks,
    save_chunks (sd_file_inodes sd) = Ok (ct, chunks) ∧
    num_reg_files m
    = Ok (u64 (u64 (size ct - 1) - size cs), size (runs_from 0 cs)).
Proof.
  intros Hv Hpos Hsize H. unfold scan_metadata in H.
  apply bind_Ok in H as ([ct chunks] & Hsave & H).
  exists ct, chunks. split; [done|].
  apply bind_Ok in H as (shared & Hshared & H). injection H as <-.
  unfold num_reg_files.
  cbn [shared_files_table options chunk_table from_option
       packed_shared_files_table].
  cbv beta iota zeta delta [mbind result_bind].
  assert (size (if pack_chunk_table opts then adjacent_difference ct else ct)
          = size ct) as ->.
  { destruct (pack_chunk_table opts); [apply size_adjacent_difference|done]. }
  destruct (size_runs_from cs 0 Hpos) as [Hlen _].
  pose proof (size_nonneg cs) as Hcs0.
  rewrite Hv in Hshared.
  destruct (pack_shared_files_table opts).
  - rewrite pack_shared_files_runs in Hshared by done.
    injection Hshared as <-. do 2 f_equal.
    rewrite accumulate_run_lengths.
    + rewrite u64_small by lia. rewrite size_runs_from_eq by done. lia.
    + apply u64_range.
    + done.
    + rewrite u64_small by lia.
      pose proof (size_runs_from_eq cs 0 Hpos). lia.
  - injection Hshared as <-. rewrite is_sorted_runs_from.
    cbv beta iota zeta delta [negb throw_if].
    destruct cs as [|c0 cs].
    + simpl. rewrite Z.sub_0_r. by rewrite u64_idemp.
    + rewrite last_runs_from by done.
      replace (0 + size (c0 :: cs) - 1 + 1) with (size (c0 :: cs)) by lia.
      by rewrite (u32_small (size (c0 :: cs))) by lia.
Qed.

(** X10. The reader counts the same regular files whether the builder
    packed the shared-files table or not. For a shared-files vector that
    is non-decreasing, with each of 0..max at least twice and fewer than
    2^32 items, any two images built from the same scan, with whatever
    options, give the same numbers of unique and shared files in
    [check_metadata], and the number of shared files is the size of the
    vector. *)
Theorem built_images_agree_on_file_counts (PRJ_GIT_ID : string)
    (string_table_pack : bool → list string → string_table)
    (opts1 opts2 : scanner_options) (now1 now2 : Z) (sd : scan_data)
    (m1 m2 : metadata) :
  is_sorted (sd_shared_files sd) = true →
  (∀ x, x ∈ sd_shared_files sd → 0 ≤ x) →
  (∀ x, x ∈ sd_shared_files sd → ∀ k, 0 ≤ k ≤ x →
     2 ≤ count_of k (sd_shared_files sd)) →
  size (sd_shared_files sd) < 2 ^ 32 →
  scan_metadata PRJ_GIT_ID string_table_pack opts1 now1 sd = Ok m1 →
  scan_metadata PRJ_GIT_ID string_table_pack opts2 now2 sd = Ok m2 →
  num_reg_files m1 = num_reg_files m2 ∧
  ∃ unique, num_reg_files m1 = Ok (unique, size (sd_shared_files sd)).
Proof.
  intros Hs Hpos Hcount Hsize H1 H2.
  destruct (shared_files_runs (length (sd_shared_files sd))
              (sd_shared_files sd) 0) as (cs & Hv & Hcs);
    [lia | done | done | done |].
  rewrite Hv in Hsize.
  destruct (num_reg_files_built _ _ _ _ _ _ cs Hv Hcs Hsize H1)
    as (ct & chunks & Hsave & ->).
  destruct (num_reg_files_built _ _ _ _ _ _ cs Hv Hcs Hsize H2)
    as (ct' & chunks' & Hsave' & ->).
  rewrite Hsave in Hsave'. injection Hsave' as <- <-.
  split; [done|]. rewrite Hv. by eexists.
Qed.

Lemma built_images_agree_on_file_counts_witness :
  sample_scan plain_options 1600000000 = Ok sample_image ∧
  sample_scan packed_options 1600000000 = Ok sample_packed_image ∧
  shared_files_table sample_image = Some [0; 0] ∧
  shared_files_table sample_packed_image = Some [0] ∧
  num_reg_files sample_image = num_reg_files sample_packed_image.
Proof.
  assert (sample_scan plain_options 1600000000 = Ok sample_image) as H1
    by (vm_compute; reflexivity).
  assert (sample_scan packed_options 1600000000 = Ok sample_packed_image)
    as H2 by (vm_compute; reflexivity).
  split; [exact H1|]. split; [exact H2|].
  split; [reflexivity|]. split; [reflexivity|].
  refine (proj1 (built_images_agree_on_file_counts "v0.5"
                   sample_string_table_pack plain_options packed_options
                   1600000000 1600000000 sample_data sample_image
                   sample_packed_image _ _ _ _ H1 H2)).
  - reflexivity.
  - intros x Hx.
    repeat (apply elem_of_cons in Hx as [->|Hx]); try lia. inversion Hx.
  - intros x Hx k Hk.
    assert (k = 0) as ->.
    { repeat (apply elem_of_cons in Hx as [->|Hx]); try lia. inversion Hx. }
    vm_compute. discriminate.
  - reflexivity.
Defined.

(** ** A built image passes [check_packed_tables] *)

Lemma first_entry_pack_directories_loop (ds : list directory) :
  ∀ prev, first_entry <$> pack_directories_loop prev ds
          = adjacent_difference_from prev (first_entry <$> ds).
Proof.
  induction ds as [|d ds IH]; intros prev; [done|].
  cbn. f_equal. apply IH.
Qed.

Lemma size_pack_directories_loop (ds : list directory) :
  ∀ prev, size (pack_directories_loop prev ds) = size ds.
Proof.
  induction ds as [|d ds IH]; intros prev; [done|].
  simpl. by rewrite !size_cons, IH.
Qed.

Lemma first_chunk_indices_bound (inos : list inode) :
  ∀ base x, 0 ≤ base →
    x ∈ first_chunk_indices base inos ++ [base + size (all_chunks inos)] →
    0 ≤ x ≤ base + size (all_chunks inos).
Proof.
  induction inos as [|ino inos IH]; intros base x Hbase Hx.
  - simpl in Hx. apply list_elem_of_singleton in Hx as ->.
    pose proof (size_nonneg (all_chunks [])). lia.
  - rewrite all_chunks_cons, size_app.
    pose proof (size_nonneg (inode_chunks ino)).
    pose proof (size_nonneg (all_chunks inos)).
    simpl in Hx. apply elem_of_cons in Hx as [->|Hx]; [lia|].
    rewrite all_chunks_cons, size_app, Z.add_assoc in Hx.
    apply IH in Hx; lia.
Qed.

(** X11. The tables the builder emits pass the reader's
    [check_packed_tables], with and without packing. The scan has fewer
    than [2^32 - 1] directory rows and unique files, the inode manager
    numbers its inodes 0, 1, ... in the order of the visit, the chunks
    number fewer than 2^32, the first entries of the directories do not
    decrease from a first one that is not negative up to the number of
    directory entries in the sentinel row, and every parent entry is an
    index into the directory entries. *)
Theorem built_image_passes_packed_tables (PRJ_GIT_ID : string)
    (string_table_pack : bool → list string → string_table)
    (opts : scanner_options) (now : Z) (sd : scan_data) (m : metadata) :
  scan_metadata PRJ_GIT_ID string_table_pack opts now sd = Ok m →
  size (sd_directories sd) < UINT32_MAX →
  size (sd_file_inodes sd) + 1 < UINT32_MAX →
  num <$> sd_file_inodes sd = seqZ 0 (size (sd_file_inodes sd)) →
  size (all_chunks (sd_file_inodes sd)) < 2 ^ 32 →
  is_sorted (0 :: (first_entry <$> sd_directories sd)) = true →
  list.last (first_entry <$> sd_directories sd)
    = Some (size (sd_dir_entries sd)) →
  size (sd_dir_entries sd) < 2 ^ 32 →
  (∀ d, d ∈ sd_directories sd → parent_entry d < size (sd_dir_entries sd)) →
  check_packed_tables m = Ok tt.
Proof.
  intros Hscan Hnd Hni Hnum Hc Hsorted Hlast Hde Hparent.
  unfold scan_metadata in Hscan.
  rewrite (save_chunks_spec _ Hnum Hc) in Hscan.
  cbv beta iota zeta delta [mbind result_bind] in Hscan.
  destruct (if pack_shared_files_table opts
            then pack_shared_files (sd_shared_files sd)
            else Ok (sd_shared_files sd)) as [shared|]; [|discriminate].
  injection Hscan as <-.
  set (inos := sd_file_inodes sd) in *.
  set (dirs := sd_directories sd) in *.
  set (dirent := sd_dir_entries sd) in *.
  set (table := first_chunk_indices 0 inos ++ [size (all_chunks inos)]).
  pose proof (size_nonneg inos). pose proof (size_nonneg (all_chunks inos)).
  assert (is_sorted table = true) as Htable
    by apply (first_chunk_indices_sorted inos 0).
  assert (∀ x, x ∈ table → 0 ≤ x < 2 ^ 32) as Hbound.
  { intros x Hx. apply (first_chunk_indices_bound inos 0) in Hx; lia. }
  assert (size table = size inos + 1) as Hsize.
  { unfold table. rewrite size_app, size_first_chunk_indices. done. }
  destruct (is_sorted_cons_inv _ _ Hsorted) as [Hsorted' Hfirst0].
  assert (∀ d, d ∈ dirs → first_entry d ≤ size dirent) as Hfirst.
  { intros d Hd. apply list_elem_of_lookup in Hd as [i Hi].
    rewrite last_lookup in Hlast.
    eapply (is_sorted_lookup _ Hsorted' i); [| exact Hlast |].
    - by rewrite list_lookup_fmap, Hi.
    - apply lookup_lt_Some in Hi. rewrite length_fmap. lia. }
  unfold check_packed_tables, option_set.
  cbn [directories chunk_table options dir_entries chunks inodes
       packed_directories packed_chunk_table from_option].
  fold table.
  assert (for_each
            (λ d, throw_if (size dirent <? first_entry d)
                           "first_entry out of range" ;;
                  throw_if (size dirent <=? parent_entry d)
                           "parent_entry out of range") dirs = Ok tt) as Hfe.
  { apply for_each_Ok. intros d Hd.
    assert ((size dirent <? first_entry d) = false) as ->
      by (apply Z.ltb_ge; by apply Hfirst).
    assert ((size dirent <=? parent_entry d) = false) as ->
      by (apply Z.leb_gt; by apply Hparent).
    done. }
  assert (existsb (λ i, negb (parent_entry i =? 0))
            (pack_directory_table dirs) = false) as Hzero.
  { apply not_true_is_false. intros (d & Hd & Hp)%existsb_exists.
    apply list_elem_of_In, packed_parent_entries_zero in Hd.
    rewrite Hd in Hp. done. }
  assert (accumulate (λ n d, u64 (n + first_entry d)) 0
            (pack_directory_table dirs) = size dirent) as Hsum.
  { unfold accumulate, pack_directory_table.
    rewrite <- (foldl_fmap (λ n c, u64 (n + c)) 0 _ first_entry).
    rewrite first_entry_pack_directories_loop.
    rewrite adjacent_difference_from_sum; [| done | done |].
    - by rewrite Hlast.
    - intros x (d & -> & Hd)%list_elem_of_fmap.
      specialize (Hfirst d Hd). lia. }
  assert (size (pack_directory_table dirs) = size dirs) as Hpsize
    by apply size_pack_directories_loop.
  pose proof (adjacent_difference_sum table (size (all_chunks inos))
                Htable Hbound (last_snoc _ _)) as Hcsum.
  assert (back table = Ok (size (all_chunks inos))) as Hback
    by (unfold back, table; by rewrite last_snoc).
  destruct (pack_directories opts), (pack_chunk_table opts);
    rewrite ?Hpsize, ?size_adjacent_difference, ?Hzero, ?Hsum, ?Hfe, ?Hcsum,
      ?Hback, ?is_sorted_by_first_entry, ?Hsorted', ?Htable, ?Z.eqb_refl;
    (assert ((UINT32_MAX <=? size dirs) = false) as ->
       by (by apply Z.leb_gt));
    (assert ((UINT32_MAX <=? size table) = false) as ->
       by (apply Z.leb_gt; lia));
    cbn [throw_if negb mbind result_bind];
    rewrite ?Hpsize, ?size_adjacent_difference, ?Hzero, ?Hsum, ?Hfe, ?Hcsum,
      ?Hback, ?is_sorted_by_first_entry, ?Hsorted', ?Htable, ?Z.eqb_refl;
    cbn [throw_if negb mbind result_bind orb];
    rewrite ?Hpsize, ?size_adjacent_difference, ?Hzero, ?Hsum, ?Hfe, ?Hcsum,
      ?Hback, ?is_sorted_by_first_entry, ?Hsorted', ?Htable, ?Z.eqb_refl;
    reflexivity.
Qed.

Lemma built_image_passes_packed_tables_witness :
  sample_scan packed_options 0 = Ok sample_packed_image ∧
  check_packed_tables sample_packed_image = Ok tt.
Proof.
  assert (sample_scan packed_options 0 = Ok sample_packed_image) as H
    by (vm_compute; reflexivity).
  split; [exact H|].
  apply (built_image_passes_packed_tables "v0.5" sample_string_table_pack
           packed_options 0 sample_data sample_packed_image H).
  - vm_compute. reflexivity.
  - vm_compute. reflexivity.
  - reflexivity.
  - vm_compute. reflexivity.
  - reflexivity.
  - reflexivity.
  - vm_compute. reflexivity.
  - intros d Hd.
    repeat (apply elem_of_cons in Hd as [->|Hd]); try (vm_compute; reflexivity).
    inversion Hd.
Defined.

(** ** The parent of a directory in the reader's view of a built tree *)

Lemma parent_inode_valid_tree (g : global_metadata) (dirs : list directory)
    (dirent : list dir_entry) (d : Z) :
  directories_ g = dirs →
  dir_entries (meta_ g) = Some dirent →
  valid_tree dirs dirent = true →
  1 ≤ d < size dirs - 1 →
  ∃ p, directory_view_parent_inode (mk_directory_view d g) = Ok p ∧
       0 ≤ p < d ∧ parent_dir dirs dirent d p.
Proof.
  intros Hdirs Hde Hvalid Hd.
  destruct (valid_tree_is_listed dirs dirent Hvalid d Hd) as [_ [p Hp]].
  destruct (parent_dir_facts dirs dirent Hvalid d p Hd Hp) as [Hlt Hpar].
  pose proof Hp as [Hpn _].
  destruct (find_entry_Some _ _ _ (entry_index_dir dirs dirent Hvalid p Hpn))
    as (_ & pde & Hpde%at_Ok & Hino).
  exists p. split; [|split; [lia | done]].
  unfold directory_view_parent_inode, directory_view_parent_entry,
    parent_dir_entry.
  cbn [inode_ dv_g_]. rewrite Hdirs, Hde.
  assert ((d =? 0) = false) as -> by (apply Z.eqb_neq; lia).
  destruct (lookup_lt_is_Some_2 dirs (Z.to_nat d)) as [x Hx].
  { unfold size in Hd. lia. }
  unfold dir_parent in Hpar. rewrite Hx in Hpar.
  apply at_Ok in Hx. rewrite Hx.
  cbv beta iota zeta delta [mbind result_bind].
  by rewrite Hpar, Hpde, Hino.
Qed.

(** X12. In the reader's view of an image built from a valid tree, with
    the directories table packed or not, the parent inode of every
    directory [d] other than the root is the directory [p] that lists
    the entry of [d], and [p] is numbered before [d]. The view is built
    with one step of the traversal per directory. *)
Theorem built_tree_parent_inode (PRJ_GIT_ID : string)
    (string_table_pack : bool → list string → string_table)
    (string_table_new : string_table → list string)
    (opts : scanner_options) (now : Z) (sd : scan_data) (m : metadata)
    (fuel : nat) (d : Z) :
  scan_metadata PRJ_GIT_ID string_table_pack opts now sd = Ok m →
  valid_tree (sd_directories sd) (sd_dir_entries sd) = true →
  size (sd_directories sd) - 1 ≤ Z.of_nat fuel →
  1 ≤ d < size (sd_directories sd) - 1 →
  ∃ g p,
    global_metadata_new string_table_new fuel m false = Ok g ∧
    directory_view_parent_inode (mk_directory_view d g) = Ok p ∧
    0 ≤ p < d ∧
    parent_dir (sd_directories sd) (sd_dir_entries sd) d p.
Proof.
  intros Hscan Hvalid Hfuel Hd.
  assert (∃ g, global_metadata_new string_table_new fuel m false = Ok g ∧
               directories_ g = sd_directories sd ∧
               dir_entries (meta_ g) = Some (sd_dir_entries sd))
    as (g & Hg & Hdirs & Hde).
  { unfold scan_metadata in Hscan.
    apply bind_Ok in Hscan as ([ct cs] & _ & Hscan).
    apply bind_Ok in Hscan as (shared & _ & Hscan).
    injection Hscan as <-.
    unfold global_metadata_new, check_metadata.
    cbv beta iota zeta delta [mbind result_bind].
    destruct (pack_directories opts) eqn:Hpack.
    - rewrite (unpack_pack_directories _ (sd_directories sd)
                 (sd_dir_entries sd)); try done.
      + eexists. split; [reflexivity|]. unfold directories_.
        cbn [directories_storage_ meta_ dir_entries].
        split; [|done].
        destruct (sd_directories sd); [|done].
        unfold size in Hd. simpl in Hd. lia.
    - unfold unpack_directories, option_set. cbn [options packed_directories].
      eexists. split; [reflexivity|]. done. }
  destruct (parent_inode_valid_tree g _ _ d Hdirs Hde Hvalid Hd)
    as (p & Hp & Hlt & Hpar).
  by exists g, p.
Qed.

Lemma built_tree_parent_inode_witness :
  sample_scan packed_options 0 = Ok sample_packed_image ∧
  ∃ g, global_metadata_new (λ _, []) 3 sample_packed_image false = Ok g ∧
       directory_view_parent_inode (mk_directory_view 2 g) = Ok 1.
Proof.
  assert (sample_scan packed_options 0 = Ok sample_packed_image) as H
    by (vm_compute; reflexivity).
  split; [exact H|].
  destruct (built_tree_parent_inode "v0.5" sample_string_table_pack (λ _, [])
              packed_options 0 sample_data sample_packed_image 3 2 H)
    as (g & p & Hg & Hp & Hlt & _).
  - vm_compute. reflexivity.
  - vm_compute. discriminate.
  - vm_compute. split; [discriminate | reflexivity].
  - exists g. split; [exact Hg|].
    vm_compute in Hg. injection Hg as <-.
    pose proof Hp as Hp'. vm_compute in Hp'. injection Hp' as <-. exact Hp.
Defined.

(** * Further properties of the scan ([add_entry], [scan_tree]) *)

Section AddEntryProperties.

Variable create : string → result (option entry).
Variable access : string → Z.
Variable pe_scan : entry → result unit.
Variable fs_scan : entry → result unit.
Variable script_ : option script.
Variable options_ : scanner_options.

Local Abbreviation add_entry' :=
  (add_entry create access pe_scan fs_scan script_ options_).
Local Abbreviation read_directory' :=
  (read_directory create access pe_scan fs_scan script_ options_).
Local Abbreviation add_entry_with' :=
  (add_entry_with create access pe_scan fs_scan script_ options_).
Local Abbreviation read_directory_with' :=
  (read_directory_with create access pe_scan fs_scan script_ options_).

(** Splits a call of [add_entry] into the paths through its body;
    [Hnull] and [Hdebug] say that the call stays off the two reads the
    source leaves undefined. *)
Ltac add_entry_paths f name debug_filter Hnull Hdebug :=
  unfold add_entry_with, try_catch_system_error, mbind, scanM_bind, lift;
  let pe := fresh "pe" in
  let pe' := fresh "pe" in
  let e := fresh "e" in
  let g := fresh "g" in
  let exclude := fresh "exclude" in
  let Ht := fresh "Ht" in
  let Hcreate := fresh "Hcreate" in
  destruct (create name) as [[pe|]|e] eqn:Hcreate;
  [ cbn [apply_script_to];
    destruct (apply_script script_ pe) as [exclude pe']; cbn [fst snd]
  | cbn [apply_script_to]; rewrite (Hnull eq_refl); cbn [fst snd]
  | destruct e; cbn ];
  try (destruct debug_filter;
       [ destruct f as [g|]; [|by destruct (Hdebug eq_refl)];
         unfold debug_filter_call, when, lift;
         match goal with
         | |- context [g ?x ?y] => destruct (g x y) as [[]|[]]
         end
       | unfold debug_filter_call, when, lift ];
       cbn;
       try (destruct exclude; cbn;
            unfold check_entry, count_entry, when, mbind, scanM_bind, lift,
              mret, scanM_ret;
            try (destruct (type pe') eqn:Ht;
                 destruct (access (entry_path pe') =? 0);
                 destruct (with_devices options_), (with_specials options_);
                 cbn; rewrite ?Ht; cbn;
                 repeat match goal with
                 | |- context [pe_scan ?x] =>
                     destruct (pe_scan x) as [[]|[]]; cbn
                 | |- context [fs_scan ?x] =>
                     destruct (fs_scan x) as [[]|[]]; cbn
                 end))).

(** What one call of [add_entry] may do to the entries of the parent. *)
Lemma add_entry_parent_entries
    (f : option (bool → option entry → result unit))
    (name : string) (debug_filter : bool) (st : scan_state) :
  (create name = Ok None → script_reads_entry script_ = false) →
  (debug_filter = true → is_Some f) →
  let r := add_entry_with' f name debug_filter st in
  (∀ what, r.2 ≠ Err (SystemError what)) ∧
  match r.2 with
  | Ok (Some pe) => parent_entries r.1 = parent_entries st ++ [pe]
  | _ => parent_entries r.1 = parent_entries st ∨
         ∃ pe, parent_entries r.1 = parent_entries st ++ [pe]
  end.
Proof.
  intros Hnull Hdebug. cbv zeta.
  add_entry_paths f name debug_filter Hnull Hdebug;
    (split; [done|]); first [done | by left | right; by eexists].
Qed.


(** X14. A device entry when [with_devices] is off, and a special entry
    when [with_specials] is off, is dropped before anything is recorded:
    [add_entry] returns no entry, and the parent directory, the
    counters and the log stay as they were. *)
Theorem add_entry_dropped_by_options (name : string) (debug_filter : bool)
    (st : scan_state) (pe0 pe : entry) :
  create name = Ok (Some pe0) →
  apply_script script_ pe0 = (false, pe) →
  type pe = E_DEVICE ∧ with_devices options_ = false ∨
  type pe = E_OTHER ∧ with_specials options_ = false →
  add_entry' name debug_filter st = (st, Ok None).
Proof.
  intros Hcreate Hscript Hdrop.
  rewrite (add_entry_of_entry _ _ _ _ _ _ _ _ _ _ _ Hcreate Hscript).
  unfold try_catch_system_error, mbind, scanM_bind. unfold check_entry.
  by destruct Hdrop as [[-> ->] | [-> ->]].
Qed.

(** X15. When the scan of a directory entry raises [std::system_error],
    the entry has already been added to its parent and counted as a
    found directory; [add_entry] logs the error, counts it and returns no
    entry, so the loop over the names of the parent goes on without
    queueing the directory. *)
Theorem add_entry_scan_error (name : string) (st : scan_state)
    (pe0 pe : entry) (what : string) :
  create name = Ok (Some pe0) →
  apply_script script_ pe0 = (false, pe) →
  type pe = E_DIR →
  pe_scan pe = Err (SystemError what) →
  let st' :=
    mk_scan_state
      (errors_incr (dirs_found_incr (prog st)))
      (parent_entries st ++ [pe])
      (log st ++ ["E error reading entry: " +:+ what]) in
  add_entry' name false st = (st', Ok None) ∧
  ∀ names subdirs, name ≠ "." → name ≠ ".." →
    read_directory' false (name :: names) subdirs st
    = read_directory' false names subdirs st'.
Proof.
  intros Hcreate Hscript Htype Hscan st'.
  assert (add_entry' name false st = (st', Ok None)) as Hadd.
  { rewrite (add_entry_of_entry _ _ _ _ _ _ _ _ _ _ _ Hcreate Hscript).
    unfold try_catch_system_error, mbind, scanM_bind, lift.
    unfold check_entry. rewrite Htype. cbn.
    unfold count_entry. rewrite Htype. cbn. by rewrite Hscan. }
  split; [exact Hadd|].
  intros names subdirs Hdot Hdotdot.
  by rewrite read_directory_cons, Hadd by done.
Qed.


End AddEntryProperties.


Lemma add_entry_dropped_by_options_witness :
  add_entry sample_create_mixed sample_access sample_scan_ok sample_scan_ok
    None no_devices_options "null" false sample_state
  = (sample_state, Ok None).
Proof.
  apply (add_entry_dropped_by_options sample_create_mixed sample_access
           sample_scan_ok sample_scan_ok None no_devices_options "null" false
           sample_state
           (mk_entry "null" "/somedir/null" E_DEVICE 10000)
           (mk_entry "null" "/somedir/null" E_DEVICE 10000)).
  - reflexivity.
  - reflexivity.
  - left. split; reflexivity.
Defined.

Lemma add_entry_scan_error_witness :
  add_entry sample_create_mixed sample_access sample_scan_sub_fails
    sample_scan_ok None plain_options "sub" false sample_state
  = (mk_scan_state (mk_progress 1 3 1 3 1 1 0)
       [mk_entry "sub" "/somedir/sub" E_DIR 10000]
       ["E error reading entry: Permission denied"],
     Ok None).
Proof.
  destruct (add_entry_scan_error sample_create_mixed sample_access
              sample_scan_sub_fails sample_scan_ok None plain_options
              "sub" sample_state
              (mk_entry "sub" "/somedir/sub" E_DIR 10000)
              (mk_entry "sub" "/somedir/sub" E_DIR 10000)
              "Permission denied") as [Hadd _].
  - reflexivity.
  - reflexivity.
  - reflexivity.
  - reflexivity.
  - exact Hadd.
Defined.


(** ** The status line ([status_string]) *)

Lemma find_char_from_range (c : ascii) (s : string) :
  ∀ pos i, find_char_from c s pos = Some i →
    (pos ≤ i < String.length s)%nat.
Proof.
  induction s as [|a s IH]; intros pos i H; [done|].
  simpl in H. destruct pos as [|pos].
  - destruct (Ascii.eqb a c).
    + injection H as <-. simpl. lia.
    + destruct (find_char_from c s 0) as [j|] eqn:Hj; [|done].
      injection H as <-. apply IH in Hj. simpl. lia.
  - destruct (find_char_from c s pos) as [j|] eqn:Hj; [|done].
    injection H as <-. apply IH in Hj. simpl. lia.
Qed.

Lemma string_find_range (s : string) (c : ascii) (pos : Z) :
  0 ≤ pos →
  string_find s c pos = npos ∨ pos ≤ string_find s c pos < slen s.
Proof.
  intros Hpos. unfold string_find, slen.
  destruct (find_char_from c s (Z.to_nat pos)) as [i|] eqn:Hi; [|by left].
  apply find_char_from_range in Hi. right. lia.
Qed.

Lemma slen_app (s1 s2 : string) : slen (s1 +:+ s2) = slen s1 + slen s2.
Proof.
  unfold slen. induction s1 as [|a s1 IH]; [done|].
  change (String a s1 +:+ s2) with (String a (s1 +:+ s2)).
  cbn [String.length]. lia.
Qed.

Lemma slen_string_drop (n : nat) (s : string) :
  slen (string_drop n s) = Z.max 0 (slen s - Z.of_nat n).
Proof.
  unfold slen. revert s. induction n as [|n IH]; intros s.
  - simpl. lia.
  - destruct s as [|a s]; [simpl; lia|]. simpl string_drop. rewrite IH.
    cbn [String.length]. lia.
Qed.

Lemma slen_nonneg (s : string) : 0 ≤ slen s.
Proof. unfold slen. lia. Qed.

(** The loop ends: at a separator from which the rest of the path fits,
    or with [npos]. *)
Lemma status_string_start_spec (path : string) (max_len : Z) (fuel : nat) :
  ∀ start,
    slen path < 2 ^ 63 →
    0 ≤ start ≤ slen path →
    slen path - start < Z.of_nat fuel →
    ∃ r, status_string_start fuel path (slen path) max_len start = Ok r ∧
         (r = npos ∨ start ≤ r ≤ slen path ∧ slen path - r ≤ max_len).
Proof.
  induction fuel as [|fuel IH]; intros start Hlen Hstart Hfuel; [lia|].
  cbn [status_string_start].
  assert ((start =? npos) = false) as ->
    by (apply Z.eqb_neq; unfold npos; lia).
  rewrite (u64_small (slen path - start)) by lia.
  destruct (max_len <? slen path - start) eqn:Hcmp; cbn [negb andb].
  - apply Z.ltb_lt in Hcmp. rewrite (u64_small (start + 1)) by lia.
    destruct (string_find_range path "/" (start + 1)) as [-> | Hr]; [lia| |].
    + exists npos. split; [|by left].
      destruct fuel; reflexivity.
    + destruct (IH (string_find path "/" (start + 1))) as (r & -> & Hres);
        [done | lia | lia |].
      exists r. split; [done|]. destruct Hres as [->|Hres]; [by left|].
      right. lia.
  - apply Z.ltb_ge in Hcmp. exists start. split; [done|]. right. lia.
Qed.

(** X17. With room for the label and the three dots, the status line of
    an entry or inode fits the width: [status_string] returns the label
    followed by the path, or by ["..."] and what is left of the path
    from some position on, and the result is no longer than [width].
    Sizes are [size_t]; the path is shorter than 2^63. *)
Theorem status_string_fits (cp : current_object) (label path : string)
    (width : Z) :
  cp = CurEntry path ∧ label = "scanning: " ∨
  cp = CurInode path ∧ label = "writing: " →
  slen label + 3 ≤ width < 2 ^ 64 →
  slen path < 2 ^ 63 →
  ∃ s, status_string (Some cp) width = Ok s ∧
       slen s ≤ width ∧
       (s = label +:+ path ∨
        ∃ k, s = label +:+ "..." +:+ string_drop k path).
Proof.
  intros Hcp Hwidth Hlen.
  assert (status_string (Some cp) width
          = status_string_label label path width) as ->
    by (by destruct Hcp as [[-> ->] | [-> ->]]).
  clear Hcp. pose proof (slen_nonneg label). pose proof (slen_nonneg path).
  unfold status_string_label. rewrite (u64_small (width - slen label)) by lia.
  destruct (width - slen label <? slen path) eqn:Hcmp.
  - apply Z.ltb_lt in Hcmp.
    rewrite (u64_small (width - slen label - 3)) by lia.
    destruct (status_string_start_spec path (width - slen label - 3)
                (S (String.length path)) 0) as (r & -> & Hr);
      [done | lia | unfold slen; lia |].
    cbv beta iota zeta delta [mbind result_bind].
    eexists. split; [reflexivity|].
    unfold string_replace_prefix. split; [|right; by eexists].
    rewrite !slen_app, slen_string_drop. change (slen "...") with 3.
    destruct Hr as [-> | Hr].
    + rewrite Z.eqb_refl.
      assert (u64 (width - slen label - 3 - slen path)
              = 2 ^ 64 + (width - slen label - 3 - slen path)) as ->.
      { unfold u64, wrap.
        rewrite <- (Z.mod_add _ 1) by lia.
        rewrite Z.mod_small; lia. }
      lia.
    + assert ((r =? npos) = false) as ->
        by (apply Z.eqb_neq; unfold npos; lia).
      lia.
  - apply Z.ltb_ge in Hcmp. eexists. split; [reflexivity|].
    split; [rewrite slen_app; lia | by left].
Qed.

Lemma status_string_fits_witness :
  ∃ s, status_string (Some (CurEntry "/usr/share/doc/dwarfs/README.md")) 30
       = Ok s ∧ slen s ≤ 30.
Proof.
  destruct (status_string_fits (CurEntry "/usr/share/doc/dwarfs/README.md")
              "scanning: " "/usr/share/doc/dwarfs/README.md" 30)
    as (s & Hs & Hle & _).
  - left. split; reflexivity.
  - vm_compute. split; [discriminate | reflexivity].
  - vm_compute. reflexivity.
  - exists s. split; [exact Hs | exact Hle].
Defined.

(** X18. On a width that holds the label but not the three dots as
    well, a path that does not fit is not shortened at all:
    [max_len - 3] wraps around, the loop stops at once, and the result is
    the label, ["..."] and the whole path, which is longer than
    [width]. *)
Theorem status_string_narrow (cp : current_object) (label path : string)
    (width : Z) :
  cp = CurEntry path ∧ label = "scanning: " ∨
  cp = CurInode path ∧ label = "writing: " →
  slen label ≤ width < slen label + 3 →
  width - slen label < slen path < 2 ^ 63 →
  status_string (Some cp) width = Ok (label +:+ "..." +:+ path).
Proof.
  intros Hcp Hwidth Hlen.
  assert (status_string (Some cp) width
          = status_string_label label path width) as ->
    by (by destruct Hcp as [[-> ->] | [-> ->]]).
  clear Hcp. pose proof (slen_nonneg label). pose proof (slen_nonneg path).
  unfold status_string_label. rewrite (u64_small (width - slen label)) by lia.
  assert ((width - slen label <? slen path) = true) as ->
    by (apply Z.ltb_lt; lia).
  assert (u64 (width - slen label - 3) = 2 ^ 64 + (width - slen label - 3))
    as ->.
  { unfold u64, wrap. rewrite <- (Z.mod_add _ 1) by lia.
    rewrite Z.mod_small; lia. }
  cbn [status_string_start].
  change (0 =? npos) with false. rewrite Z.sub_0_r.
  rewrite (u64_small (slen path)) by lia.
  assert ((2 ^ 64 + (width - slen label - 3) <? slen path) = false) as ->
    by (apply Z.ltb_ge; lia).
  cbn [negb andb]. cbv beta iota zeta delta [mbind result_bind].
  change (0 =? npos) with false. unfold string_replace_prefix.
  rewrite Z.min_l by lia. reflexivity.
Qed.

Lemma status_string_narrow_witness :
  status_string (Some (CurInode "/usr/share/doc")) 10
  = Ok "writing: .../usr/share/doc".
Proof.
  apply (status_string_narrow (CurInode "/usr/share/doc") "writing: "
           "/usr/share/doc" 10).
  - right. split; reflexivity.
  - vm_compute. split; [discriminate | reflexivity].
  - vm_compute. split; reflexivity.
Defined.

(** ** The path of a directory in a valid tree ([dir_entry_view::path]) *)

Section DirectoryPaths.

Variable g : global_metadata.
Variable dirs : list directory.
Variable dirent : list dir_entry.
Hypothesis Hdirs : directories_ g = dirs.
Hypothesis Hsize : size (directories (meta_ g)) = size dirs.
Hypothesis Hdirent : dir_entries (meta_ g) = Some dirent.
Hypothesis Hvalid : valid_tree dirs dirent = true.
Hypothesis Hnames :
  ∀ de, de ∈ dirent → is_ok (at_ (names_ g) (name_index de)) = true.

(** The view of the own entry of directory [d]. *)
Lemma from_dir_entry_index_directory (d : Z) :
  0 ≤ d < size dirs - 1 →
  ∃ dev, dev ∈ dirent ∧ inode_num dev = d ∧
    from_dir_entry_index (entry_index dirent d) g
    = Ok (mk_dir_entry_view (DirEntryView dev) (entry_index dirent d)
            (dir_parent dirs d) g).
Proof.
  intros Hd.
  destruct (find_entry_Some _ _ _ (entry_index_dir dirs dirent Hvalid d Hd))
    as (He0 & dev & Hdev & Hino).
  exists dev. split; [by eapply list_elem_of_lookup_2|]. split; [done|].
  unfold from_dir_entry_index. rewrite Hdirent.
  assert ((entry_index dirent d <? size dirent) = true) as ->.
  { apply Z.ltb_lt. apply lookup_lt_Some in Hdev. unfold size. lia. }
  apply at_Ok in Hdev. rewrite Hdev.
  cbv beta iota zeta delta [mbind result_bind DWARFS_CHECK].
  rewrite Hino, Hsize.
  assert ((d <? size dirs) = true) as -> by (apply Z.ltb_lt; lia).
  unfold parent_dir_entry. rewrite Hdirs.
  destruct (lookup_lt_is_Some_2 dirs (Z.to_nat d)) as [x Hx].
  { unfold size in Hd. lia. }
  unfold dir_parent. rewrite Hx. apply at_Ok in Hx. by rewrite Hx.
Qed.

Lemma append_path_to_directory (fuel : nat) :
  ∀ (d : Z) (dev : dir_entry) (acc : string),
    0 ≤ d < size dirs - 1 → d < Z.of_nat fuel →
    dev ∈ dirent → inode_num dev = d →
    ∃ s, dir_entry_view_append_path_to fuel
           (mk_dir_entry_view (DirEntryView dev) (entry_index dirent d)
              (dir_parent dirs d) g) acc = Ok s.
Proof.
  induction fuel as [|fuel IH]; intros d dev acc Hd Hfuel Hdev Hino; [lia|].
  cbn [dir_entry_view_append_path_to].
  unfold dir_entry_view_parent, dir_entry_view_is_root, dir_entry_view_name.
  cbn [v_ parent_index_ g_]. rewrite Hino.
  destruct (d =? 0) eqn:Hd0.
  - by eexists.
  - apply Z.eqb_neq in Hd0.
    destruct (valid_tree_is_listed dirs dirent Hvalid d ltac:(lia))
      as [_ [p Hp]].
    destruct (parent_dir_facts dirs dirent Hvalid d p ltac:(lia) Hp)
      as [Hlt ->].
    pose proof Hp as [Hpn _].
    destruct (from_dir_entry_index_directory p Hpn)
      as (pdev & Hpdev & Hpino & ->).
    cbv beta iota zeta delta [mbind result_bind]. cbn [v_ negb].
    rewrite Hpino.
    specialize (Hnames dev Hdev).
    destruct (at_ (names_ g) (name_index dev)) as [nm|]; [|done].
    destruct (p =? 0).
    + by eexists.
    + destruct (IH p pdev acc Hpn ltac:(lia) Hpdev Hpino) as (s & ->).
      by eexists.
Qed.

(** X19. In the reader's view of a valid tree, the path of every
    directory is defined: the view of the own entry of directory [d]
    exists, it is the root exactly for [d = 0], and [path()] returns
    within [d + 1] nested calls of [append_path_to], because the parent
    of a directory is numbered before it. Every name index of the
    directory entries is taken to be in the names table. *)
Theorem directory_path_defined (d : Z) :
  0 ≤ d < size dirs - 1 →
  ∃ v s,
    from_dir_entry_index (entry_index dirent d) g = Ok v ∧
    dir_entry_view_is_root v = bool_decide (d = 0) ∧
    dir_entry_view_path (S (Z.to_nat d)) v = Ok s.
Proof.
  intros Hd.
  destruct (from_dir_entry_index_directory d Hd) as (dev & Hdev & Hino & Hv).
  destruct (append_path_to_directory (S (Z.to_nat d)) d dev "" Hd
              ltac:(lia) Hdev Hino) as (s & Hs).
  eexists _, s. split; [exact Hv|]. split; [|exact Hs].
  unfold dir_entry_view_is_root. cbn [v_]. rewrite Hino.
  destruct (decide (d = 0)) as [->|Hne].
  - done.
  - rewrite bool_decide_eq_false_2 by done. by apply Z.eqb_neq.
Qed.

End DirectoryPaths.

Lemma directory_path_defined_witness :
  ∃ v, from_dir_entry_index 11 sample_global = Ok v ∧
       dir_entry_view_path 3 v = Ok "somedir/sub".
Proof.
  destruct (directory_path_defined sample_global
              (sd_directories sample_data) (sd_dir_entries sample_data))
    with (d := 2) as (v & s & Hv & _ & Hs).
  - reflexivity.
  - reflexivity.
  - reflexivity.
  - vm_compute. reflexivity.
  - intros de Hde.
    repeat (apply elem_of_cons in Hde as [->|Hde]);
      try (vm_compute; reflexivity).
    inversion Hde.
  - vm_compute. split; [discriminate | reflexivity].
  - exists v. split; [exact Hv|].
    vm_compute in Hv. injection Hv as <-.
    pose proof Hs as Hs'. vm_compute in Hs'. injection Hs' as <-. exact Hs.
Defined.

(** ** The number of entries of a directory ([directory_view::entry_count]) *)

(** X20. In an accepted image with an unpacked directories table,
    [entry_count()] of every directory is defined and is the number of
    entries the directory lists, [first_entry(d+1) - first_entry(d)]: the
    32-bit subtraction does not wrap, since the first entries are
    sorted. First entries are 32-bit values. *)
Theorem accepted_entry_count (g : global_metadata) (m : metadata) (d : Z) :
  check_metadata (meta_ g) true = Ok m →
  option_set packed_directories (meta_ g) = false →
  directories_storage_ g = [] →
  (∀ x, x ∈ directories (meta_ g) → 0 ≤ first_entry x < 2 ^ 32) →
  0 ≤ d < size (directories (meta_ g)) - 1 →
  directory_view_entry_count (mk_directory_view d g)
  = Ok (size (entries_of (directories (meta_ g)) d)) ∧
  0 ≤ dir_first (directories (meta_ g)) (d + 1)
      - dir_first (directories (meta_ g)) d.
Proof.
  intros H Hopt Hst Hfirst Hd.
  pose proof H as (_ & _ & _ & Hp & _)%check_metadata_Ok.
  pose proof Hp as Hsz. unfold check_packed_tables in Hsz.
  apply bind_Ok in Hsz as ([] & Hsz%throw_if_Ok%Z.leb_gt & _).
  destruct (check_packed_tables_unpacked _ Hp Hopt) as [Hsorted _].
  set (dirs := directories (meta_ g)) in *.
  destruct (lookup_lt_is_Some_2 dirs (Z.to_nat d)) as [x Hx].
  { unfold size in Hd. lia. }
  destruct (lookup_lt_is_Some_2 dirs (Z.to_nat (d + 1))) as [y Hy].
  { unfold size in Hd. lia. }
  assert (first_entry x ≤ first_entry y) as Hle.
  { eapply (is_sorted_lookup _ Hsorted (Z.to_nat d) (Z.to_nat (d + 1)));
      [by rewrite list_lookup_fmap, Hx | by rewrite list_lookup_fmap, Hy | lia]. }
  assert (0 ≤ first_entry y < 2 ^ 32) as Hyb
    by (eapply Hfirst, list_elem_of_lookup_2, Hy).
  assert (0 ≤ first_entry x < 2 ^ 32) as Hxb
    by (eapply Hfirst, list_elem_of_lookup_2, Hx).
  unfold entries_of, dir_first. rewrite Hx, Hy. split; [|lia].
  unfold directory_view_entry_count, directory_view_first_entry,
    first_dir_entry, directories_.
  cbn [inode_ dv_g_]. rewrite Hst. fold dirs.
  unfold UINT32_MAX in Hsz. rewrite (u32_small (d + 1)) by lia.
  apply at_Ok in Hx, Hy. rewrite Hx, Hy.
  cbv beta iota zeta delta [mbind result_bind].
  rewrite u32_small by lia. f_equal.
  unfold size. rewrite length_seqZ. lia.
Qed.

Lemma accepted_entry_count_witness :
  directory_view_entry_count
    (mk_directory_view 1 (mk_global_metadata sample_image [] []))
  = Ok 7.
Proof.
  apply (accepted_entry_count (mk_global_metadata sample_image [] [])
           sample_image 1).
  - vm_compute. reflexivity.
  - reflexivity.
  - reflexivity.
  - intros x Hx.
    repeat (apply elem_of_cons in Hx as [->|Hx]);
      [vm_compute; split; [discriminate | reflexivity] ..|].
    inversion Hx.
  - vm_compute. split; [discriminate | reflexivity].
Defined.

(** ** Collecting the shared files ([save_shared_files_visitor]) *)

Lemma set_at_Ok (v : list Z) (i x : Z) :
  0 ≤ i < size v → set_at v i x = Ok (<[Z.to_nat i := x]> v).
Proof.
  intros Hi. unfold set_at.
  assert ((0 <=? i) && (i <? size v) = true) as ->; [|done].
  apply andb_true_iff. split; [apply Z.leb_le | apply Z.ltb_lt]; lia.
Qed.

(** One visit after the other: a slot holds what the files of its inode
    number wrote, and its old value when there is none. *)
Lemma save_shared_files_accept_spec (begin_shared num_unique : Z)
    (files : list file) :
  ∀ shared,
    0 ≤ begin_shared → begin_shared + size shared < 2 ^ 32 →
    (∀ p, p ∈ files →
       file_inode_num p < begin_shared + size shared ∧
       (begin_shared ≤ file_inode_num p →
          num_unique ≤ unique_file_id p)) →
    (∀ p q, p ∈ files → q ∈ files → file_inode_num p = file_inode_num q →
       unique_file_id p = unique_file_id q) →
    ∃ shared',
      save_shared_files_accept
        (mk_save_shared_files_visitor begin_shared num_unique shared) files
      = Ok (mk_save_shared_files_visitor begin_shared num_unique shared') ∧
      length shared' = length shared ∧
      (∀ p, p ∈ files → begin_shared ≤ file_inode_num p →
         shared' !! Z.to_nat (file_inode_num p - begin_shared)
         = Some (u32 (unique_file_id p - num_unique))) ∧
      (∀ k, (∀ p, p ∈ files → file_inode_num p ≠ begin_shared + Z.of_nat k) →
         shared' !! k = shared !! k).
Proof.
  induction files as [|p files IH]; intros shared Hb Hsz Hfiles Hagree.
  - exists shared. split; [done|]. split; [done|].
    split; [intros p Hp; inversion Hp | done].
  - destruct (Hfiles p) as [Hlt Hufi]; [by left|].
    cbn [save_shared_files_accept].
    unfold save_shared_files_visit.
    cbn [begin_shared_ num_unique_ shared_files_ file_inode_num].
    assert (∃ shared1,
              (if begin_shared <=? file_inode_num p
               then
                 DWARFS_CHECK (num_unique <=? unique_file_id p)
                              "inconsistent file id" ;;
                 shared ← set_at shared (u32 (file_inode_num p - begin_shared))
                                 (u32 (unique_file_id p - num_unique)) ;
                 Ok (mk_save_shared_files_visitor begin_shared num_unique
                       shared)
               else Ok (mk_save_shared_files_visitor begin_shared num_unique
                          shared))
              = Ok (mk_save_shared_files_visitor begin_shared num_unique
                      shared1) ∧
              length shared1 = length shared ∧
              (begin_shared ≤ file_inode_num p →
                 shared1 !! Z.to_nat (file_inode_num p - begin_shared)
                 = Some (u32 (unique_file_id p - num_unique))) ∧
              (∀ k, file_inode_num p ≠ begin_shared + Z.of_nat k →
                 shared1 !! k = shared !! k))
      as (shared1 & -> & Hlen1 & Hset & Hkeep).
    { destruct (begin_shared <=? file_inode_num p) eqn:Hge.
      - apply Z.leb_le in Hge.
        assert ((num_unique <=? unique_file_id p) = true) as ->
          by (apply Z.leb_le; by apply Hufi).
        rewrite (u32_small (file_inode_num p - begin_shared)) by lia.
        rewrite set_at_Ok by lia.
        eexists. split; [reflexivity|]. split; [by rewrite length_insert|].
        split.
        + intros _. apply list_lookup_insert_eq. unfold size in Hlt. lia.
        + intros k Hk. apply list_lookup_insert_ne. lia.
      - apply Z.leb_gt in Hge. exists shared. split; [done|].
        split; [done|]. split; [lia | done]. }
    cbv beta iota zeta delta [mbind result_bind].
    destruct (IH shared1) as (shared' & -> & Hlen' & Hset' & Hkeep').
    + done.
    + unfold size in *. by rewrite Hlen1.
    + intros q Hq. unfold size in *. rewrite Hlen1. apply Hfiles. by right.
    + intros q r Hq Hr. apply Hagree; by right.
    + exists shared'. split; [done|]. split; [congruence|]. split.
      * intros q Hq Hqge.
        destruct (decide (Exists (λ r, file_inode_num r = file_inode_num q)
                            files)) as [Hex|Hnex].
        -- apply Exists_exists in Hex as (r & Hr & Heq).
           rewrite <- Heq, <- (Hagree r q); [| by right | done | done].
           apply Hset'; [done | lia].
        -- assert (∀ r, r ∈ files → file_inode_num r ≠ file_inode_num q)
             as Hnone.
           { intros r Hr Heq. apply Hnex, Exists_exists. eauto. }
           apply elem_of_cons in Hq as [->|Hq]; [|by destruct (Hnone q Hq)].
           rewrite Hkeep'; [by apply Hset|].
           intros r Hr Heq. apply (Hnone r Hr). lia.
      * intros k Hk. rewrite Hkeep'.
        -- apply Hkeep. apply Hk. by left.
        -- intros r Hr. apply Hk. by right.
Qed.

(** X21. The shared-files vector the visitor collects. The files with
    inode numbers from [inode_begin + num_unique] up to [inode_end] are
    the shared ones; if each of them has a file id of at least
    [num_unique] and files with one inode number (hard links) have one
    file id, the visit raises no error, the vector has one slot per
    shared inode, the slot of a visited file holds its file id less
    [num_unique], and a slot no file writes stays 0. The inode numbers
    are 32-bit values. *)
Theorem save_shared_files_visitor_vector
    (inode_begin inode_end num_unique : Z) (files : list file) :
  0 ≤ inode_begin → 0 ≤ num_unique →
  inode_begin + num_unique ≤ inode_end < 2 ^ 32 →
  (∀ p, p ∈ files →
     file_inode_num p < inode_end ∧
     (inode_begin + num_unique ≤ file_inode_num p →
        num_unique ≤ unique_file_id p < 2 ^ 32)) →
  (∀ p q, p ∈ files → q ∈ files → file_inode_num p = file_inode_num q →
     unique_file_id p = unique_file_id q) →
  ∃ v,
    save_shared_files_visitor_new inode_begin inode_end num_unique
      ≫= (λ v, save_shared_files_accept v files) = Ok v ∧
    size (shared_files_ v) = inode_end - (inode_begin + num_unique) ∧
    (∀ p, p ∈ files → inode_begin + num_unique ≤ file_inode_num p →
       at_ (shared_files_ v) (file_inode_num p - (inode_begin + num_unique))
       = Ok (unique_file_id p - num_unique)) ∧
    (∀ k, 0 ≤ k < inode_end - (inode_begin + num_unique) →
       (∀ p, p ∈ files → file_inode_num p ≠ inode_begin + num_unique + k) →
       at_ (shared_files_ v) k = Ok 0).
Proof.
  intros Hbegin Hnum Hend Hfiles Hagree.
  set (begin_shared := inode_begin + num_unique) in *.
  unfold save_shared_files_visitor_new.
  rewrite (u32_small (inode_end - inode_begin)) by lia.
  assert ((num_unique <=? inode_end - inode_begin) = true) as ->
    by (apply Z.leb_le; lia).
  fold begin_shared. rewrite (u32_small begin_shared) by lia.
  rewrite (u32_small (inode_end - begin_shared)) by lia.
  cbv beta iota zeta delta [mbind result_bind DWARFS_CHECK].
  set (shared := replicate (Z.to_nat (inode_end - begin_shared)) 0).
  assert (size shared = inode_end - begin_shared) as Hsize
    by (unfold shared; rewrite size_replicate; lia).
  destruct (save_shared_files_accept_spec begin_shared num_unique files shared)
    as (shared' & -> & Hlen & Hset & Hkeep).
  - lia.
  - lia.
  - intros p Hp. destruct (Hfiles p Hp) as [Hlt Hufi].
    split; [lia|]. intros Hge. by apply Hufi.
  - done.
  - eexists. split; [reflexivity|]. cbn [shared_files_].
    split; [unfold size in *; lia|]. split.
    + intros p Hp Hge. apply at_Ok. rewrite (Hset p Hp Hge).
      destruct (Hfiles p Hp) as [_ Hufi]. specialize (Hufi Hge).
      by rewrite u32_small by lia.
    + intros k Hk Hnone. apply at_Ok. rewrite Hkeep.
      * unfold shared. apply lookup_replicate_2. lia.
      * intros p Hp. specialize (Hnone p Hp). lia.
Qed.

Lemma save_shared_files_visitor_vector_witness :
  ∃ v, save_shared_files_visitor_new 5 9 2
         ≫= (λ v, save_shared_files_accept v sample_files) = Ok v ∧
       shared_files_ v = [0; 0].
Proof.
  destruct (save_shared_files_visitor_vector 5 9 2 sample_files)
    as (v & Hv & _).
  - lia.
  - lia.
  - lia.
  - intros p Hp. unfold sample_files in Hp.
    repeat (apply elem_of_cons in Hp as [->|Hp]); try (simpl; lia).
    inversion Hp.
  - intros p q Hp Hq. unfold sample_files in Hp, Hq.
    repeat (apply elem_of_cons in Hp as [->|Hp]); try (by inversion Hp);
      repeat (apply elem_of_cons in Hq as [->|Hq]); try (by inversion Hq);
      simpl; lia.
  - exists v. split; [exact Hv|].
    vm_compute in Hv. injection Hv as <-. reflexivity.
Defined.

(** ** Indices into the string tables ([check_string_tables]) *)

Lemma max_element_by_key {A} (key : A → Z) (l : list A) :
  ∀ best,
    let m := max_element_by (λ a b, key a <? key b) best l in
    (m = best ∨ m ∈ l) ∧ ∀ x, x = best ∨ x ∈ l → key x ≤ key m.
Proof.
  induction l as [|y l IH]; intros best; cbn.
  - split; [by left|]. intros x [->|Hx]; [lia | inversion Hx].
  - destruct (key best <? key y) eqn:Hlt.
    + apply Z.ltb_lt in Hlt. destruct (IH y) as [Hin Hmax]. split.
      * right. destruct Hin as [->|Hin]; [by left | by right].
      * intros x [->|[->|Hx]%elem_of_cons].
        -- specialize (Hmax y (or_introl eq_refl)). lia.
        -- apply Hmax. by left.
        -- apply Hmax. by right.
    + apply Z.ltb_ge in Hlt. destruct (IH best) as [Hin Hmax]. split.
      * destruct Hin as [->|Hin]; [by left | right; by right].
      * intros x [->|[->|Hx]%elem_of_cons].
        -- apply Hmax. by left.
        -- specialize (Hmax best (or_introl eq_refl)). lia.
        -- apply Hmax. by right.
Qed.

(** X22. In an accepted image with plain string tables, every value of
    the symlink table is the index of a symlink string, and, when there
    is more than one directory entry, every name index is the index of a
    name: each table holds one string more than the greatest index in
    use. Indices are below [2^32 - 1], where the 32-bit increment of the
    greatest one does not wrap. *)
Theorem accepted_string_indices (meta m : metadata) (dep : list dir_entry) :
  check_metadata meta true = Ok m →
  dir_entries meta = Some dep →
  compact_names meta = None →
  compact_symlinks meta = None →
  (∀ de, de ∈ dep → 0 ≤ name_index de < UINT32_MAX) →
  (∀ i, i ∈ symlink_table meta → 0 ≤ i < UINT32_MAX) →
  (1 < size dep →
     ∀ de, de ∈ dep → ∃ s, at_ (names meta) (name_index de) = Ok s) ∧
  (∀ i, i ∈ symlink_table meta → ∃ s, at_ (symlinks meta) i = Ok s).
Proof.
  intros H Hdep Hcn Hcs Hnames Hlinks.
  apply check_metadata_Ok in H as (_ & _ & _ & _ & H & _).
  unfold check_string_tables in H. rewrite Hdep, Hcn, Hcs in H.
  apply bind_Ok in H as ([] & Hn & Hl).
  apply check_plain_strings_Ok in Hn as [Hn _].
  apply check_plain_strings_Ok in Hl as [Hl _].
  unfold UINT32_MAX in *. split.
  - intros Hsize de Hde. apply at_in_range.
    apply Z.ltb_lt in Hsize. rewrite Hsize in Hn.
    destruct dep as [|d0 dep']; [inversion Hde|].
    cbn [max_element] in Hn.
    destruct (max_element_by_key name_index dep' d0) as [Hin Hmax].
    cbv zeta in Hin, Hmax.
    set (mx := max_element_by (λ a b, name_index a <? name_index b) d0 dep')
      in *.
    assert (mx ∈ d0 :: dep') as Hmx
      by (destruct Hin as [->|Hin]; [by left | by right]).
    pose proof (Hnames mx Hmx). pose proof (Hnames de Hde).
    rewrite u32_small in Hn by lia.
    assert (name_index de ≤ name_index mx); [|lia].
    apply Hmax. by apply elem_of_cons in Hde.
  - intros i Hi. apply at_in_range.
    destruct (symlink_table meta) as [|x0 l]; [inversion Hi|].
    cbn [max_element] in Hl.
    destruct (max_element_by_key id l x0) as [Hin Hmax].
    cbv zeta in Hin, Hmax. unfold id in Hin, Hmax.
    change (λ a b : Z, a <? b) with Z.ltb in Hin, Hmax.
    set (mx := max_element_by Z.ltb x0 l) in *.
    assert (mx ∈ x0 :: l) as Hmx
      by (destruct Hin as [->|Hin]; [by left | by right]).
    pose proof (Hlinks mx Hmx). pose proof (Hlinks i Hi).
    rewrite u32_small in Hl by lia.
    assert (i ≤ mx); [|lia].
    apply Hmax. by apply elem_of_cons in Hi.
Qed.

Lemma accepted_string_indices_witness :
  (∀ de, de ∈ sd_dir_entries sample_data →
     ∃ s, at_ (names sample_image) (name_index de) = Ok s) ∧
  (∀ i, i ∈ symlink_table sample_image →
     ∃ s, at_ (symlinks sample_image) i = Ok s).
Proof.
  destruct (accepted_string_indices sample_image sample_image
              (sd_dir_entries sample_data)) as [Hn Hl].
  - vm_compute. reflexivity.
  - reflexivity.
  - reflexivity.
  - reflexivity.
  - intros de Hde.
    repeat (apply elem_of_cons in Hde as [->|Hde]);
      [vm_compute; split; [discriminate | reflexivity] ..|].
    inversion Hde.
  - intros i Hi.
    repeat (apply elem_of_cons in Hi as [->|Hi]);
      [vm_compute; split; [discriminate | reflexivity] ..|].
    inversion Hi.
  - split; [|exact Hl]. apply Hn. vm_compute. reflexivity.
Defined.
